(** * Verification of blenlib's C-string utilities

    A shallow embedding of [source/blender/blenlib/intern/string.c].

    - A [char] is an 8-bit [ascii]; plain [char] is signed, as on the
      x86-64 targets, and [char_val] gives its value as a C [int].
    - A pointer to constant text is the list of bytes that start at the
      pointer ([list char]).  Reading past the end of the list yields the
      terminating zero byte, so a list with no zero byte is the text of a
      C string and [strlen] is the index of its first zero byte.
    - A destination buffer is the list of the bytes the caller owns from the
      destination pointer on.  A store outside it is an out-of-bounds write
      and makes the operation fail ([None]); so does a failing [BLI_assert].
    - [size_t] quantities are lengths of, and offsets into, such lists and are
      natural numbers.  The subtractions on them are taken where the code
      has asserted or tested that they do not wrap: [maxncpy - 1] under
      [maxncpy != 0], [len - 1] under [len > 1] and [slength - elength]
      under [elength < slength].  Where the code lets a [size_t] wrap or
      casts it to [int], the quantity is an integer with the wrap written
      out ([size_t_dec], [int_of_size_t]). *)

From Stdlib Require Import ZArith Lia Ascii String.
From stdpp Require Import base option list.

Local Open Scope nat_scope.

(** ** Characters *)

Abbreviation char := ascii.

#[global] Instance char_eq_dec : EqDecision char := ascii_dec.

Definition NUL : char := Ascii.zero.

Definition is_nul (c : char) : bool := Ascii.eqb c NUL.

(** A C string literal as the bytes it denotes (without the terminator). *)
Definition lit (s : string) : list char := list_ascii_of_string s.

(** The byte as an [unsigned char]. *)
Definition uchar_val (c : char) : Z := Z.of_N (N_of_ascii c).

(** The byte as a (signed) [char], promoted to [int]. *)
Definition char_val (c : char) : Z :=
  if (uchar_val c <? 128)%Z then uchar_val c else (uchar_val c - 256)%Z.

(** ** Memory *)

(** [*(s + i)]: the byte at offset [i]; the terminator past the end. *)
Definition read (s : list char) (i : nat) : char := default NUL (s !! i).

(** [dst[i] = c]. *)
Definition store (dst : list char) (i : nat) (c : char) : option (list char) :=
  if decide (i < length dst) then Some (<[i:=c]> dst) else None.

(** The [n] bytes at [src], [src + 1], ... *)
Definition bytes (src : list char) (n : nat) : list char := read src <$> seq 0 n.

(** Modelled from the C standard library: [memcpy(dst, src, n)] overwrites
    the first [n] bytes of [dst] with the [n] bytes at [src]. *)
Definition memcpy (dst src : list char) (n : nat) : option (list char) :=
  if decide (n ≤ length dst) then Some (bytes src n ++ drop n dst) else None.

(** Modelled from the C standard library: [strlen(s)], the offset of the
    first zero byte. *)
Fixpoint strlen (s : list char) : nat :=
  match s with
  | [] => 0
  | c :: s' => if is_nul c then 0 else S (strlen s')
  end.

(** The text of the C string at [s]: the bytes before its terminator. *)
Definition cstr (s : list char) : list char := take (strlen s) s.

(** [s] holds no zero byte: the list is the text of a C string. *)
Definition nul_free (s : list char) : Prop := Forall (λ c, is_nul c = false) s.

(** [BLI_assert(b)]. *)
Definition BLI_assert (b : bool) : option unit := if b then Some () else None.

(** ** Fixed-capacity copy *)

(** [BLI_strnlen]: the [for (len = 0; len < maxlen; len++, s++)] loop,
    entered with the current [len]. *)
Fixpoint strnlen_loop (s : list char) (len maxlen : nat) : nat :=
  if decide (len < maxlen) then
    match s with
    | [] => len
    | c :: s' => if is_nul c then len else strnlen_loop s' (S len) maxlen
    end
  else len.

Definition BLI_strnlen (s : list char) (maxlen : nat) : nat := strnlen_loop s 0 maxlen.

(** [BLI_strncpy_rlen]: the destination after the call and the returned
    number of bytes copied. *)
Definition BLI_strncpy_rlen (dst src : list char) (maxncpy : nat) : option (list char * nat) :=
  _ ← BLI_assert (negb (maxncpy =? 0));
  let srclen := BLI_strnlen src (maxncpy - 1) in
  dst1 ← memcpy dst src srclen;
  dst2 ← store dst1 srclen NUL;
  Some (dst2, srclen).

(** [BLI_strncpy]: the same copy; the return value is [dst] itself. *)
Definition BLI_strncpy (dst src : list char) (maxncpy : nat) : option (list char) :=
  _ ← BLI_assert (negb (maxncpy =? 0));
  let srclen := BLI_strnlen src (maxncpy - 1) in
  dst1 ← memcpy dst src srclen;
  store dst1 srclen NUL.

(** ** Escaping *)

Definition BACKSLASH : char := "092"%char.
Definition DQUOTE : char := "034"%char.
Definition TAB : char := "009"%char.
Definition NEWLINE : char := "010"%char.
Definition CARRIAGE_RETURN : char := "013"%char.
Definition BELL : char := "007"%char.
Definition BACKSPACE : char := "008"%char.
Definition FORM_FEED : char := "012"%char.

(** The condition of the [if] in [BLI_str_escape]: [Some c'] when [c] needs
    a back-slash, with the character [c'] to put after it. *)
Definition escape_code (c : char) : option char :=
  if Ascii.eqb c BACKSLASH || Ascii.eqb c DQUOTE then Some c
  else if Ascii.eqb c TAB then Some "t"%char
  else if Ascii.eqb c NEWLINE then Some "n"%char
  else if Ascii.eqb c CARRIAGE_RETURN then Some "r"%char
  else if Ascii.eqb c BELL then Some "a"%char
  else if Ascii.eqb c BACKSPACE then Some "b"%char
  else if Ascii.eqb c FORM_FEED then Some "f"%char
  else None.

(** [BLI_str_escape]: the [for] loop entered with the current [len]; [dst]
    is the whole destination, the pointer of the code is [dst + len].  The
    result is the destination after [*dst = 0] and the returned [len]. *)
Fixpoint escape_loop (dst src : list char) (len dst_maxncpy : nat)
  : option (list char * nat) :=
  match src with
  | c :: src' =>
      if bool_decide (len < dst_maxncpy) && negb (is_nul c) then
        match escape_code c with
        | Some c' =>
            if bool_decide (dst_maxncpy ≤ len + 1) then
              (* Not enough space to escape. *)
              dst1 ← store dst len NUL; Some (dst1, len)
            else
              dst1 ← store dst len BACKSLASH;
              dst2 ← store dst1 (len + 1) c';
              escape_loop dst2 src' (len + 2) dst_maxncpy
        | None =>
            dst1 ← store dst len c;
            escape_loop dst1 src' (len + 1) dst_maxncpy
        end
      else dst1 ← store dst len NUL; Some (dst1, len)
  | [] => dst1 ← store dst len NUL; Some (dst1, len)
  end.

Definition BLI_str_escape (dst src : list char) (dst_maxncpy : nat)
  : option (list char * nat) :=
  _ ← BLI_assert (negb (dst_maxncpy =? 0));
  escape_loop dst src 0 dst_maxncpy.

(** The condition of the inner [if] in [BLI_str_unescape]: the character a
    back-slash followed by [c_next] stands for. *)
Definition unescape_code (c_next : char) : option char :=
  if Ascii.eqb c_next DQUOTE then Some DQUOTE
  else if Ascii.eqb c_next BACKSLASH then Some BACKSLASH
  else if Ascii.eqb c_next "t" then Some TAB
  else if Ascii.eqb c_next "n" then Some NEWLINE
  else if Ascii.eqb c_next "r" then Some CARRIAGE_RETURN
  else if Ascii.eqb c_next "a" then Some BELL
  else if Ascii.eqb c_next "b" then Some BACKSPACE
  else if Ascii.eqb c_next "f" then Some FORM_FEED
  else None.

(** [BLI_str_unescape]: the [for] loop entered with the current [len] and
    [i].  A recognised pair advances [src] and [i] twice.  When [src'] is
    empty, [c_next] is the terminator, which no pair ends with. *)
Fixpoint unescape_loop (dst src : list char) (len i src_maxncpy : nat)
  : option (list char * nat) :=
  match src with
  | c :: src' =>
      if bool_decide (i < src_maxncpy) && negb (is_nul c) then
        match src' with
        | c_next :: src'' =>
            match (if Ascii.eqb c BACKSLASH then unescape_code c_next else None) with
            | Some c' =>
                dst1 ← store dst len c';
                unescape_loop dst1 src'' (len + 1) (i + 2) src_maxncpy
            | None =>
                dst1 ← store dst len c;
                unescape_loop dst1 src' (len + 1) (i + 1) src_maxncpy
            end
        | [] =>
            dst1 ← store dst len c;
            unescape_loop dst1 src' (len + 1) (i + 1) src_maxncpy
        end
      else dst1 ← store dst len NUL; Some (dst1, len)
  | [] => dst1 ← store dst len NUL; Some (dst1, len)
  end.

Definition BLI_str_unescape (dst src : list char) (src_maxncpy : nat)
  : option (list char * nat) :=
  unescape_loop dst src 0 0 src_maxncpy.

(** [BLI_str_escape_find_quote]: the [while] loop entered with the current
    [escape] flag, [off] bytes after the initial [str].  The result is the
    offset of the quote, [None] for [NULL]. *)
Fixpoint find_quote_loop (str : list char) (escape : bool) (off : nat) : option nat :=
  match str with
  | c :: str' =>
      if negb (is_nul c) && (negb (Ascii.eqb c DQUOTE) || escape) then
        find_quote_loop str' (negb escape && Ascii.eqb c BACKSLASH) (S off)
      else if Ascii.eqb c DQUOTE then Some off else None
  | [] => None
  end.

Definition BLI_str_escape_find_quote (str : list char) : option nat :=
  find_quote_loop str false 0.

(** Does the C string [find] start the C string [s]? *)
Fixpoint has_prefix (s find : list char) {struct find} : bool :=
  match find with
  | [] => true
  | f :: find' =>
      if is_nul f then true
      else match s with
           | [] => false
           | c :: s' => Ascii.eqb c f && has_prefix s' find'
           end
  end.

(** Modelled from the C standard library: [strstr(s, find)], the offset of
    the first occurrence of [find] in [s] ([off] bytes were skipped), [None]
    for [NULL]. *)
Fixpoint strstr_from (s find : list char) (off : nat) : option nat :=
  if has_prefix s find then Some off
  else match s with
       | [] => None
       | c :: s' => if is_nul c then None else strstr_from s' find (S off)
       end.

Definition strstr (s find : list char) : option nat := strstr_from s find 0.

(** Modelled from the spec: [MEM_mallocN] (guardedalloc, not part of these
    sources) returns a fresh block of [len] bytes owned by the caller.  Its
    content is not initialised; it is filled with 0xff here, so that no
    terminator is present before the code writes one. *)
Definition MEM_mallocN (len : nat) : list char := replicate len "255"%char.

(** Modelled from the spec: [MEM_reallocN] resizes an owned block, keeping
    its first bytes. *)
Definition MEM_reallocN (block : list char) (len : nat) : list char :=
  take len block ++ replicate (len - length block) "255"%char.

(** [BLI_str_quoted_substrN]: [Some None] is the [NULL] result,
    [Some (Some block)] the owned block returned. *)
Definition BLI_str_quoted_substrN (str prefix : list char)
  : option (option (list char)) :=
  match strstr str prefix with
  | Some start =>
      let prefix_len := strlen prefix in
      let start_match := drop (start + (prefix_len + 1)) str in
      match BLI_str_escape_find_quote start_match with
      | Some end_match =>
          let escaped_len := end_match in
          let result := MEM_mallocN (escaped_len + 1) in
          '(result1, unescaped_len) ← BLI_str_unescape result start_match escaped_len;
          if bool_decide (unescaped_len ≠ escaped_len) then
            Some (Some (MEM_reallocN result1 (unescaped_len + 1)))
          else Some (Some result1)
      | None => Some None
      end
  | None => Some None
  end.

(** ** Replacing *)

(** Modelled from the spec: the dynamic accumulation buffer [DynStr]
    ([BLI_dynstr], not part of these sources) is the text appended so far. *)
Definition DynStr := list char.

Definition BLI_dynstr_new : DynStr := [].

(** Modelled from the spec: append the C string [s]. *)
Definition BLI_dynstr_append (ds : DynStr) (s : list char) : DynStr := ds ++ cstr s.

(** Modelled from the spec: append at most [len] bytes of the C string [s]. *)
Definition BLI_dynstr_nappend (ds : DynStr) (s : list char) (len : nat) : DynStr :=
  ds ++ take len (cstr s).

(** Modelled from the spec: extraction as a newly owned string sized to the
    content plus its terminator. *)
Definition BLI_dynstr_get_cstring (ds : DynStr) : list char := ds ++ [NUL].

(** [BLI_strdupn]: a block of [len + 1] bytes: the first [len] bytes of
    [str], then the terminator. *)
Definition BLI_strdupn (str : list char) (len : nat) : option (list char) :=
  let n := MEM_mallocN (len + 1) in
  n1 ← memcpy n str len;
  store n1 len NUL.

Definition BLI_strdup (str : list char) : option (list char) :=
  BLI_strdupn str (strlen str).

(** [BLI_str_replaceN]: the [while] loop; [ds] is [None] while the buffer is
    [NULL].  Every round moves [str] forward by at least [len_old] bytes;
    [fuel] bounds the number of rounds and [None] means it ran out. *)
Fixpoint replace_loop (fuel : nat) (ds : option DynStr) (str substr_old substr_new : list char)
    (len_old : nat) : option (option DynStr * list char) :=
  match fuel with
  | 0 => None
  | S fuel' =>
      match strstr str substr_old with
      | Some match_ =>
          (* the assembly buffer only gets created when needed *)
          let ds1 := match ds with None => BLI_dynstr_new | Some d => d end in
          let ds2 := if bool_decide (match_ ≠ 0) then BLI_dynstr_nappend ds1 str match_ else ds1 in
          let str1 := drop match_ str in
          let ds3 := BLI_dynstr_append ds2 substr_new in
          replace_loop fuel' (Some ds3) (drop len_old str1) substr_old substr_new len_old
      | None => Some (ds, str)
      end
  end.

(** The owned block [BLI_str_replaceN] returns. *)
Definition BLI_str_replaceN (str substr_old substr_new : list char) : option (list char) :=
  let len_old := strlen substr_old in
  _ ← BLI_assert (negb (is_nul (read substr_old 0)));
  '(ds, str1) ← replace_loop (S (length str)) None str substr_old substr_new len_old;
  match ds with
  | Some d => Some (BLI_dynstr_get_cstring (BLI_dynstr_append d str1))
  | None => BLI_strdup str1
  end.

(** The reference of the spec: a naive replace-all over texts, which
    replaces the leftmost occurrence and continues after the replacement. *)
Definition occurs_here (old s : list char) : bool :=
  bool_decide (take (length old) s = old).

Fixpoint naive_replace_rounds (rounds : nat) (s old new : list char) : list char :=
  match rounds with
  | 0 => s
  | S rounds' =>
      match s with
      | [] => []
      | c :: s' =>
          if occurs_here old s then new ++ naive_replace_rounds rounds' (drop (length old) s) old new
          else c :: naive_replace_rounds rounds' s' old new
      end
  end.

Definition naive_replace_all (s old new : list char) : list char :=
  naive_replace_rounds (length s) s old new.

(** ** Character classes *)

Definition in_range (lo hi c : char) : bool :=
  (N_of_ascii lo <=? N_of_ascii c)%N && (N_of_ascii c <=? N_of_ascii hi)%N.

(** Modelled from the C standard library ("C" locale): [isdigit]. *)
Definition isdigit (c : char) : bool := in_range "0" "9" c.

(** Modelled from the C standard library ("C" locale): [tolower]. *)
Definition tolower (c : char) : char :=
  if in_range "A" "Z" c then ascii_of_N (N_of_ascii c + 32) else c.

(** Modelled from the C standard library ("C" locale): [ispunct], the
    printable characters that are neither alphanumeric nor the space. *)
Definition ispunct (c : char) : bool :=
  in_range "033" "047" c || in_range "058" "064" c
  || in_range "091" "096" c || in_range "123" "126" c.

(** ** Case-insensitive search *)

(** [BLI_strncasecmp]: the [for (i = 0; i < len; i++)] loop with [len - i]
    rounds left; [s1] and [s2] are the pointers [s1 + i] and [s2 + i]. *)
Fixpoint BLI_strncasecmp (s1 s2 : list char) (len : nat) : Z :=
  match len with
  | 0 => 0
  | S len' =>
      let c1 := tolower (read s1 0) in
      let c2 := tolower (read s2 0) in
      if (char_val c1 <? char_val c2)%Z then (-1)%Z
      else if (char_val c1 >? char_val c2)%Z then 1%Z
      else if is_nul c1 then 0%Z
      else BLI_strncasecmp (drop 1 s1) (drop 1 s2) len'
  end.

(** [BLI_strncasestr] once [c] is the folded first byte of [find]: the scan for the next
    byte that folds to [c], followed when [len > 1] by the comparison of the
    rest; [off] is the offset of [s] in the initial string.  The result is
    the offset of the match ([s - 1] of the code), [None] for [NULL]. *)
Fixpoint strncasestr_scan (s find : list char) (c : char) (len off : nat) : option nat :=
  match s with
  | [] => None
  | sc :: s' =>
      if is_nul sc then None
      else if Ascii.eqb (tolower sc) c then
        if bool_decide (1 < len) then
          if (BLI_strncasecmp s' find (len - 1) =? 0)%Z then Some off
          else strncasestr_scan s' find c len (S off)
        else Some off
      else strncasestr_scan s' find c len (S off)
  end.

Definition BLI_strncasestr (s find : list char) (len : nat) : option nat :=
  let c := read find 0 in
  if negb (is_nul c) then strncasestr_scan s (drop 1 find) (tolower c) len 0
  else Some 0.

Definition SPACE : char := " "%char.

(** [BLI_string_has_word_prefix]: the recursion on [match + 1]; [fuel]
    bounds its depth and [None] means it ran out. *)
Fixpoint has_word_prefix_rec (fuel : nat) (haystack needle : list char) (needle_len : nat)
  : option bool :=
  match fuel with
  | 0 => None
  | S fuel' =>
      match BLI_strncasestr haystack needle needle_len with
      | Some match_ =>
          if bool_decide (match_ = 0)
             || Ascii.eqb (read haystack (match_ - 1)) SPACE
             || ispunct (read haystack (match_ - 1))
          then Some true
          else has_word_prefix_rec fuel' (drop (match_ + 1) haystack) needle needle_len
      | None => Some false
      end
  end.

Definition BLI_string_has_word_prefix (haystack needle : list char) (needle_len : nat)
  : option bool :=
  has_word_prefix_rec (S (length haystack)) haystack needle needle_len.

(** ** Natural comparison *)

(** Modelled from the C standard library: [strncmp] compares at most [n]
    bytes as [unsigned char]; the result has the sign of the difference of
    the first two bytes that differ. *)
Fixpoint strncmp (s1 s2 : list char) (n : nat) : Z :=
  match n with
  | 0 => 0
  | S n' =>
      let c1 := read s1 0 in
      let c2 := read s2 0 in
      if Ascii.eqb c1 c2 then
        if is_nul c1 then 0%Z else strncmp (drop 1 s1) (drop 1 s2) n'
      else (uchar_val c1 - uchar_val c2)%Z
  end.

(** Modelled from the C standard library: [strcmp]. *)
Fixpoint strcmp (s1 s2 : list char) : Z :=
  match s1 with
  | [] => (0 - uchar_val (read s2 0))%Z
  | c1 :: s1' =>
      let c2 := read s2 0 in
      if Ascii.eqb c1 c2 then
        if is_nul c1 then 0%Z else strcmp s1' (drop 1 s2)
      else (uchar_val c1 - uchar_val c2)%Z
  end.

(** The loops that count and skip leading zeros: the count and the pointer
    after the zeros. *)
Fixpoint skip_zeros (p : list char) (numzero : nat) : nat * list char :=
  match p with
  | c :: p' => if Ascii.eqb c "0" then skip_zeros p' (S numzero) else (numzero, p)
  | [] => (numzero, p)
  end.

(** The [for (numdigit = 0;; numdigit++)] loop of [left_number_strcmp];
    [p1] and [p2] are the pointers [p1 + numdigit] and [p2 + numdigit].
    [inl r] is [return r], [inr numdigit] the [break]. *)
Fixpoint digits_loop (p1 p2 : list char) (numdigit : nat) : Z + nat :=
  match p1 with
  | c1 :: p1' =>
      if isdigit c1 && isdigit (read p2 0) then digits_loop p1' (drop 1 p2) (S numdigit)
      else if isdigit c1 then inl 1%Z
      else if isdigit (read p2 0) then inl (-1)%Z
      else inr numdigit
  | [] =>
      if isdigit (read p2 0) then inl (-1)%Z else inr numdigit
  end.

(** [left_number_strcmp]: the returned value and [*tiebreaker] after the
    call. *)
Definition left_number_strcmp (s1 s2 : list char) (tiebreaker : Z) : Z * Z :=
  let '(numzero1, p1) := skip_zeros s1 0 in
  let '(numzero2, p2) := skip_zeros s2 0 in
  match digits_loop p1 p2 0 with
  | inl r => (r, tiebreaker)
  | inr numdigit =>
      let compare := if bool_decide (0 < numdigit) then strncmp p1 p2 numdigit else 0%Z in
      if bool_decide (compare ≠ 0%Z) then (compare, tiebreaker)
      else
        (0%Z,
         if bool_decide (tiebreaker = 0%Z) then
           if bool_decide (numzero2 < numzero1) then 1%Z
           else if bool_decide (numzero1 < numzero2) then (-1)%Z
           else tiebreaker
         else tiebreaker)
  end.

(** [while (isdigit(s[d])) d++;]. *)
Fixpoint digit_run (s : list char) : nat :=
  match s with
  | c :: s' => if isdigit c then S (digit_run s') else 0
  | [] => 0
  end.

Definition skip_digits (s : list char) (d : nat) : nat := d + digit_run (drop d s).

(** How the [while (1)] loop of [BLI_strcasecmp_natural] is left. *)
Inductive loop_exit :=
  | Return (r : Z)
  | Break (tiebreaker : Z).

(** The [while (1)] loop of [BLI_strcasecmp_natural], entered with the
    current [d1], [d2] and [tiebreaker]; [fuel] bounds the number of rounds
    and [None] means it ran out. *)
Fixpoint natural_loop (fuel : nat) (s1 s2 : list char) (d1 d2 : nat) (tiebreaker : Z)
  : option loop_exit :=
  match fuel with
  | 0 => None
  | S fuel' =>
      let numbers :=
        if isdigit (read s1 d1) && isdigit (read s2 d2) then
          let '(numcompare, tiebreaker1) :=
            left_number_strcmp (drop d1 s1) (drop d2 s2) tiebreaker in
          (numcompare, (skip_digits s1 (S d1), skip_digits s2 (S d2), tiebreaker1))
        else (0%Z, (d1, d2, tiebreaker)) in
      let '(numcompare, (d1, d2, tiebreaker)) := numbers in
      if bool_decide (numcompare ≠ 0%Z) then Some (Return numcompare)
      else if is_nul (read s1 d1) || is_nul (read s2 d2) then Some (Break tiebreaker)
      else
        let c1 := tolower (read s1 d1) in
        let c2 := tolower (read s2 d2) in
        if Ascii.eqb c1 c2 then natural_loop fuel' s1 s2 (S d1) (S d2) tiebreaker
        else if Ascii.eqb c1 "." then Some (Return (-1)%Z)
        else if Ascii.eqb c2 "." then Some (Return 1%Z)
        else if (char_val c1 <? char_val c2)%Z then Some (Return (-1)%Z)
        else if (char_val c1 >? char_val c2)%Z then Some (Return 1%Z)
        else natural_loop fuel' s1 s2 (S d1) (S d2) tiebreaker
  end.

Definition BLI_strcasecmp_natural (s1 s2 : list char) : option Z :=
  e ← natural_loop (S (length s1)) s1 s2 0 0 0%Z;
  match e with
  | Return r => Some r
  | Break tiebreaker =>
      if bool_decide (tiebreaker ≠ 0%Z) then Some tiebreaker
      else Some (strcmp s1 s2)
  end.

(** ** Suffix test *)

(** The [while] loop of [BLI_strn_endswith], which runs until [iter]
    points to the terminator. *)
Fixpoint endswith_loop (iter end_ : list char) : bool :=
  match iter with
  | c :: iter' =>
      if is_nul c then true
      else if negb (Ascii.eqb c (read end_ 0)) then false
      else endswith_loop iter' (drop 1 end_)
  | [] => true
  end.

Definition BLI_strn_endswith (str end_ : list char) (slength : nat) : bool :=
  let elength := strlen end_ in
  if bool_decide (elength < slength) then
    endswith_loop (drop (slength - elength) str) end_
  else false.

Definition BLI_str_endswith (str end_ : list char) : bool :=
  let slength := strlen str in
  BLI_strn_endswith str end_ slength.

(** ** More of the copy functions *)

(** [memcpy(dst + off, src, n)]. *)
Definition memcpy_at (dst : list char) (off : nat) (src : list char) (n : nat)
  : option (list char) :=
  if decide (off ≤ length dst) then
    tail ← memcpy (drop off dst) src n; Some (take off dst ++ tail)
  else None.

(** [BLI_strcpy_rlen]: the destination after the call and the returned
    length. *)
Definition BLI_strcpy_rlen (dst src : list char) : option (list char * nat) :=
  let srclen := strlen src in
  dst1 ← memcpy dst src (srclen + 1);
  Some (dst1, srclen).

(** [BLI_strdupcat]: the owned block returned. *)
Definition BLI_strdupcat (str1 str2 : list char) : option (list char) :=
  (* include the NULL terminator of str2 only *)
  let str1_len := strlen str1 in
  let str2_len := strlen str2 + 1 in
  let str := MEM_mallocN (str1_len + str2_len) in
  str' ← memcpy str str1 str1_len;
  memcpy_at str' str1_len str2 str2_len.

(** [BLI_str_replace_char]: the string after the in-place replacement.  The
    loop test reads the byte before it is replaced. *)
Fixpoint BLI_str_replace_char (str : list char) (src dst : char) : list char :=
  match str with
  | c :: str' =>
      if is_nul c then str
      else (if Ascii.eqb c src then dst else c) :: BLI_str_replace_char str' src dst
  | [] => []
  end.

(** ** More of the comparisons *)

(** [BLI_strcasecmp]: the [for (i = 0;; i++)] loop; [s1] and [s2] are the
    pointers [s1 + i] and [s2 + i].  At the end of the list [c1] is the
    terminator, and the loop is left before [s1] is advanced. *)
Fixpoint BLI_strcasecmp (s1 s2 : list char) : Z :=
  let c1 := tolower (read s1 0) in
  let c2 := tolower (read s2 0) in
  if (char_val c1 <? char_val c2)%Z then (-1)%Z
  else if (char_val c1 >? char_val c2)%Z then 1%Z
  else if is_nul c1 then 0%Z
  else match s1 with
       | _ :: s1' => BLI_strcasecmp s1' (drop 1 s2)
       | [] => 0%Z
       end.

Definition BLI_strcaseeq (a b : list char) : bool := (BLI_strcasecmp a b =? 0)%Z.

(** [BLI_strcasestr] once [c] is the folded first byte of [find] and [len]
    the length of the rest: the scan for the next byte that folds to [c],
    followed by the comparison of the rest. *)
Fixpoint strcasestr_scan (s find : list char) (c : char) (len off : nat) : option nat :=
  match s with
  | [] => None
  | sc :: s' =>
      if is_nul sc then None
      else if Ascii.eqb (tolower sc) c then
        if (BLI_strncasecmp s' find len =? 0)%Z then Some off
        else strcasestr_scan s' find c len (S off)
      else strcasestr_scan s' find c len (S off)
  end.

Definition BLI_strcasestr (s find : list char) : option nat :=
  let c := read find 0 in
  if negb (is_nul c) then
    strcasestr_scan s (drop 1 find) (tolower c) (strlen (drop 1 find)) 0
  else Some 0.

(** [BLI_str_startswith]: the [for] loop and the final test of [*start]. *)
Fixpoint BLI_str_startswith (str start : list char) : bool :=
  match str, start with
  | c :: str', d :: start' =>
      if negb (is_nul c) && negb (is_nul d) then
        if negb (Ascii.eqb c d) then false else BLI_str_startswith str' start'
      else is_nul d
  | _, _ => is_nul (read start 0)
  end.

(** The macro [STREQ] of [BLI_utildefines.h] (not part of these sources):
    [strcmp(a, b) == 0]. *)
Definition STREQ (a b : list char) : bool := (strcmp a b =? 0)%Z.

(** [BLI_str_index_in_array_n]: the [for] loop entered with the current
    [index]; [str_iter] holds the strings from [*str_iter] on.  [None] is a
    read past the end of the array. *)
Fixpoint str_index_in_array_n_loop (str : list char) (str_iter : list (list char))
    (index str_array_len : Z) : option Z :=
  if (index <? str_array_len)%Z then
    match str_iter with
    | s :: str_iter' =>
        if STREQ str s then Some index
        else str_index_in_array_n_loop str str_iter' (index + 1) str_array_len
    | [] => None
    end
  else Some (-1)%Z.

Definition BLI_str_index_in_array_n (str : list char) (str_array : list (list char))
    (str_array_len : Z) : option Z :=
  str_index_in_array_n_loop str str_array 0 str_array_len.

(** [BLI_str_index_in_array]: [str_iter] holds the strings before the [NULL]
    that ends the array. *)
Fixpoint str_index_in_array_loop (str : list char) (str_iter : list (list char))
    (index : Z) : Z :=
  match str_iter with
  | s :: str_iter' =>
      if STREQ str s then index
      else str_index_in_array_loop str str_iter' (index + 1)
  | [] => (-1)%Z
  end.

Definition BLI_str_index_in_array (str : list char) (str_array : list (list char)) : Z :=
  str_index_in_array_loop str str_array 0.

(** ** Case conversion and stripping *)

(** [BLI_str_tolower_ascii]: the string after the call; [len] counts the
    rounds that are left. *)
Fixpoint BLI_str_tolower_ascii (str : list char) (len : nat) : list char :=
  match len, str with
  | S len', c :: str' =>
      if is_nul c then str
      else (if in_range "A" "Z" c then ascii_of_N (N_of_ascii c + 32) else c)
           :: BLI_str_tolower_ascii str' len'
  | _, _ => str
  end.

Fixpoint BLI_str_toupper_ascii (str : list char) (len : nat) : list char :=
  match len, str with
  | S len', c :: str' =>
      if is_nul c then str
      else (if in_range "a" "z" c then ascii_of_N (N_of_ascii c - 32) else c)
           :: BLI_str_toupper_ascii str' len'
  | _, _ => str
  end.

(** Modelled from the C standard library ("C" locale): [isspace], the space
    and the characters from the tab to the carriage return. *)
Definition isspace (c : char) : bool := Ascii.eqb c SPACE || in_range "009" "013" c.

(** [(int)n] for a [size_t]: the value modulo [2 ^ 32], read as a signed
    32-bit [int], as the supported compilers convert. *)
Definition int_of_size_t (n : Z) : Z := ((n + 2 ^ 31) mod 2 ^ 32 - 2 ^ 31)%Z.

(** [BLI_str_rstrip]: the [for (...; i >= 0; i--)] loop with [i + 1] rounds
    left. *)
Fixpoint rstrip_loop (str : list char) (rounds : nat) : list char :=
  match rounds with
  | S i => if isspace (read str i) then rstrip_loop (<[i:=NUL]> str) i else str
  | 0 => str
  end.

(** [BLI_str_rstrip]: [i] starts at [(int)strlen(str) - 1]; when that is
    negative the loop is not entered. *)
Definition BLI_str_rstrip (str : list char) : list char :=
  let i := (int_of_size_t (Z.of_nat (strlen str)) - 1)%Z in
  rstrip_loop str (Z.to_nat (i + 1)).

(** ** Grouping of digits *)

(** The [for] loop of [BLI_str_format_int_grouped_ex]: [p_src] is the rest
    of the source, [p_dst] the offset of the destination pointer in [dst].
    The result is the destination and [p_dst] when the loop is left. *)
Fixpoint format_int_grouped_loop (dst p_src : list char) (p_dst : nat) (commas : Z)
  : option (list char * nat) :=
  match p_src with
  | c :: p_src' =>
      if is_nul c then Some (dst, p_dst)
      else
        dst1 ← store dst p_dst c;
        if (commas =? 1)%Z then
          dst2 ← store dst1 (p_dst + 1) ","%char;
          format_int_grouped_loop dst2 p_src' (p_dst + 2) (Z.rem (commas + 1) 3)
        else format_int_grouped_loop dst1 p_src' (p_dst + 1) (Z.rem (commas + 1) 3)
  | [] => Some (dst, p_dst)
  end.

(** [BLI_str_format_int_grouped_ex]: the destination after the call and the
    returned length.  The last store is at [p_dst - 1]; with [p_dst] at the
    start of [dst] it is out of bounds. *)
Definition BLI_str_format_int_grouped_ex (src dst : list char) (num_len : Z)
  : option (list char * nat) :=
  '(dst1, p_src, p_dst, num_len1) ←
    (if Ascii.eqb (read src 0) "-" then
       dst1 ← store dst 0 (read src 0); Some (dst1, drop 1 src, 1, (num_len - 1)%Z)
     else Some (dst, src, 0, num_len));
  '(dst2, p_dst2) ← format_int_grouped_loop dst1 p_src p_dst (2 - Z.rem num_len1 3)%Z;
  match p_dst2 with
  | 0 => None
  | S p_dst3 => dst3 ← store dst2 p_dst3 NUL; Some (dst3, p_dst3)
  end.

(** The digits with a comma after every digit that is followed by a
    multiple of three digits, and by at least three. *)
Fixpoint grouped (digits : list char) : list char :=
  match digits with
  | [] => []
  | d :: digits' =>
      if bool_decide (0 < length digits') && (length digits' mod 3 =? 0)
      then d :: ","%char :: grouped digits'
      else d :: grouped digits'
  end.

(** ** Comparison without padding *)

(** The loop that moves [str] past the leading [pad] bytes: the pointer
    after the loop.  With a zero [pad] the loop does not stop at the end of
    the memory of the model. *)
Fixpoint skip_pad (str : list char) (pad : char) : option (list char) :=
  match str with
  | c :: str' => if Ascii.eqb c pad then skip_pad str' pad else Some str
  | [] => if is_nul pad then None else Some []
  end.

(** [while (len && (str[len - 1] == pad)) len--;]. *)
Fixpoint strip_pad_len (str : list char) (pad : char) (len : nat) : nat :=
  match len with
  | S len' => if Ascii.eqb (read str len') pad then strip_pad_len str pad len' else len
  | 0 => 0
  end.

Definition BLI_strcmp_ignore_pad (str1 str2 : list char) (pad : char) : option Z :=
  str1 ← skip_pad str1 pad;
  str2 ← skip_pad str2 pad;
  let str1_len := strip_pad_len str1 pad (strlen str1) in
  let str2_len := strip_pad_len str2 pad (strlen str2) in
  if decide (str1_len = str2_len) then Some (strncmp str1 str2 str2_len)
  else if decide (str2_len < str1_len) then
    let ret := strncmp str1 str2 str2_len in
    Some (if (ret =? 0)%Z then 1%Z else ret)
  else
    let ret := strncmp str1 str2 str1_len in
    Some (if (ret =? 0)%Z then (-1)%Z else ret).

(** A text without its leading [pad] bytes, and without its leading and
    trailing [pad] bytes. *)
Fixpoint drop_leading (pad : char) (t : list char) : list char :=
  match t with
  | c :: t' => if Ascii.eqb c pad then drop_leading pad t' else t
  | [] => []
  end.

Definition trim_pad (pad : char) (t : list char) : list char :=
  reverse (drop_leading pad (reverse (drop_leading pad t))).

(** ** Words *)

(** [BLI_string_max_possible_word_count]; the division of [int] truncates. *)
Definition BLI_string_max_possible_word_count (str_len : Z) : Z :=
  (Z.quot str_len 2 + 1)%Z.

(** [r_words[n][0] = i]; [None] is a store past the end of [r_words]. *)
Definition set_word_start (r_words : list (nat * nat)) (n i : nat)
  : option (list (nat * nat)) :=
  w ← r_words !! n; Some (<[n:=(i, w.2)]> r_words).

(** [r_words[n][1] = i - r_words[n][0]]. *)
Definition set_word_len (r_words : list (nat * nat)) (n i : nat)
  : option (list (nat * nat)) :=
  w ← r_words !! n; Some (<[n:=(w.1, i - w.1)]> r_words).

(** The first loop of [BLI_string_find_split_words], which skips the
    leading delimiters: [i] and the pointer [str + i] after it. *)
Fixpoint split_words_skip (s : list char) (i len : nat) (delim : char) : nat * list char :=
  match s with
  | c :: s' =>
      if bool_decide (i < len) && negb (is_nul c) then
        if negb (Ascii.eqb c delim) then (i, s)
        else split_words_skip s' (S i) len delim
      else (i, s)
  | [] => (i, s)
  end.

(** The second loop: [s] is the pointer [str + i].  The result is the state
    when the loop is left. *)
Fixpoint split_words_loop (s : list char) (i len : nat) (delim : char)
    (r_words : list (nat * nat)) (n : nat) (words_max : Z) (charsearch : bool)
  : option (list (nat * nat) * nat * nat * bool) :=
  match s with
  | c :: s' =>
      if bool_decide (i < len) && negb (is_nul c) && bool_decide (Z.of_nat n < words_max)%Z
      then
        if negb (Ascii.eqb c delim) && charsearch then
          r_words1 ← set_word_start r_words n i;
          split_words_loop s' (S i) len delim r_words1 n words_max false
        else if Ascii.eqb c delim && negb charsearch then
          r_words1 ← set_word_len r_words n i;
          split_words_loop s' (S i) len delim r_words1 (S n) words_max true
        else split_words_loop s' (S i) len delim r_words n words_max charsearch
      else Some (r_words, n, i, charsearch)
  | [] => Some (r_words, n, i, charsearch)
  end.

(** [BLI_string_find_split_words]: the array after the call and the number
    of words returned. *)
Definition BLI_string_find_split_words (str : list char) (len : nat) (delim : char)
    (r_words : list (nat * nat)) (words_max : Z) : option (list (nat * nat) * nat) :=
  let '(i, s) := split_words_skip str 0 len delim in
  '(r_words1, n, i1, charsearch) ← split_words_loop s i len delim r_words 0 words_max true;
  if negb charsearch then
    r_words2 ← set_word_len r_words1 n i1; Some (r_words2, S n)
  else Some (r_words1, n).

(** The range of [ln] bytes at offset [st] is a word of the first [scan]
    bytes of [str]: it is not empty, it holds no delimiter, it starts at the
    start or after a delimiter, and it ends at the end or before a
    delimiter. *)
Definition is_word (str : list char) (scan : nat) (delim : char) (w : nat * nat) : Prop :=
  1 ≤ w.2 ∧ w.1 + w.2 ≤ scan
  ∧ (∀ j, w.1 ≤ j < w.1 + w.2 → read str j ≠ delim)
  ∧ (w.1 = 0 ∨ read str (w.1 - 1) = delim)
  ∧ (w.1 + w.2 = scan ∨ read str (w.1 + w.2) = delim).

(** ** Partition *)

(** Modelled from the C standard library: [strchr(s, c)], the offset of the
    first byte equal to [c], the terminator included. *)
Fixpoint strchr (s : list char) (c : char) : option nat :=
  match s with
  | [] => if is_nul c then Some 0 else None
  | x :: s' =>
      if Ascii.eqb x c then Some 0
      else if is_nul x then None
      else S <$> strchr s' c
  end.

(** Modelled from the C standard library: [strrchr(s, c)], the offset of the
    last byte equal to [c], the terminator included. *)
Fixpoint strrchr (s : list char) (c : char) : option nat :=
  match s with
  | [] => if is_nul c then Some 0 else None
  | x :: s' =>
      if is_nul x then (if Ascii.eqb x c then Some 0 else None)
      else match strrchr s' c with
           | Some k => Some (S k)
           | None => if Ascii.eqb x c then Some 0 else None
           end
  end.

(** [BLI_str_partition_ex]: the loop
    [for (tmp = end - 1; (tmp >= str) && ( *tmp != *d); tmp--)] with
    [k = tmp + 1 - str], followed by [if (tmp < str) tmp = NULL]. *)
Fixpoint partition_rscan (str : list char) (c : char) (k : nat) : option nat :=
  match k with
  | 0 => None
  | S k' =>
      if negb (Ascii.eqb (read str k') c) then partition_rscan str c k' else Some k'
  end.

(** The value of [tmp] for the delimiter [c]; [None] is [NULL]. *)
Definition partition_tmp (str : list char) (end_ : option nat) (c : char)
    (from_right : bool) : option nat :=
  let func := if from_right then strrchr else strchr in
  match end_ with
  | Some e =>
      if from_right then partition_rscan str c e
      else
        match func str c with
        | Some t => if bool_decide (e ≤ t) then None else Some t
        | None => None
        end
  | None => func str c
  end.

(** The loop [for (d = delim; *d != 0; d++)] entered with [*sep]; a null
    pointer compares below every other pointer. *)
Fixpoint partition_loop (str : list char) (end_ : option nat) (d : list char)
    (from_right : bool) (sep : option nat) : option nat :=
  match d with
  | [] => sep
  | c :: d' =>
      if is_nul c then sep
      else
        let sep1 :=
          match partition_tmp str end_ c from_right with
          | Some t =>
              if (if from_right
                  then match sep with Some p => bool_decide (p < t) | None => true end
                  else match sep with Some p => bool_decide (t < p) | None => true end)
              then Some t
              else sep
          | None => sep
          end in
        partition_loop str end_ d' from_right sep1
  end.

(** [BLI_str_partition_ex]: the returned length, [*sep] and [*suf], the two
    pointers as offsets from [str]. *)
Definition BLI_str_partition_ex (str : list char) (end_ : option nat) (delim : list char)
    (from_right : bool) : option (nat * option nat * option nat) :=
  _ ← BLI_assert (match end_ with None => true | Some e => bool_decide (0 < e) end);
  match partition_loop str end_ delim from_right None with
  | Some p => Some (p, Some p, Some (S p))
  | None => Some (match end_ with Some e => e | None => strlen str end, None, None)
  end.

Definition BLI_str_partition (str delim : list char) : option (nat * option nat * option nat) :=
  BLI_str_partition_ex str None delim false.

Definition BLI_str_rpartition (str delim : list char) : option (nat * option nat * option nat) :=
  BLI_str_partition_ex str None delim true.

(** The number of leading bytes of [str] among which a delimiter is looked
    for. *)
Definition partition_region (str : list char) (end_ : option nat) (from_right : bool) : nat :=
  match end_ with
  | None => strlen str
  | Some e => if from_right then e else min e (strlen str)
  end.

(** ** Trailing zeros *)

(** [BLI_str_rstrip_float_zero]: the loop
    [while (end_p != p && *end_p == '0')] with [end_p = p + n]; the stores
    fall inside the text. *)
Fixpoint rstrip_float_zero_loop (str : list char) (pad : char) (p n : nat) (totstrip : Z)
  : list char * Z :=
  match n with
  | 0 => (str, totstrip)
  | S n' =>
      if Ascii.eqb (read str (p + n)) "0" then
        rstrip_float_zero_loop (<[p + n:=pad]> str) pad p n' (totstrip + 1)
      else (str, totstrip)
  end.

(** [BLI_str_rstrip_float_zero]: the buffer after the call and the number
    returned; [p] and [end_p] are offsets from [str]. *)
Definition BLI_str_rstrip_float_zero (str : list char) (pad : char) : list char * Z :=
  match strchr str "." with
  | Some k =>
      let p := S k in
      let end_p := (Z.of_nat p + (Z.of_nat (strlen (drop p str)) - 1))%Z in
      if (end_p >? Z.of_nat p)%Z then
        rstrip_float_zero_loop str pad p (Z.to_nat (end_p - Z.of_nat p)) 0
      else (str, 0%Z)
  | None => (str, 0%Z)
  end.

(** ** Padded copy *)

(** [n--] on a [size_t] of 64 bits. *)
Definition size_t_dec (n : Z) : Z := ((n - 1) mod 2 ^ 64)%Z.

(** [BLI_strncpy_ensure_pad]: the [else] branch from the comment
    [trailing '\0'] on, entered with [dst], [idx] and [maxncpy].  Reading
    [src[srclen - 1]] with [srclen] zero, or [dst[idx - 1]] with [idx] zero,
    falls before the start of the array: no result. *)
Definition ensure_pad_body (dst : list char) (idx : nat) (src : list char) (pad : char)
    (maxncpy : Z) : option (list char) :=
  let maxncpy := size_t_dec maxncpy in
  let srclen := BLI_strnlen src (Z.to_nat maxncpy) in
  last_src ← (if decide (srclen = 0) then None else Some (read src (srclen - 1)));
  let srclen :=
    if negb (Ascii.eqb last_src pad) && bool_decide (Z.of_nat srclen = maxncpy)
    then srclen - 1
    else srclen in
  dst ← memcpy_at dst idx src srclen;
  let idx := idx + srclen in
  last_dst ← (if decide (idx = 0) then None else dst !! (idx - 1));
  if negb (Ascii.eqb last_dst pad) then
    dst ← store dst idx pad;
    store dst (S idx) NUL
  else store dst idx NUL.

(** [BLI_strncpy_ensure_pad]: the destination after the call. *)
Definition BLI_strncpy_ensure_pad (dst src : list char) (pad : char) (maxncpy : Z)
  : option (list char) :=
  _ ← BLI_assert (negb (maxncpy =? 0)%Z);
  if is_nul (read src 0) then store dst 0 NUL
  else if negb (Ascii.eqb (read src 0) pad) then
    dst ← store dst 0 pad;
    ensure_pad_body dst 1 src pad (size_t_dec maxncpy)
  else ensure_pad_body dst 0 src pad maxncpy.

(** ** Texts used to state the properties *)

(** What [BLI_str_escape] emits for one character when there is room. *)
Definition escape_char (c : char) : list char :=
  match escape_code c with
  | Some c' => [BACKSLASH; c']
  | None => [c]
  end.

(** The escaped form of a text when nothing is truncated. *)
Definition escape_text (t : list char) : list char := flat_map escape_char t.

(** The words of the spec for [BLI_string_has_word_prefix]: the text [w]
    occurs in [haystack] at offset [p], letter case apart. *)
Definition occurs_at (haystack w : list char) (p : nat) : Prop :=
  tolower <$> take (length w) (drop p haystack) = tolower <$> w.

(** Offset [p] is at a word boundary: the start of the string, or after a
    space or a punctuation character. *)
Definition word_boundary (haystack : list char) (p : nat) : Prop :=
  p = 0 ∨ read haystack (p - 1) = SPACE ∨ ispunct (read haystack (p - 1)) = true.

(** Some occurrence of the first [n] bytes of [needle] begins at a word
    boundary of [haystack]. *)
Definition word_prefix_occurrence (haystack needle : list char) (n : nat) : Prop :=
  ∃ p, occurs_at (cstr haystack) (take n (cstr needle)) p ∧ word_boundary haystack p.

(** What the recursion of [BLI_string_has_word_prefix] accepts: an
    occurrence at a word boundary, or one that starts one byte after another
    occurrence. *)
Definition accepted_at (haystack w : list char) (p : nat) : Prop :=
  occurs_at haystack w p
  ∧ (word_boundary haystack p ∨ (1 ≤ p ∧ occurs_at haystack w (p - 1))).

(** The number of back-slashes right before the end of [t]. *)
Fixpoint trailing_backslashes (t : list char) : nat :=
  match t with
  | [] => 0
  | c :: t' =>
      if bool_decide (Forall (λ d, d = BACKSLASH) (c :: t')) then S (length t')
      else trailing_backslashes t'
  end.

(** The byte at offset [k] of [str] is a quote that no back-slash escapes:
    the back-slashes right before it pair up. *)
Definition unescaped_quote_at (str : list char) (k : nat) : Prop :=
  read str k = DQUOTE ∧ Nat.even (trailing_backslashes (take k str)) = true.

(** The number of leading zeros that [left_number_strcmp] counts in [s]. *)
Definition numzero (s : list char) : nat := fst (skip_zeros s 0).

(** What holds of the array [r], the count [n], the index [i] and the flag
    [cs] at every test of the second loop of [BLI_string_find_split_words],
    for an array of [size] rows. *)
Definition split_inv (str : list char) (len : nat) (delim : char) (words_max : Z)
    (size : nat) (r : list (nat * nat)) (n i : nat) (cs : bool) : Prop :=
  i ≤ len ∧ i ≤ strlen str
  ∧ length r = size
  ∧ (Z.of_nat n ≤ Z.max words_max 0)%Z
  ∧ (∀ k, k < n →
       ∃ w, r !! k = Some w ∧ is_word str (min len (strlen str)) delim w
            ∧ w.1 + w.2 < i)
  ∧ (∀ k1 k2 w1 w2, k1 < k2 < n → r !! k1 = Some w1 → r !! k2 = Some w2 →
                    w1.1 + w1.2 < w2.1)
  ∧ (cs = true → (i = 0 ∨ read str (i - 1) = delim) ∧ 2 * n ≤ i)
  ∧ (cs = false →
     (Z.of_nat n < words_max)%Z
     ∧ ∃ w, r !! n = Some w ∧ w.1 < i
            ∧ (∀ j, w.1 ≤ j < i → read str j ≠ delim)
            ∧ (w.1 = 0 ∨ read str (w.1 - 1) = delim)
            ∧ 2 * n + 1 ≤ i
            ∧ ∀ k w', k < n → r !! k = Some w' → w'.1 + w'.2 < w.1).

(** The offsets that a delimiter found at [k] must beat: those before it
    from the left, those after it from the right. *)
Definition beyond (str : list char) (end_ : option nat) (from_right : bool)
    (k j : nat) : Prop :=
  if from_right then k < j < partition_region str end_ from_right else j < k.

(** [sep] is the best offset among the delimiters [seen] so far. *)
Definition partition_inv (str : list char) (end_ : option nat) (from_right : bool)
    (seen : list char) (sep : option nat) : Prop :=
  match sep with
  | Some k =>
      k < partition_region str end_ from_right
      ∧ read str k ∈ seen
      ∧ ∀ j, beyond str end_ from_right k j → read str j ∉ seen
  | None => ∀ j, j < partition_region str end_ from_right → read str j ∉ seen
  end.

(** ** Devices for the natural comparison *)

(** The rest of a round of the loop of [BLI_strcasecmp_natural], from the
    test for the end of the strings on; [continue] is the next round. *)
Definition natural_rest (continue : nat → nat → Z → option loop_exit)
    (s1 s2 : list char) (d1 d2 : nat) (tiebreaker : Z) : option loop_exit :=
  if is_nul (read s1 d1) || is_nul (read s2 d2) then Some (Break tiebreaker)
  else
    let c1 := tolower (read s1 d1) in
    let c2 := tolower (read s2 d2) in
    if Ascii.eqb c1 c2 then continue (S d1) (S d2) tiebreaker
    else if Ascii.eqb c1 "." then Some (Return (-1)%Z)
    else if Ascii.eqb c2 "." then Some (Return 1%Z)
    else if (char_val c1 <? char_val c2)%Z then Some (Return (-1)%Z)
    else if (char_val c1 >? char_val c2)%Z then Some (Return 1%Z)
    else continue (S d1) (S d2) tiebreaker.


(** * Properties *)

(** ** Memory and C strings *)

Lemma is_nul_true c : is_nul c = true ↔ c = NUL.
Proof. unfold is_nul. apply Ascii.eqb_eq. Qed.

Lemma is_nul_false c : is_nul c = false ↔ c ≠ NUL.
Proof. unfold is_nul. apply Ascii.eqb_neq. Qed.

Lemma uchar_val_range c : (0 ≤ uchar_val c < 256)%Z.
Proof. unfold uchar_val. pose proof (N_ascii_bounded c). lia. Qed.

Lemma char_val_inj c1 c2 : char_val c1 = char_val c2 → c1 = c2.
Proof.
  intros H. pose proof (uchar_val_range c1). pose proof (uchar_val_range c2).
  assert (Hu : uchar_val c1 = uchar_val c2).
  { unfold char_val in H.
    destruct (Z.ltb_spec (uchar_val c1) 128), (Z.ltb_spec (uchar_val c2) 128); lia. }
  unfold uchar_val in Hu. apply N2Z.inj in Hu.
  rewrite <- (ascii_N_embedding c1), <- (ascii_N_embedding c2). by rewrite Hu.
Qed.

Lemma tolower_nul_iff c : is_nul (tolower c) = is_nul c.
Proof. destruct c as [[] [] [] [] [] [] [] []]; by vm_compute. Qed.

Lemma uchar_val_inj c1 c2 : uchar_val c1 = uchar_val c2 → c1 = c2.
Proof.
  unfold uchar_val. intros Hu%N2Z.inj.
  rewrite <- (ascii_N_embedding c1), <- (ascii_N_embedding c2). by rewrite Hu.
Qed.

Lemma read_drop k h i : read (drop k h) i = read h (k + i).
Proof. unfold read. by rewrite lookup_drop. Qed.

Lemma read_nil i : read [] i = NUL.
Proof. by destruct i. Qed.

Lemma read_cons_0 c s : read (c :: s) 0 = c.
Proof. done. Qed.

Lemma read_cons_S c s i : read (c :: s) (S i) = read s i.
Proof. done. Qed.

Lemma read_lookup s i c : s !! i = Some c → read s i = c.
Proof. unfold read. by intros ->. Qed.

Lemma store_Some dst i c :
  i < length dst → store dst i c = Some (<[i:=c]> dst).
Proof. intros. unfold store. by rewrite decide_True. Qed.

Lemma store_None dst i c : length dst ≤ i → store dst i c = None.
Proof. intros. unfold store. rewrite decide_False; [done | lia]. Qed.

(** Storing right after a prefix of known length. *)
Lemma store_after pre x rest c :
  store (pre ++ x :: rest) (length pre) c = Some (pre ++ c :: rest).
Proof.
  rewrite store_Some by (rewrite length_app; simpl; lia).
  f_equal. rewrite insert_app_r_alt by lia.
  by rewrite Nat.sub_diag.
Qed.

Lemma nul_free_nil : nul_free [].
Proof. constructor. Qed.

Lemma nul_free_cons c s : nul_free (c :: s) ↔ is_nul c = false ∧ nul_free s.
Proof. unfold nul_free. by rewrite Forall_cons. Qed.

Lemma nul_free_app s t : nul_free (s ++ t) ↔ nul_free s ∧ nul_free t.
Proof. unfold nul_free. by rewrite Forall_app. Qed.

Lemma strlen_le_length s : strlen s ≤ length s.
Proof. induction s as [|c s IH]; simpl; [lia|]. destruct (is_nul c); lia. Qed.

Lemma strlen_nul_free s : nul_free s → strlen s = length s.
Proof.
  induction s as [|c s IH]; intros H; simpl; [done|].
  apply nul_free_cons in H as [Hc H]. by rewrite Hc, IH.
Qed.

Lemma cstr_nul_free_id s : nul_free s → cstr s = s.
Proof.
  intros H. unfold cstr. rewrite strlen_nul_free by done. apply firstn_all.
Qed.

Lemma cstr_nul_free s : nul_free (cstr s).
Proof.
  unfold cstr. induction s as [|c s IH]; simpl; [constructor|].
  destruct (is_nul c) eqn:Hc; simpl; [constructor|]. by constructor.
Qed.

Lemma length_cstr s : length (cstr s) = strlen s.
Proof. unfold cstr. rewrite length_take. pose proof (strlen_le_length s). lia. Qed.

Lemma nul_free_take n s : nul_free s → nul_free (take n s).
Proof. apply Forall_take. Qed.

(** The text before the first zero byte is the C string. *)
Lemma strlen_app_nul t r : nul_free t → strlen (t ++ NUL :: r) = length t.
Proof.
  induction t as [|c t IH]; intros H; simpl; [done|].
  apply nul_free_cons in H as [Hc H]. by rewrite Hc, IH.
Qed.

Lemma cstr_app_nul t r : nul_free t → cstr (t ++ NUL :: r) = t.
Proof.
  intros H. unfold cstr. rewrite strlen_app_nul by done. apply take_app_length.
Qed.

Lemma strlen_app_nil t : nul_free t → strlen t = length t.
Proof. apply strlen_nul_free. Qed.

Lemma bytes_take src n : n ≤ length src → bytes src n = take n src.
Proof.
  intros Hn. unfold bytes. apply list_eq. intros i.
  rewrite list_lookup_fmap.
  destruct (decide (i < n)) as [Hi|Hi].
  - rewrite lookup_seq_lt by done. rewrite lookup_take_lt by done. simpl.
    destruct (lookup_lt_is_Some_2 src i) as [c Hc]; [lia|].
    by rewrite Hc, (read_lookup _ _ _ Hc).
  - rewrite lookup_seq_ge by lia. rewrite lookup_take_ge by lia. done.
Qed.

Lemma take_strlen_cstr n s : n ≤ strlen s → take n s = take n (cstr s).
Proof. intros. unfold cstr. rewrite take_take. f_equal. lia. Qed.

(** ** [BLI_strnlen], [BLI_strncpy] and [BLI_strncpy_rlen] *)

Lemma strnlen_loop_spec s : ∀ len maxlen,
  len ≤ maxlen → strnlen_loop s len maxlen = len + min (strlen s) (maxlen - len).
Proof.
  induction s as [|c s IH]; intros len maxlen Hle; simpl.
  - case_decide; lia.
  - case_decide; [|lia].
    destruct (is_nul c); [lia|]. rewrite IH by lia. lia.
Qed.

Lemma BLI_strnlen_spec s maxlen : BLI_strnlen s maxlen = min (strlen s) maxlen.
Proof. unfold BLI_strnlen. rewrite strnlen_loop_spec by lia. lia. Qed.

(** The bytes [BLI_strnlen] looks at: the result is the same for two
    sources that agree on their first [maxlen] bytes. *)
Lemma strnlen_loop_agree s1 : ∀ s2 len maxlen,
  (∀ i, len + i < maxlen → read s1 i = read s2 i) →
  strnlen_loop s1 len maxlen = strnlen_loop s2 len maxlen.
Proof.
  induction s1 as [|c1 s1 IH]; intros s2 len maxlen Hag.
  - simpl. destruct s2 as [|c2 s2]; simpl; [done|].
    case_decide; [|done].
    specialize (Hag 0 ltac:(lia)). rewrite read_nil, read_cons_0 in Hag.
    subst c2. done.
  - simpl. case_decide as Hlt.
    + pose proof (Hag 0 ltac:(lia)) as H0. rewrite read_cons_0 in H0.
      destruct s2 as [|c2 s2]; simpl.
      * rewrite decide_True by done. rewrite read_nil in H0. by subst c1.
      * rewrite decide_True by done. rewrite read_cons_0 in H0. subst c2.
        destruct (is_nul c1); [done|]. apply IH.
        intros i Hi. apply (Hag (S i)). lia.
    + destruct s2; simpl; by rewrite decide_False.
Qed.

Lemma bytes_agree s1 s2 n :
  (∀ i, i < n → read s1 i = read s2 i) → bytes s1 n = bytes s2 n.
Proof.
  intros Hag. unfold bytes. apply list_fmap_ext. intros i x Hx.
  apply lookup_seq in Hx as [-> Hi]. by apply Hag.
Qed.

(** What the copy does in a destination of at least [maxncpy] bytes. *)
Lemma BLI_strncpy_rlen_spec dst src maxncpy :
  1 ≤ maxncpy → maxncpy ≤ length dst →
  let n := min (strlen src) (maxncpy - 1) in
  BLI_strncpy_rlen dst src maxncpy = Some (take n src ++ NUL :: drop (S n) dst, n).
Proof.
  intros H1 Hcap n. unfold BLI_strncpy_rlen.
  replace (negb (maxncpy =? 0)) with true
    by (symmetry; apply negb_true_iff, Nat.eqb_neq; lia).
  simpl. rewrite BLI_strnlen_spec. fold n.
  pose proof (strlen_le_length src).
  assert (Hn : n < length dst) by (subst n; lia).
  unfold memcpy. rewrite decide_True by lia. simpl.
  rewrite bytes_take by (subst n; lia).
  destruct (drop n dst) as [|x rest] eqn:Hd.
  { apply (f_equal length) in Hd. rewrite length_drop in Hd. simpl in Hd. lia. }
  assert (Hlen : length (take n src) = n) by (rewrite length_take; subst n; lia).
  pose proof (store_after (take n src) x rest NUL) as Hs.
  rewrite Hlen in Hs. rewrite Hs. simpl. do 3 f_equal.
  replace (S n) with (n + 1) by lia. rewrite <- drop_drop, Hd. done.
Qed.

Lemma BLI_strncpy_is_rlen dst src maxncpy :
  BLI_strncpy dst src maxncpy = fst <$> BLI_strncpy_rlen dst src maxncpy.
Proof.
  unfold BLI_strncpy, BLI_strncpy_rlen.
  destruct (BLI_assert _); simpl; [|done].
  destruct (memcpy _ _ _); simpl; [|done].
  by destruct (store _ _ _).
Qed.

(** C1: for every capacity [c >= 1], every source and every destination of
    at least [c] bytes, [BLI_strncpy] and [BLI_strncpy_rlen] succeed with the
    same destination; they change no byte after offset [n], where [n < c] is
    the value [BLI_strncpy_rlen] returns, so at most [c] bytes are written,
    terminator included; the byte at offset [n] is the terminator and no byte
    before it is zero, so [n] is the length of the text copied; that text is
    the first [n = min(strlen(src), c - 1)] bytes of the source, and it is
    the whole source text when [strlen(src) < c]. *)
Theorem BLI_strncpy_truncates (dst src : list char) (c : nat) :
  1 ≤ c → c ≤ length dst →
  ∃ dst' n,
    BLI_strncpy_rlen dst src c = Some (dst', n) ∧
    BLI_strncpy dst src c = Some dst' ∧
    length dst' = length dst ∧
    n < c ∧
    (∀ i, n < i → dst' !! i = dst !! i) ∧
    dst' !! n = Some NUL ∧
    strlen dst' = n ∧
    n = min (strlen src) (c - 1) ∧
    cstr dst' = take n (cstr src) ∧
    (strlen src < c → cstr dst' = cstr src).
Proof.
  intros H1 Hcap.
  pose proof (BLI_strncpy_rlen_spec dst src c H1 Hcap) as Hspec.
  simpl in Hspec. set (n := min (strlen src) (c - 1)) in *.
  pose proof (strlen_le_length src) as Hsl.
  assert (Hlen : length (take n src) = n) by (rewrite length_take; lia).
  assert (Hnf : nul_free (take n src)).
  { rewrite take_strlen_cstr by lia. apply nul_free_take, cstr_nul_free. }
  exists (take n src ++ NUL :: drop (S n) dst), n.
  split_and!.
  - done.
  - by rewrite BLI_strncpy_is_rlen, Hspec.
  - rewrite length_app, Hlen. simpl. rewrite length_drop. lia.
  - lia.
  - intros i Hi. rewrite lookup_app_r by lia. rewrite Hlen.
    destruct (i - n) as [|k] eqn:Hk; [lia|]. simpl.
    rewrite lookup_drop. f_equal. lia.
  - rewrite lookup_app_r by lia. by rewrite Hlen, Nat.sub_diag.
  - rewrite strlen_app_nul by done. done.
  - done.
  - rewrite cstr_app_nul by done. apply take_strlen_cstr. lia.
  - intros Hlt. rewrite cstr_app_nul by done.
    unfold cstr. f_equal. lia.
Qed.

Lemma BLI_strncpy_truncates_witness :
  ∃ dst' n,
    BLI_strncpy_rlen (lit "ZZZZ") (lit "abcdef") 3 = Some (dst', n) ∧
    n < 3 ∧ dst' !! n = Some NUL.
Proof.
  destruct (BLI_strncpy_truncates (lit "ZZZZ") (lit "abcdef") 3)
    as (dst' & n & H1 & _ & _ & H2 & _ & H3 & _); [simpl; lia | simpl; lia |].
  exists dst', n. auto.
Defined.

(** C10: for every capacity [c >= 1], two sources that agree on their first
    [c - 1] bytes give the same destination and the same returned length,
    with [BLI_strncpy] and with [BLI_strncpy_rlen]: no byte of the source at
    offset [c - 1] or after takes part in the result, which exists when the
    destination has [c] bytes. *)
Theorem BLI_strncpy_reads_prefix (dst s1 s2 : list char) (c : nat) :
  1 ≤ c →
  (∀ i, i < c - 1 → read s1 i = read s2 i) →
  BLI_strncpy dst s1 c = BLI_strncpy dst s2 c ∧
  BLI_strncpy_rlen dst s1 c = BLI_strncpy_rlen dst s2 c ∧
  (c ≤ length dst → is_Some (BLI_strncpy_rlen dst s1 c)).
Proof.
  intros H1 Hag.
  assert (Hsome : c ≤ length dst → is_Some (BLI_strncpy_rlen dst s1 c)).
  { intros Hcap. by rewrite BLI_strncpy_rlen_spec. }
  assert (Hn : BLI_strnlen s1 (c - 1) = BLI_strnlen s2 (c - 1)).
  { unfold BLI_strnlen. apply strnlen_loop_agree. intros i Hi. apply Hag. lia. }
  assert (Hb : bytes s1 (BLI_strnlen s2 (c - 1)) = bytes s2 (BLI_strnlen s2 (c - 1))).
  { apply bytes_agree. intros i Hi. apply Hag.
    rewrite BLI_strnlen_spec in Hi. lia. }
  split_and!; [| |done];
    unfold BLI_strncpy, BLI_strncpy_rlen, memcpy; simpl; by rewrite Hn, Hb.
Qed.

Lemma BLI_strncpy_reads_prefix_witness :
  BLI_strncpy (lit "ZZZZ") (lit "abXY") 3 = BLI_strncpy (lit "ZZZZ") (lit "abPQRS") 3 ∧
  BLI_strncpy_rlen (lit "ZZZZ") (lit "abXY") 3
  = BLI_strncpy_rlen (lit "ZZZZ") (lit "abPQRS") 3 ∧
  (3 ≤ length (lit "ZZZZ") → is_Some (BLI_strncpy_rlen (lit "ZZZZ") (lit "abXY") 3)).
Proof.
  apply (BLI_strncpy_reads_prefix (lit "ZZZZ") (lit "abXY") (lit "abPQRS") 3).
  - lia.
  - intros [|[|i]] Hi; [reflexivity | reflexivity | simpl in Hi; lia].
Defined.

(** ** [BLI_str_endswith] *)

(** C9: [BLI_str_endswith(s, e)] is [BLI_strn_endswith(s, e, strlen(s))] and
    is true only when [strlen(e) < strlen(s)]; a string never ends with
    itself, and the empty string does not end with the empty string. *)
Theorem BLI_str_endswith_strict (s e : list char) :
  BLI_str_endswith s e = BLI_strn_endswith s e (strlen s) ∧
  (BLI_str_endswith s e = true → strlen e < strlen s) ∧
  BLI_str_endswith s s = false ∧
  BLI_str_endswith [] [] = false.
Proof.
  split_and!.
  - done.
  - unfold BLI_str_endswith, BLI_strn_endswith. simpl.
    case_bool_decide; [done | discriminate].
  - unfold BLI_str_endswith, BLI_strn_endswith. simpl.
    rewrite bool_decide_eq_false_2; [done | lia].
  - done.
Qed.

Lemma BLI_str_endswith_strict_witness :
  strlen (lit "b") < strlen (lit "ab").
Proof.
  apply (BLI_str_endswith_strict (lit "ab") (lit "b")). reflexivity.
Defined.

(** ** [BLI_str_escape] and [BLI_str_unescape] *)

Lemma cstr_nil : cstr [] = [].
Proof. done. Qed.

Lemma cstr_cons_nul c s : is_nul c = true → cstr (c :: s) = [].
Proof. intros H. unfold cstr. simpl. by rewrite H. Qed.

Lemma cstr_cons c s : is_nul c = false → cstr (c :: s) = c :: cstr s.
Proof. intros H. unfold cstr. simpl. by rewrite H. Qed.

Lemma escape_text_cons c t : escape_text (c :: t) = escape_char c ++ escape_text t.
Proof. done. Qed.

Lemma escape_code_Some c c' :
  escape_code c = Some c' →
  is_nul c' = false ∧ unescape_code c' = Some c.
Proof.
  unfold escape_code.
  repeat match goal with
  | |- context [Ascii.eqb c ?k] =>
      destruct (Ascii.eqb_spec c k); [subst c; intros [= <-]; by vm_compute|]
  end; simpl; discriminate.
Qed.

Lemma escape_code_None c :
  escape_code c = None → Ascii.eqb c BACKSLASH = false ∧ Ascii.eqb c DQUOTE = false.
Proof.
  unfold escape_code.
  destruct (Ascii.eqb c BACKSLASH); [discriminate|].
  destruct (Ascii.eqb c DQUOTE); [discriminate|]. done.
Qed.

Lemma length_escape_char c : 1 ≤ length (escape_char c) ≤ 2.
Proof. unfold escape_char. destruct (escape_code c); simpl; lia. Qed.

Lemma length_escape_text t : length t ≤ length (escape_text t) ≤ 2 * length t.
Proof.
  induction t as [|c t IH]; simpl; [lia|].
  rewrite length_app. pose proof (length_escape_char c). lia.
Qed.

Lemma nul_free_escape_text t : nul_free t → nul_free (escape_text t).
Proof.
  induction t as [|c t IH]; intros H; [constructor|].
  apply nul_free_cons in H as [Hc H].
  rewrite escape_text_cons. apply nul_free_app. split; [|by apply IH].
  unfold escape_char. destruct (escape_code c) as [c'|] eqn:He.
  - apply escape_code_Some in He as [Hc' _].
    repeat (apply nul_free_cons; split); [done | done | constructor].
  - by repeat constructor.
Qed.

(** With room for every pair, the loop writes the escaped text and its
    terminator after the [len] bytes already written. *)
Lemma escape_loop_fits src : ∀ pre mid cap,
  length pre + 2 * strlen src < cap →
  cap ≤ length (pre ++ mid) →
  escape_loop (pre ++ mid) src (length pre) cap
  = Some (pre ++ escape_text (cstr src)
              ++ NUL :: drop (S (length (escape_text (cstr src)))) mid,
          length pre + length (escape_text (cstr src))).
Proof.
  induction src as [|c src IH]; intros pre mid cap Hroom Hcap.
  - simpl. destruct mid as [|x mid]; [rewrite length_app in Hcap; simpl in *; lia|].
    rewrite store_after. simpl. rewrite drop_0. do 2 f_equal. lia.
  - simpl in Hroom. simpl escape_loop.
    destruct (is_nul c) eqn:Hc.
    + rewrite andb_false_r. rewrite cstr_cons_nul by done.
      destruct mid as [|x mid]; [rewrite length_app in Hcap; simpl in *; lia|].
      rewrite store_after. simpl. rewrite drop_0. do 2 f_equal. lia.
    + rewrite bool_decide_eq_true_2 by lia. simpl.
      rewrite cstr_cons, escape_text_cons by done. unfold escape_char.
      rewrite length_app in Hcap.
      destruct (escape_code c) as [c'|] eqn:He.
      * rewrite bool_decide_eq_false_2 by lia.
        destruct mid as [|x [|y mid]]; [simpl in *; lia..|].
        rewrite store_after. simpl.
        replace (pre ++ BACKSLASH :: y :: mid) with ((pre ++ [BACKSLASH]) ++ y :: mid)
          by (by rewrite <- app_assoc).
        replace (length pre + 1) with (length (pre ++ [BACKSLASH]))
          by (rewrite length_app; simpl; lia).
        rewrite store_after. simpl.
        replace ((pre ++ [BACKSLASH]) ++ c' :: mid) with ((pre ++ [BACKSLASH; c']) ++ mid)
          by (by rewrite <- !app_assoc).
        replace (length pre + 2) with (length (pre ++ [BACKSLASH; c']))
          by (rewrite length_app; simpl; lia).
        rewrite IH; [| rewrite length_app; simpl; lia
                     | rewrite !length_app; simpl in *; lia].
        rewrite <- !app_assoc, length_app. simpl. do 2 f_equal. lia.
      * destruct mid as [|x mid]; [simpl in *; lia|].
        rewrite store_after. simpl.
        replace (pre ++ c :: mid) with ((pre ++ [c]) ++ mid)
          by (by rewrite <- app_assoc).
        replace (length pre + 1) with (length (pre ++ [c]))
          by (rewrite length_app; simpl; lia).
        rewrite IH; [| rewrite length_app; simpl; lia
                     | rewrite !length_app; simpl in *; lia].
        rewrite <- !app_assoc, length_app. simpl. do 2 f_equal. lia.
Qed.

Lemma BLI_str_escape_fits dst src cap :
  2 * strlen src + 1 ≤ cap → cap ≤ length dst →
  BLI_str_escape dst src cap
  = Some (escape_text (cstr src)
            ++ NUL :: drop (S (length (escape_text (cstr src)))) dst,
          length (escape_text (cstr src))).
Proof.
  intros Hroom Hcap. unfold BLI_str_escape.
  replace (negb (cap =? 0)) with true
    by (symmetry; apply negb_true_iff, Nat.eqb_neq; lia).
  simpl. apply (escape_loop_fits src [] dst cap); simpl; lia.
Qed.

(** One round of [BLI_str_unescape] on a byte that is copied as it is. *)
Lemma unescape_loop_literal dst c src' len i lim :
  i < lim → is_nul c = false → Ascii.eqb c BACKSLASH = false →
  unescape_loop dst (c :: src') len i lim
  = dst1 ← store dst len c; unescape_loop dst1 src' (len + 1) (i + 1) lim.
Proof.
  intros Hi Hc Hb. simpl.
  rewrite bool_decide_eq_true_2 by done. rewrite Hc, Hb. simpl.
  by destruct src'.
Qed.

(** One round of [BLI_str_unescape] on a recognised pair. *)
Lemma unescape_loop_pair dst c_next c src'' len i lim :
  i < lim → unescape_code c_next = Some c →
  unescape_loop dst (BACKSLASH :: c_next :: src'') len i lim
  = dst1 ← store dst len c; unescape_loop dst1 src'' (len + 1) (i + 2) lim.
Proof.
  intros Hi Hc. simpl.
  rewrite bool_decide_eq_true_2 by done. by rewrite Hc.
Qed.

(** The loop stops at the scan limit or at a terminator. *)
Lemma unescape_loop_stop dst rest len i lim :
  lim ≤ i ∨ read rest 0 = NUL →
  unescape_loop dst rest len i lim = dst1 ← store dst len NUL; Some (dst1, len).
Proof.
  intros Hstop. destruct rest as [|c rest]; [done|]. simpl.
  destruct Hstop as [Hlim|Hnul].
  - rewrite bool_decide_eq_false_2 by lia. done.
  - rewrite read_cons_0 in Hnul. subst c. by rewrite andb_false_r.
Qed.

(** Decoding an escaped text that is followed by a terminator, or that ends
    exactly at the scan limit, gives the text back. *)
Lemma unescape_loop_escaped t : ∀ pre mid i lim rest,
  nul_free t →
  i + length (escape_text t) ≤ lim →
  lim = i + length (escape_text t) ∨ read rest 0 = NUL →
  length t < length mid →
  unescape_loop (pre ++ mid) (escape_text t ++ rest) (length pre) i lim
  = Some (pre ++ t ++ NUL :: drop (S (length t)) mid, length pre + length t).
Proof.
  induction t as [|c t IH]; intros pre mid i lim rest Hnf Hlim Hstop Hroom.
  - simpl in *. rewrite unescape_loop_stop by (destruct Hstop; [left; lia | by right]).
    destruct mid as [|x mid]; [simpl in *; lia|].
    rewrite store_after. simpl. rewrite drop_0. do 2 f_equal. lia.
  - apply nul_free_cons in Hnf as [Hc Hnf].
    rewrite escape_text_cons in *. rewrite length_app in Hlim.
    destruct mid as [|x mid]; [simpl in *; lia|]. simpl in Hroom.
    assert (Hpre : length (pre ++ [c]) = length pre + 1)
      by (rewrite length_app; simpl; lia).
    unfold escape_char in *. destruct (escape_code c) as [c'|] eqn:He.
    + apply escape_code_Some in He as [_ Hun]. simpl in Hlim. simpl app.
      rewrite (unescape_loop_pair _ _ c) by (done || lia).
      rewrite store_after. simpl.
      replace (pre ++ c :: mid) with ((pre ++ [c]) ++ mid) by (by rewrite <- app_assoc).
      rewrite <- Hpre.
      rewrite IH; [| done | lia | | lia].
      * rewrite <- !app_assoc, Hpre. simpl. do 2 f_equal. lia.
      * destruct Hstop as [Hs|Hs]; [left | by right].
        rewrite length_app in Hs. simpl in Hs. lia.
    + apply escape_code_None in He as [Hb _]. simpl in Hlim. simpl app.
      rewrite unescape_loop_literal by (done || lia).
      rewrite store_after. simpl.
      replace (pre ++ c :: mid) with ((pre ++ [c]) ++ mid) by (by rewrite <- app_assoc).
      rewrite <- Hpre.
      rewrite IH; [| done | lia | | lia].
      * rewrite <- !app_assoc, Hpre. simpl. do 2 f_equal. lia.
      * destruct Hstop as [Hs|Hs]; [left | by right].
        rewrite length_app in Hs. simpl in Hs. lia.
Qed.

(** C3: with an escape destination of at least [2 * strlen(s) + 1] bytes,
    [BLI_str_escape] succeeds and returns the length of the escaped string
    [e]; then, with an unescape destination of at least [strlen(e) + 1] bytes
    and a scan limit of at least [strlen(e)], [BLI_str_unescape] succeeds on
    [e], the string it leaves is [s] and it returns [strlen(s)]. *)
Theorem BLI_str_unescape_escape (s dst : list char) (cap : nat) :
  2 * strlen s + 1 ≤ cap → cap ≤ length dst →
  ∃ e n,
    BLI_str_escape dst s cap = Some (e, n) ∧
    n = strlen e ∧
    ∀ dst2 lim,
      strlen e + 1 ≤ length dst2 → strlen e ≤ lim →
      ∃ u m,
        BLI_str_unescape dst2 e lim = Some (u, m) ∧
        cstr u = cstr s ∧
        m = strlen s.
Proof.
  intros Hroom Hcap.
  set (t := cstr s).
  assert (Ht : nul_free t) by apply cstr_nul_free.
  assert (Het : nul_free (escape_text t)) by by apply nul_free_escape_text.
  pose proof (length_escape_text t) as Hlen.
  exists (escape_text t ++ NUL :: drop (S (length (escape_text t))) dst),
         (length (escape_text t)).
  split; [by apply BLI_str_escape_fits|].
  rewrite strlen_app_nul by done. split; [done|].
  intros dst2 lim Hdst2 Hlim.
  exists (t ++ NUL :: drop (S (length t)) dst2), (length t).
  split_and!.
  - unfold BLI_str_unescape.
    pose proof (unescape_loop_escaped t [] dst2 0 lim
                  (NUL :: drop (S (length (escape_text t))) dst)) as H.
    simpl in H. apply H; [done | lia | by right | lia].
  - by rewrite cstr_app_nul.
  - subst t. by rewrite length_cstr.
Qed.

Lemma BLI_str_unescape_escape_witness :
  ∃ e n, BLI_str_escape (lit "ZZZZZZZ") (lit "a" ++ [DQUOTE; TAB]) 7 = Some (e, n) ∧
         n = strlen e.
Proof.
  destruct (BLI_str_unescape_escape (lit "a" ++ [DQUOTE; TAB]) (lit "ZZZZZZZ") 7)
    as (e & n & H1 & H2 & _); [simpl; lia | simpl; lia |].
  exists e, n. auto.
Defined.

(** What the loop does guarantee: in a destination that has one byte more
    than [dst_maxncpy], it writes a zero-free text of at most [dst_maxncpy]
    bytes and the terminator right after it, and returns the length of that
    text. *)
Lemma escape_loop_bound src : ∀ pre mid cap,
  length pre ≤ cap → cap < length (pre ++ mid) →
  ∃ out,
    escape_loop (pre ++ mid) src (length pre) cap
    = Some (pre ++ out ++ NUL :: drop (S (length out)) mid, length pre + length out)
    ∧ length pre + length out ≤ cap
    ∧ nul_free out.
Proof.
  assert (Hstop : ∀ pre mid cap,
    length pre ≤ cap → cap < length (pre ++ mid) →
    ∃ out,
      (dst1 ← store (pre ++ mid) (length pre) NUL; Some (dst1, length pre))
      = Some (pre ++ out ++ NUL :: drop (S (length out)) mid, length pre + length out)
      ∧ length pre + length out ≤ cap
      ∧ nul_free out).
  { intros pre mid cap Hlen Hcap. exists []. rewrite length_app in Hcap.
    destruct mid as [|x mid]; [simpl in *; lia|].
    rewrite store_after. simpl. rewrite drop_0, Nat.add_0_r.
    split; [done|]. split; [lia | constructor]. }
  induction src as [|c src IH]; intros pre mid cap Hlen Hcap; [by apply Hstop|].
  cbn [escape_loop].
  destruct (decide (length pre < cap)) as [Hlt|Hge];
    [rewrite bool_decide_eq_true_2 by done
    |rewrite bool_decide_eq_false_2 by done; by apply Hstop].
  destruct (is_nul c) eqn:Hc; [by apply Hstop|]. cbn [negb andb].
  pose proof Hcap as Hcap'. rewrite length_app in Hcap'.
  destruct (escape_code c) as [c'|] eqn:He.
  - case_bool_decide as Hroom; [by apply Hstop|].
    apply escape_code_Some in He as [Hc' _].
    destruct mid as [|x [|y mid]]; [simpl in *; lia..|].
    rewrite store_after. simpl.
    replace (pre ++ BACKSLASH :: y :: mid) with ((pre ++ [BACKSLASH]) ++ y :: mid)
      by (by rewrite <- app_assoc).
    replace (length pre + 1) with (length (pre ++ [BACKSLASH]))
      by (rewrite length_app; simpl; lia).
    rewrite store_after. simpl.
    replace ((pre ++ [BACKSLASH]) ++ c' :: mid) with ((pre ++ [BACKSLASH; c']) ++ mid)
      by (by rewrite <- !app_assoc).
    replace (length pre + 2) with (length (pre ++ [BACKSLASH; c']))
      by (rewrite length_app; simpl; lia).
    destruct (IH (pre ++ [BACKSLASH; c']) mid cap) as (out & Hout & Hle & Hnf).
    { rewrite length_app. simpl. lia. }
    { rewrite !length_app. simpl in *. lia. }
    exists (BACKSLASH :: c' :: out). rewrite Hout.
    rewrite length_app in *. simpl in *.
    split; [rewrite <- !app_assoc; simpl; do 2 f_equal; lia|].
    split; [lia|]. by repeat (apply nul_free_cons; split).
  - destruct mid as [|x mid]; [simpl in *; lia|].
    rewrite store_after. simpl.
    replace (pre ++ c :: mid) with ((pre ++ [c]) ++ mid) by (by rewrite <- app_assoc).
    replace (length pre + 1) with (length (pre ++ [c]))
      by (rewrite length_app; simpl; lia).
    destruct (IH (pre ++ [c]) mid cap) as (out & Hout & Hle & Hnf).
    { rewrite length_app. simpl. lia. }
    { rewrite !length_app. simpl in *. lia. }
    exists (c :: out). rewrite Hout.
    rewrite length_app in *. simpl in *.
    split; [rewrite <- !app_assoc; simpl; do 2 f_equal; lia|].
    split; [lia|]. by apply nul_free_cons.
Qed.

Lemma BLI_str_escape_bound dst src dst_maxncpy :
  1 ≤ dst_maxncpy → dst_maxncpy < length dst →
  ∃ dst' n,
    BLI_str_escape dst src dst_maxncpy = Some (dst', n)
    ∧ n ≤ dst_maxncpy
    ∧ strlen dst' = n
    ∧ ∀ i, n < i → dst' !! i = dst !! i.
Proof.
  intros H1 Hcap. unfold BLI_str_escape.
  replace (negb (dst_maxncpy =? 0)) with true
    by (symmetry; apply negb_true_iff, Nat.eqb_neq; lia).
  destruct (escape_loop_bound src [] dst dst_maxncpy) as (out & Hout & Hle & Hnf);
    [simpl; lia | done |].
  simpl in *. rewrite Hout.
  exists (out ++ NUL :: drop (S (length out)) dst), (length out).
  split; [done|]. split; [done|]. split; [by apply strlen_app_nul|].
  intros i Hi. rewrite lookup_app_r by lia.
  destruct (i - length out) as [|k] eqn:Hk; [lia|]. simpl.
  rewrite lookup_drop. f_equal. lia.
Qed.

(** C2 (fails on the code): with [dst_maxncpy = 2] and the source [ab], the
    loop writes both bytes and the terminator goes to offset [2]: in a
    destination of [dst_maxncpy] bytes that store is out of bounds, and in a
    larger one the byte after the capacity is overwritten; the returned
    length is [dst_maxncpy]. *)
Theorem BLI_str_escape_terminator_past_capacity :
  BLI_str_escape (lit "ZZ") (lit "ab") 2 = None ∧
  BLI_str_escape (lit "ZZZ") (lit "ab") 2 = Some (lit "ab" ++ [NUL], 2).
Proof. split; reflexivity. Qed.

(** ** [BLI_str_quoted_substrN] *)

Lemma has_prefix_app p r : nul_free p → has_prefix (p ++ r) p = true.
Proof.
  induction p as [|c p IH]; intros H; [done|].
  apply nul_free_cons in H as [Hc H]. simpl.
  rewrite Hc, Ascii.eqb_refl. by apply IH.
Qed.

Lemma strstr_from_here s find off :
  has_prefix s find = true → strstr_from s find off = Some off.
Proof. intros H. destruct s; simpl; by rewrite H. Qed.

Lemma strstr_app p r : nul_free p → strstr (p ++ r) p = Some 0.
Proof. intros H. apply strstr_from_here. by apply has_prefix_app. Qed.

(** In an escaped text every quote and every back-slash is half of a pair,
    so the first unescaped quote is the one that follows the text. *)
Lemma find_quote_loop_escaped t : ∀ off rest,
  nul_free t →
  find_quote_loop (escape_text t ++ DQUOTE :: rest) false off
  = Some (off + length (escape_text t)).
Proof.
  induction t as [|c t IH]; intros off rest Hnf.
  - simpl. f_equal. lia.
  - apply nul_free_cons in Hnf as [Hc Hnf].
    rewrite escape_text_cons, length_app. unfold escape_char.
    destruct (escape_code c) as [c'|] eqn:He.
    + apply escape_code_Some in He as [Hc' _]. simpl.
      rewrite Hc'. simpl. rewrite orb_true_r, IH by done. f_equal. lia.
    + apply escape_code_None in He as [Hb Hq]. simpl.
      rewrite Hc, Hq, Hb. simpl. rewrite IH by done. f_equal. lia.
Qed.

Lemma drop_replicate_all {A} (x : A) n : drop n (replicate n x) = [].
Proof. apply drop_ge. by rewrite length_replicate. Qed.

(** Extraction from [prefix"escaped text"rest]. *)
Lemma BLI_str_quoted_substrN_escaped p t rest :
  nul_free p → nul_free t →
  BLI_str_quoted_substrN (p ++ DQUOTE :: escape_text t ++ DQUOTE :: rest) p
  = Some (Some (t ++ [NUL])).
Proof.
  intros Hp Ht. unfold BLI_str_quoted_substrN.
  rewrite strstr_app by done. rewrite strlen_nul_free by done.
  replace (drop (0 + (length p + 1)) (p ++ DQUOTE :: escape_text t ++ DQUOTE :: rest))
    with (escape_text t ++ DQUOTE :: rest).
  2:{ replace (p ++ DQUOTE :: escape_text t ++ DQUOTE :: rest)
        with ((p ++ [DQUOTE]) ++ escape_text t ++ DQUOTE :: rest)
        by (by rewrite <- app_assoc).
      symmetry. apply drop_app_length'. rewrite length_app. simpl. lia. }
  unfold BLI_str_escape_find_quote. rewrite find_quote_loop_escaped by done.
  simpl. unfold BLI_str_unescape, MEM_mallocN.
  pose proof (length_escape_text t) as Hlen.
  pose proof (unescape_loop_escaped t []
                (replicate (length (escape_text t) + 1) "255"%char)
                0 (length (escape_text t)) (DQUOTE :: rest)) as H.
  simpl in H. rewrite H; [| done | lia | by left | rewrite length_replicate; lia].
  simpl. case_bool_decide as Hne.
  - unfold MEM_reallocN. rewrite length_app. simpl.
    replace (length t + 1 - _) with 0 by lia. simpl. rewrite app_nil_r.
    replace (length t + 1) with (length (t ++ [NUL])) by (rewrite length_app; simpl; lia).
    replace (t ++ NUL :: drop (S (length t)) (replicate (length (escape_text t) + 1) "255"%char))
      with ((t ++ [NUL]) ++ drop (S (length t)) (replicate (length (escape_text t) + 1) "255"%char))
      by (by rewrite <- app_assoc).
    by rewrite take_app_length.
  - rewrite Hne.
    replace (S (length (escape_text t))) with (length (escape_text t) + 1) by lia.
    by rewrite drop_replicate_all.
Qed.

(** C4: let [e] be the string [BLI_str_escape] leaves for [s] in a large
    enough destination.  For every prefix [p], and whatever follows the
    closing quote, [BLI_str_quoted_substrN] applied to [p], a quote, [e], a
    quote and the rest, with the prefix [p], returns an owned block that holds
    exactly the text of [s] and its terminator. *)
Theorem BLI_str_quoted_substrN_roundtrip (p s dst e rest : list char) (cap n : nat) :
  nul_free p → p ≠ [] →
  2 * strlen s + 1 ≤ cap → cap ≤ length dst →
  BLI_str_escape dst s cap = Some (e, n) →
  BLI_str_quoted_substrN (p ++ DQUOTE :: cstr e ++ DQUOTE :: rest) p
  = Some (Some (cstr s ++ [NUL])).
Proof.
  intros Hp _ Hroom Hcap He.
  rewrite BLI_str_escape_fits in He by done. injection He as <- <-.
  rewrite cstr_app_nul by apply nul_free_escape_text, cstr_nul_free.
  apply BLI_str_quoted_substrN_escaped; [done | apply cstr_nul_free].
Qed.

Lemma BLI_str_quoted_substrN_roundtrip_witness :
  BLI_str_quoted_substrN
    (lit "pose[" ++ DQUOTE :: lit "a" ++ [BACKSLASH; DQUOTE] ++ lit "b" ++ DQUOTE :: lit "]")
    (lit "pose[")
  = Some (Some (lit "a" ++ [DQUOTE] ++ lit "b" ++ [NUL])).
Proof.
  apply (BLI_str_quoted_substrN_roundtrip
           (lit "pose[") (lit "a" ++ [DQUOTE] ++ lit "b") (lit "ZZZZZZZ")
           (lit "a" ++ [BACKSLASH; DQUOTE] ++ lit "b" ++ [NUL] ++ lit "ZZ")
           (lit "]") 7 4).
  - unfold nul_free. repeat constructor.
  - discriminate.
  - simpl. lia.
  - simpl. lia.
  - reflexivity.
Defined.

(** ** [BLI_str_replaceN] *)

Lemma has_prefix_occurs_here old : ∀ s,
  nul_free old → has_prefix s old = occurs_here old s.
Proof.
  unfold occurs_here. induction old as [|f old IH]; intros s Hold; [done|].
  apply nul_free_cons in Hold as [Hf Hold].
  cbn [has_prefix length]. rewrite Hf.
  destruct s as [|c s]; cbn [firstn].
  - by rewrite bool_decide_eq_false_2.
  - rewrite IH by done. destruct (Ascii.eqb_spec c f) as [->|Hne]; cbn [andb].
    + apply bool_decide_ext. split; [by intros -> | by intros [= ->]].
    + rewrite bool_decide_eq_false_2; [done | by intros [= ? _]].
Qed.

Section replace.
Variables substr_old substr_new : list char.
Hypothesis old_nul_free : nul_free substr_old.
Hypothesis old_not_empty : 1 ≤ length substr_old.
Hypothesis new_nul_free : nul_free substr_new.

Lemma occurs_here_length s :
  occurs_here substr_old s = true → length substr_old ≤ length s.
Proof.
  unfold occurs_here. intros H%bool_decide_eq_true.
  apply (f_equal length) in H. rewrite length_take in H. lia.
Qed.

(** The number of rounds does not matter once it covers the text. *)
Lemma naive_replace_rounds_enough r1 : ∀ r2 s,
  length s ≤ r1 → length s ≤ r2 →
  naive_replace_rounds r1 s substr_old substr_new
  = naive_replace_rounds r2 s substr_old substr_new.
Proof.
  induction r1 as [|r1 IH]; intros r2 s H1 H2.
  - destruct s; [|simpl in *; lia]. by destruct r2.
  - destruct r2 as [|r2].
    + destruct s; [done | simpl in *; lia].
    + destruct s as [|c s]; [done|]. cbn [naive_replace_rounds].
      simpl in H1, H2.
      destruct (occurs_here substr_old (c :: s)) eqn:Ho.
      * f_equal. apply IH; rewrite length_drop; simpl; lia.
      * f_equal. apply IH; lia.
Qed.

Lemma naive_replace_all_nil : naive_replace_all [] substr_old substr_new = [].
Proof. done. Qed.

Lemma naive_replace_all_here s :
  occurs_here substr_old s = true →
  naive_replace_all s substr_old substr_new
  = substr_new
    ++ naive_replace_all (drop (length substr_old) s) substr_old substr_new.
Proof.
  intros Ho. pose proof (occurs_here_length s Ho) as Hlen.
  destruct s as [|c s]; [simpl in Hlen; lia|].
  unfold naive_replace_all. cbn [length naive_replace_rounds]. rewrite Ho.
  f_equal. apply naive_replace_rounds_enough; [|done].
  rewrite length_drop. simpl. lia.
Qed.

Lemma naive_replace_all_skip c s :
  occurs_here substr_old (c :: s) = false →
  naive_replace_all (c :: s) substr_old substr_new
  = c :: naive_replace_all s substr_old substr_new.
Proof.
  intros Ho. unfold naive_replace_all. cbn [length naive_replace_rounds].
  by rewrite Ho.
Qed.

(** A miss of [strstr]: the reference leaves the text as it is. *)
Lemma strstr_from_None s : ∀ off,
  nul_free s → strstr_from s substr_old off = None →
  naive_replace_all s substr_old substr_new = s.
Proof.
  induction s as [|c s IH]; intros off Hs Hm; [done|].
  apply nul_free_cons in Hs as [Hc Hs]. simpl in Hm.
  rewrite Hc in Hm.
  destruct (has_prefix (c :: s) substr_old) eqn:Hp; [done|].
  rewrite has_prefix_occurs_here in Hp by done.
  rewrite naive_replace_all_skip by done. f_equal. by apply (IH (S off)).
Qed.

(** A hit of [strstr] at offset [k]: the reference keeps the [k] bytes
    before it, puts the replacement and goes on after the occurrence. *)
Lemma strstr_from_Some s : ∀ off r,
  nul_free s → strstr_from s substr_old off = Some r →
  ∃ k, r = off + k ∧ k + length substr_old ≤ length s ∧
       naive_replace_all s substr_old substr_new
       = take k s ++ substr_new
         ++ naive_replace_all (drop (k + length substr_old) s) substr_old substr_new.
Proof.
  induction s as [|c s IH]; intros off r Hs Hm.
  - simpl in Hm. destruct (has_prefix [] substr_old) eqn:Hp; [|done].
    rewrite has_prefix_occurs_here in Hp by done. apply occurs_here_length in Hp.
    simpl in Hp. lia.
  - apply nul_free_cons in Hs as [Hc Hs]. simpl in Hm. rewrite Hc in Hm.
    destruct (has_prefix (c :: s) substr_old) eqn:Hp.
    + injection Hm as <-. rewrite has_prefix_occurs_here in Hp by done.
      exists 0. split; [lia|]. split; [by apply occurs_here_length|].
      by apply naive_replace_all_here.
    + rewrite has_prefix_occurs_here in Hp by done.
      destruct (IH (S off) r Hs Hm) as (k & -> & Hk & Hn).
      exists (S k). split; [lia|]. split; [simpl; lia|].
      rewrite naive_replace_all_skip by done. simpl. by rewrite Hn.
Qed.

Lemma nul_free_drop n s : nul_free s → nul_free (drop n s).
Proof. apply Forall_drop. Qed.

Lemma nul_free_naive r : ∀ s,
  nul_free s → nul_free (naive_replace_rounds r s substr_old substr_new).
Proof.
  induction r as [|r IH]; intros s Hs; [done|].
  destruct s as [|c s]; [done|]. cbn [naive_replace_rounds].
  destruct (occurs_here _ _).
  - apply nul_free_app. split; [done|]. by apply IH, nul_free_drop.
  - apply nul_free_cons in Hs as [Hc Hs]. apply nul_free_cons. split; [done|].
    by apply IH.
Qed.

Lemma length_naive r : ∀ s,
  length substr_new = length substr_old →
  length (naive_replace_rounds r s substr_old substr_new) = length s.
Proof.
  intros s Hlen. revert s.
  induction r as [|r IH]; intros s; [done|].
  destruct s as [|c s]; [done|]. cbn [naive_replace_rounds].
  destruct (occurs_here _ _) eqn:Ho.
  - apply occurs_here_length in Ho.
    rewrite length_app, IH, length_drop. lia.
  - simpl. by rewrite IH.
Qed.

(** The loop of the code against the reference. *)
Lemma replace_loop_spec fuel : ∀ ds str,
  nul_free str → length str < fuel →
  ∃ ds' str',
    replace_loop fuel ds str substr_old substr_new (length substr_old) = Some (ds', str') ∧
    nul_free str' ∧
    match ds' with
    | Some d' => d' ++ str' = default [] ds ++ naive_replace_all str substr_old substr_new
    | None => ds = None ∧ str' = str ∧ naive_replace_all str substr_old substr_new = str
    end.
Proof.
  induction fuel as [|fuel IH]; intros ds str Hs Hfuel; [lia|].
  cbn [replace_loop].
  destruct (strstr str substr_old) as [r|] eqn:Hm.
  - destruct (strstr_from_Some str 0 r Hs Hm) as (k & -> & Hk & Hn).
    simpl. rewrite drop_drop.
    edestruct (IH (Some (BLI_dynstr_append
                   (if bool_decide (k ≠ 0)
                    then BLI_dynstr_nappend (default BLI_dynstr_new ds) str k
                    else default BLI_dynstr_new ds) substr_new))
                 (drop (k + length substr_old) str))
      as (ds' & str' & Hloop & Hs' & Hres).
    { by apply nul_free_drop. }
    { rewrite length_drop. lia. }
    exists ds', str'.
    replace (match ds with Some d => d | None => BLI_dynstr_new end)
      with (default BLI_dynstr_new ds) by (by destruct ds).
    rewrite Hloop. split; [done|]. split; [done|].
    destruct ds' as [d'|]; [|by destruct Hres].
    rewrite Hres, Hn. simpl.
    unfold BLI_dynstr_append, BLI_dynstr_nappend, BLI_dynstr_new.
    rewrite !cstr_nul_free_id by done.
    case_bool_decide as Hk0.
    + by rewrite <- !app_assoc.
    + assert (k = 0) as -> by lia. simpl. by rewrite <- !app_assoc.
  - exists ds, str. split; [done|]. split; [done|].
    pose proof (strstr_from_None str 0 Hs Hm) as Hn.
    destruct ds as [d|]; [by rewrite Hn | done].
Qed.
End replace.

Lemma BLI_strdup_spec str : nul_free str → BLI_strdup str = Some (str ++ [NUL]).
Proof.
  intros Hs. unfold BLI_strdup, BLI_strdupn, MEM_mallocN, memcpy.
  rewrite strlen_nul_free by done.
  rewrite decide_True by (rewrite length_replicate; lia). simpl.
  rewrite bytes_take, firstn_all by done.
  replace (length str + 1) with (S (length str)) by lia.
  rewrite drop_replicate. replace (S (length str) - length str) with 1 by lia.
  simpl. apply store_after.
Qed.

(** C8: for texts [str], [substr_old] and [substr_new] with [substr_old] not
    empty and [substr_new] of the same length, [BLI_str_replaceN] returns
    a string; it is the result of the naive replace-all reference, and it has
    the length of [str]. *)
Theorem BLI_str_replaceN_same_length (str substr_old substr_new : list char) :
  nul_free str → nul_free substr_old → nul_free substr_new →
  substr_old ≠ [] →
  length substr_new = length substr_old →
  ∃ r,
    BLI_str_replaceN str substr_old substr_new = Some r ∧
    cstr r = naive_replace_all str substr_old substr_new ∧
    strlen r = strlen str.
Proof.
  intros Hs Hold Hnew Hne Hlen.
  assert (Hlen1 : 1 ≤ length substr_old).
  { destruct substr_old; [done | simpl; lia]. }
  assert (Hnf : nul_free (naive_replace_all str substr_old substr_new))
    by by apply nul_free_naive.
  exists (naive_replace_all str substr_old substr_new ++ [NUL]).
  split_and!.
  - unfold BLI_str_replaceN.
    assert (Hf : is_nul (read substr_old 0) = false).
    { destruct substr_old; [done|]. by apply nul_free_cons in Hold as [? _]. }
    rewrite Hf, strlen_nul_free by done.
    destruct (replace_loop_spec substr_old substr_new Hold Hlen1 Hnew
                (S (length str)) None str Hs ltac:(lia))
      as (ds' & str' & Hloop & Hs' & Hres).
    rewrite Hloop. simpl. destruct ds' as [d'|].
    + unfold BLI_dynstr_get_cstring, BLI_dynstr_append.
      rewrite cstr_nul_free_id by done. by rewrite Hres.
    + destruct Hres as (_ & -> & ->). by apply BLI_strdup_spec.
  - by apply cstr_app_nul.
  - rewrite strlen_app_nul by done. rewrite strlen_nul_free by done.
    unfold naive_replace_all. by apply length_naive.
Qed.

Lemma BLI_str_replaceN_same_length_witness :
  ∃ r, BLI_str_replaceN (lit "abcabc") (lit "bc") (lit "xy") = Some r ∧
       cstr r = naive_replace_all (lit "abcabc") (lit "bc") (lit "xy") ∧
       strlen r = strlen (lit "abcabc").
Proof.
  apply (BLI_str_replaceN_same_length (lit "abcabc") (lit "bc") (lit "xy")).
  - unfold nul_free. repeat constructor.
  - unfold nul_free. repeat constructor.
  - unfold nul_free. repeat constructor.
  - discriminate.
  - reflexivity.
Defined.

(** ** [BLI_strcasecmp_natural] *)



Lemma digits_loop_inl p1 : ∀ p2 n r,
  digits_loop p1 p2 n = inl r → r = 1%Z ∨ r = (-1)%Z.
Proof.
  induction p1 as [|c1 p1 IH]; intros p2 n r; simpl.
  - destruct (isdigit (read p2 0)); intros [= <-]; auto.
  - destruct (isdigit c1), (isdigit (read p2 0)); simpl;
      try (intros [= <-]; by auto). apply IH.
Qed.

Lemma left_number_strcmp_tie s1 s2 :
  fst (left_number_strcmp s1 s2 0) = 0%Z →
  snd (left_number_strcmp s1 s2 0)
  = if bool_decide (numzero s2 < numzero s1) then 1%Z
    else if bool_decide (numzero s1 < numzero s2) then (-1)%Z
    else 0%Z.
Proof.
  unfold left_number_strcmp, numzero.
  destruct (skip_zeros s1 0) as [n1 p1], (skip_zeros s2 0) as [n2 p2]. simpl.
  destruct (digits_loop p1 p2 0) as [r|n] eqn:Hd; simpl.
  - intros ->. by destruct (digits_loop_inl _ _ _ _ Hd).
  - case_bool_decide; simpl; [by intros ?|]. done.
Qed.



Lemma read_not_nul_lt s i : is_nul (read s i) = false → i < length s.
Proof.
  intros H. destruct (decide (i < length s)) as [|Hge]; [done|].
  unfold read in H. rewrite lookup_ge_None_2 in H by lia. done.
Qed.

(** With one round per byte of [s1] and one more, the loop is left. *)
Lemma natural_loop_total fuel : ∀ s1 s2 d1 d2 tb,
  1 ≤ fuel → length s1 < fuel + d1 →
  is_Some (natural_loop fuel s1 s2 d1 d2 tb).
Proof.
  induction fuel as [|fuel IH]; intros s1 s2 d1 d2 tb Hf Hlen; [lia|].
  cbn [natural_loop].
  assert (Hstep : ∀ e1 e2 t, d1 ≤ e1 →
    is_Some
      (if is_nul (read s1 e1) || is_nul (read s2 e2) then Some (Break t)
       else
         if Ascii.eqb (tolower (read s1 e1)) (tolower (read s2 e2))
         then natural_loop fuel s1 s2 (S e1) (S e2) t
         else if Ascii.eqb (tolower (read s1 e1)) "."
         then Some (Return (-1)%Z)
         else if Ascii.eqb (tolower (read s2 e2)) "."
         then Some (Return 1%Z)
         else if (char_val (tolower (read s1 e1)) <? char_val (tolower (read s2 e2)))%Z
         then Some (Return (-1)%Z)
         else if (char_val (tolower (read s1 e1)) >? char_val (tolower (read s2 e2)))%Z
         then Some (Return 1%Z)
         else natural_loop fuel s1 s2 (S e1) (S e2) t)).
  { intros e1 e2 t He.
    destruct (is_nul (read s1 e1)) eqn:Hn; [done|].
    apply read_not_nul_lt in Hn.
    destruct (is_nul (read s2 e2)); [done|]. simpl.
    repeat (destruct (_ : bool); [first [done | apply IH; lia]|]).
    apply IH; lia. }
  destruct (isdigit (read s1 d1) && isdigit (read s2 d2)).
  - destruct (left_number_strcmp _ _ tb) as [c t].
    case_bool_decide; [done|]. apply Hstep. unfold skip_digits. lia.
  - case_bool_decide; [done|]. by apply Hstep.
Qed.

Lemma BLI_strcasecmp_natural_total s1 s2 :
  is_Some (BLI_strcasecmp_natural s1 s2).
Proof.
  unfold BLI_strcasecmp_natural.
  destruct (natural_loop_total (S (length s1)) s1 s2 0 0 0%Z) as [e ->]; [lia..|].
  simpl. destruct e; [done|]. by case_bool_decide.
Qed.






(** ** The natural comparison on whole strings *)






Lemma natural_rest_ext cont cont' s1 s2 d1 d2 tb :
  (∀ t, cont (S d1) (S d2) t = cont' (S d1) (S d2) t) →
  natural_rest cont s1 s2 d1 d2 tb = natural_rest cont' s1 s2 d1 d2 tb.
Proof. intros H. unfold natural_rest. by rewrite !H. Qed.
















Section numbers.
Variables (z1 z2 : nat) (n1 n2 r1 r2 : list char) (tb : Z).

Local Abbreviation number1 := (replicate z1 "0"%char ++ n1 ++ r1).
Local Abbreviation number2 := (replicate z2 "0"%char ++ n2 ++ r2).


End numbers.





















(** ** [BLI_string_has_word_prefix] *)

Lemma tolower_not_nul c : is_nul c = false → is_nul (tolower c) = false.
Proof. destruct c as [[] [] [] [] [] [] [] []]; by vm_compute. Qed.

Lemma char_val_nul c : char_val c = 0%Z → c = NUL.
Proof. intros H. by apply char_val_inj. Qed.

(** [BLI_strncasecmp] on a text [s] and [len] bytes that [find] has: the
    result is zero exactly when the first [len] bytes agree, case apart. *)
Lemma BLI_strncasecmp_zero len : ∀ s find,
  nul_free s → len ≤ strlen find →
  BLI_strncasecmp s find len = 0%Z
  ↔ tolower <$> take len s = tolower <$> take len find.
Proof.
  induction len as [|len IH]; intros s find Hs Hlen; [done|].
  destruct find as [|cf find]; [simpl in Hlen; lia|].
  simpl in Hlen. destruct (is_nul cf) eqn:Hcf; [lia|].
  pose proof (tolower_not_nul cf Hcf) as Hlf.
  cbn [BLI_strncasecmp]. rewrite read_cons_0.
  destruct s as [|cs s].
  - rewrite read_nil. change (tolower NUL) with NUL. change (char_val NUL) with 0%Z.
    assert (char_val (tolower cf) ≠ 0%Z).
    { intros E. apply char_val_nul in E. rewrite E in Hlf. done. }
    destruct (Z.ltb_spec 0 (char_val (tolower cf))); [done|].
    destruct (Z.gtb_spec 0 (char_val (tolower cf))); [done|]. lia.
  - apply nul_free_cons in Hs as [Hcs Hs]. rewrite read_cons_0.
    pose proof (tolower_not_nul cs Hcs) as Hls.
    destruct (Z.ltb_spec (char_val (tolower cs)) (char_val (tolower cf))) as [Hlt|Hge].
    { split; [done|]. intros [= E _]. rewrite E in Hlt. lia. }
    destruct (Z.gtb_spec (char_val (tolower cs)) (char_val (tolower cf))) as [Hgt|Hle].
    { split; [done|]. intros [= E _]. rewrite E in Hgt. lia. }
    assert (E : tolower cs = tolower cf) by (apply char_val_inj; lia).
    rewrite Hls. simpl drop. rewrite !drop_0.
    specialize (IH s find Hs ltac:(lia)). cbn [firstn]. rewrite !fmap_cons, E.
    split.
    + intros H0%IH. by rewrite H0.
    + intros [= H0]. by apply IH.
Qed.

Lemma occurs_at_length h w p : occurs_at h w p → length w ≤ length h - p.
Proof.
  unfold occurs_at. intros H%(f_equal length).
  rewrite !length_fmap, length_take, length_drop in H. lia.
Qed.

Lemma occurs_at_cons c h w p : occurs_at (c :: h) w (S p) ↔ occurs_at h w p.
Proof. done. Qed.

Lemma occurs_at_drop k h w q : occurs_at (drop k h) w q ↔ occurs_at h w (k + q).
Proof. unfold occurs_at. by rewrite drop_drop. Qed.

(** The scan returns the first occurrence. *)
Lemma strncasestr_scan_spec c0 find n' :
  is_nul c0 = false → n' ≤ strlen find →
  ∀ s off, nul_free s →
    match strncasestr_scan s find (tolower c0) (S n') off with
    | Some r => ∃ k, r = off + k ∧ occurs_at s (c0 :: take n' find) k
                     ∧ ∀ j, j < k → ¬ occurs_at s (c0 :: take n' find) j
    | None => ∀ j, ¬ occurs_at s (c0 :: take n' find) j
    end.
Proof.
  intros Hc0 Hn'.
  pose proof (strlen_le_length find) as Hfl.
  assert (Hlw : length (c0 :: take n' find) = S n').
  { simpl. rewrite length_take. lia. }
  assert (Hhead : ∀ sc s', nul_free s' →
    occurs_at (sc :: s') (c0 :: take n' find) 0
    ↔ tolower sc = tolower c0
      ∧ (1 < S n' → BLI_strncasecmp s' find (S n' - 1) = 0%Z)).
  { intros sc s' Hs'. unfold occurs_at. rewrite Hlw, drop_0.
    cbn [firstn]. rewrite !fmap_cons.
    replace (S n' - 1) with n' by lia.
    pose proof (BLI_strncasecmp_zero n' s' find Hs' Hn') as Hz.
    split.
    - intros [= E1 E2]. split; [done|]. intros _. by apply Hz.
    - intros [E1 E2]. rewrite E1. f_equal.
      destruct n' as [|n'']; [done|]. apply Hz, E2. lia. }
  induction s as [|sc s IH]; intros off Hs.
  - simpl. intros j Ho%occurs_at_length. rewrite Hlw in Ho. simpl in Ho. lia.
  - apply nul_free_cons in Hs as [Hsc Hs].
    cbn [strncasestr_scan]. rewrite Hsc.
    specialize (IH (S off) Hs). specialize (Hhead sc s Hs).
    assert (Hnext :
      ¬ occurs_at (sc :: s) (c0 :: take n' find) 0 →
      match strncasestr_scan s find (tolower c0) (S n') (S off) with
      | Some r => ∃ k, r = off + k ∧ occurs_at (sc :: s) (c0 :: take n' find) k
                       ∧ ∀ j, j < k → ¬ occurs_at (sc :: s) (c0 :: take n' find) j
      | None => ∀ j, ¬ occurs_at (sc :: s) (c0 :: take n' find) j
      end).
    { intros Hno. destruct (strncasestr_scan s find _ _ _) as [r|].
      - destruct IH as (k & -> & Hk & Hfirst). exists (S k).
        split; [lia|]. split; [by apply occurs_at_cons|].
        intros [|j] Hj; [done|]. rewrite occurs_at_cons. apply Hfirst. lia.
      - intros [|j]; [done|]. rewrite occurs_at_cons. apply IH. }
    destruct (Ascii.eqb_spec (tolower sc) (tolower c0)) as [E|E].
    + case_bool_decide as Hlen.
      * destruct (Z.eqb_spec (BLI_strncasecmp s find (S n' - 1)) 0) as [Ez|Ez].
        -- exists 0. split; [lia|]. split; [by apply Hhead | intros j; lia].
        -- apply Hnext. intros [_ Hz]%Hhead. by apply Ez, Hz.
      * exists 0. split; [lia|]. split; [|intros j; lia].
        apply Hhead. split; [done | intros ?; lia].
    + apply Hnext. by intros [? _]%Hhead.
Qed.

Lemma BLI_strncasestr_spec h needle n :
  nul_free h → 1 ≤ n ≤ strlen needle →
  match BLI_strncasestr h needle n with
  | Some m => occurs_at h (take n needle) m
              ∧ ∀ j, j < m → ¬ occurs_at h (take n needle) j
  | None => ∀ j, ¬ occurs_at h (take n needle) j
  end.
Proof.
  intros Hh [Hn1 Hn2]. unfold BLI_strncasestr.
  destruct needle as [|c0 find]; [simpl in Hn2; lia|].
  rewrite read_cons_0. simpl in Hn2.
  destruct (is_nul c0) eqn:Hc0; [lia|]. simpl negb. cbn iota.
  destruct n as [|n']; [lia|]. simpl drop. rewrite drop_0. cbn [firstn].
  pose proof (strncasestr_scan_spec c0 find n' Hc0 ltac:(lia) h 0 Hh) as Hspec.
  destruct (strncasestr_scan h find (tolower c0) (S n') 0) as [r|]; [|done].
  by destruct Hspec as (k & -> & Hk & Hfirst).
Qed.

Lemma word_boundary_test h m :
  bool_decide (m = 0) || Ascii.eqb (read h (m - 1)) SPACE || ispunct (read h (m - 1)) = true
  ↔ word_boundary h m.
Proof.
  unfold word_boundary.
  rewrite !orb_true_iff, bool_decide_eq_true, Ascii.eqb_eq. tauto.
Qed.

(** The recursion of the code: it always returns, and it returns true
    exactly when some occurrence is accepted. *)
Lemma has_word_prefix_rec_spec needle n :
  1 ≤ n ≤ strlen needle →
  ∀ fuel h, nul_free h → length h < fuel →
    ∃ b, has_word_prefix_rec fuel h needle n = Some b
         ∧ (b = true ↔ ∃ p, accepted_at h (take n needle) p).
Proof.
  intros Hn.
  assert (Hlw : length (take n needle) = n).
  { rewrite length_take. pose proof (strlen_le_length needle). lia. }
  induction fuel as [|fuel IH]; intros h Hh Hfuel; [lia|].
  cbn [has_word_prefix_rec].
  pose proof (BLI_strncasestr_spec h needle n Hh Hn) as Hspec.
  destruct (BLI_strncasestr h needle n) as [m|].
  2:{ exists false. split; [done|]. split; [done|].
      intros (p & Ho & _). by apply Hspec in Ho. }
  destruct Hspec as [Hm Hfirst].
  pose proof (occurs_at_length _ _ _ Hm) as Hml. rewrite Hlw in Hml.
  destruct (_ || _ || _) eqn:Hb.
  { exists true. split; [done|]. split; [|done]. intros _.
    exists m. split; [done|]. left. by apply word_boundary_test. }
  assert (Hnb : ¬ word_boundary h m).
  { intros Hwb%word_boundary_test. congruence. }
  assert (Hm0 : m ≠ 0) by (intros ->; apply Hnb; by left).
  destruct (IH (drop (m + 1) h)) as (b & Hrec & Hiff).
  { by apply nul_free_drop. }
  { rewrite length_drop. lia. }
  exists b. split; [done|]. rewrite Hiff. clear Hiff Hrec IH.
  unfold accepted_at, word_boundary in *. split.
  - intros (q & Hq & Hacc). exists (m + 1 + q).
    apply occurs_at_drop in Hq. split; [done|].
    destruct Hacc as [[->|Hch]|[Hq1 Hprev]].
    + right. split; [lia|]. by replace (m + 1 + 0 - 1) with m by lia.
    + destruct q as [|q].
      * right. split; [lia|]. by replace (m + 1 + 0 - 1) with m by lia.
      * left. right. rewrite !read_drop in Hch.
        by replace (m + 1 + S q - 1) with (m + 1 + (S q - 1)) by lia.
    + right. split; [lia|]. apply occurs_at_drop in Hprev.
      by replace (m + 1 + q - 1) with (m + 1 + (q - 1)) by lia.
  - intros (p & Hp & Hacc).
    assert (Hpm : m < p).
    { destruct (decide (p < m)) as [Hlt|Hge]; [by apply Hfirst in Hlt|].
      destruct (decide (p = m)) as [->|]; [|lia].
      destruct Hacc as [Hwb|[_ Hprev]]; [done|].
      exfalso. apply (Hfirst (m - 1)); [lia | done]. }
    exists (p - (m + 1)).
    assert (Hpq : m + 1 + (p - (m + 1)) = p) by lia.
    split; [apply occurs_at_drop; by rewrite Hpq|].
    destruct (decide (p = m + 1)) as [->|Hne].
    { left. left. lia. }
    destruct Hacc as [[->|Hch]|[_ Hprev]]; [lia | |].
    + left. right. rewrite !read_drop.
      by replace (m + 1 + (p - (m + 1) - 1)) with (p - 1) by lia.
    + right. split; [lia|]. apply occurs_at_drop.
      by replace (m + 1 + (p - (m + 1) - 1)) with (p - 1) by lia.
Qed.

(** A length of [0]: the empty prefix occurs at the start of every
    haystack, but the code then searches for the first byte of the needle,
    and [BLI_string_has_word_prefix("b", "a", 0)] is false. *)
Lemma BLI_string_has_word_prefix_zero_length :
  ¬ ∀ haystack needle n,
      BLI_string_has_word_prefix haystack needle n = Some true
      ↔ word_prefix_occurrence haystack needle n.
Proof.
  intros H. specialize (H (lit "b") (lit "a") 0).
  assert (Hocc : word_prefix_occurrence (lit "b") (lit "a") 0).
  { exists 0. split; [reflexivity | by left]. }
  apply H in Hocc. discriminate Hocc.
Qed.

(** The recursion restarts at [match + 1] and takes the start of what is
    left for a word boundary: in ["xaa"] no ["a"] begins at a word boundary,
    yet the second one is accepted after the first one was refused. *)
Lemma BLI_string_has_word_prefix_adjacent :
  BLI_string_has_word_prefix (lit "xaa") (lit "a") 1 = Some true
  ∧ ¬ word_prefix_occurrence (lit "xaa") (lit "a") 1.
Proof.
  split; [reflexivity|].
  intros (p & Ho & Hwb). pose proof (occurs_at_length _ _ _ Ho) as Hl.
  simpl in Hl. unfold occurs_at, word_boundary in *.
  destruct p as [|[|[|p]]]; simpl in *; [discriminate Ho | | | lia].
  - destruct Hwb as [?|[?|?]]; discriminate.
  - destruct Hwb as [?|[?|?]]; discriminate.
Qed.

(** A length above [strlen(needle)] makes [BLI_strncasecmp] compare the
    terminator of the needle too: the needle is then found only at the end
    of the haystack. *)
Lemma BLI_string_has_word_prefix_past_needle :
  BLI_string_has_word_prefix (lit "fox a") (lit "fox") 4 = Some false
  ∧ BLI_string_has_word_prefix (lit "a fox") (lit "fox") 4 = Some true
  ∧ word_prefix_occurrence (lit "fox a") (lit "fox") 4.
Proof.
  split_and!; [reflexivity | reflexivity |].
  exists 0. split; [reflexivity | by left].
Qed.

(** What the code gets right: for a haystack text and
    [1 <= n <= strlen(needle)], [BLI_string_has_word_prefix] returns; it
    returns true whenever some occurrence, case apart, of the first [n]
    bytes of the needle begins at a word boundary; and when it returns true
    and no occurrence starts one byte after another occurrence, some
    occurrence begins at a word boundary.  It is true for
    ["the quick, fox"] and false for ["thefox"], with the needle ["fox"]
    and [n = 3]. *)
Lemma BLI_string_has_word_prefix_boundary (haystack needle : list char) (n : nat) :
  (nul_free haystack → 1 ≤ n ≤ strlen needle →
   ∃ b, BLI_string_has_word_prefix haystack needle n = Some b
        ∧ (word_prefix_occurrence haystack needle n → b = true)
        ∧ ((∀ p, ¬ (occurs_at (cstr haystack) (take n (cstr needle)) p
                    ∧ occurs_at (cstr haystack) (take n (cstr needle)) (S p))) →
           b = true → word_prefix_occurrence haystack needle n))
  ∧ BLI_string_has_word_prefix (lit "the quick, fox") (lit "fox") 3 = Some true
  ∧ BLI_string_has_word_prefix (lit "thefox") (lit "fox") 3 = Some false.
Proof.
  split; [|by split].
  intros Hh Hn. unfold word_prefix_occurrence.
  rewrite cstr_nul_free_id by done.
  rewrite <- take_strlen_cstr by lia.
  destruct (has_word_prefix_rec_spec needle n Hn (S (length haystack)) haystack Hh)
    as (b & Hb & Hiff); [lia|].
  exists b. split; [done|]. split.
  - intros (p & Ho & Hwb). apply Hiff. exists p. split; [done | by left].
  - intros Hadj [p [Ho [Hwb|[Hp Hprev]]]]%Hiff; [by exists p|].
    exfalso. apply (Hadj (p - 1)). split; [done|].
    by replace (S (p - 1)) with p by lia.
Qed.

Lemma BLI_string_has_word_prefix_boundary_witness :
  ∃ b, BLI_string_has_word_prefix (lit "a fox, the Fox") (lit "foxes") 3 = Some b
       ∧ (word_prefix_occurrence (lit "a fox, the Fox") (lit "foxes") 3 → b = true).
Proof.
  destruct (proj1 (BLI_string_has_word_prefix_boundary
                     (lit "a fox, the Fox") (lit "foxes") 3))
    as (b & Hb & Hocc & _).
  - unfold nul_free. repeat constructor.
  - simpl. lia.
  - exists b. split; [exact Hb | exact Hocc].
Defined.

(** C7: the code does not do what the claim says.  After an occurrence that
    is not at a word boundary the search restarts at [match + 1], and the
    test [match == haystack] then takes the start of what is left for the
    start of the string.  In ["hello"] both occurrences of ["l"] follow a
    letter and none begins at a word boundary, yet
    [BLI_string_has_word_prefix("hello", "l", 1)] is true; so it is for
    ["xaa"] and ["a"]. *)
Theorem BLI_string_has_word_prefix_slip :
  BLI_string_has_word_prefix (lit "hello") (lit "l") 1 = Some true
  ∧ ¬ word_prefix_occurrence (lit "hello") (lit "l") 1
  ∧ BLI_string_has_word_prefix (lit "xaa") (lit "a") 1 = Some true
  ∧ ¬ word_prefix_occurrence (lit "xaa") (lit "a") 1.
Proof.
  split; [reflexivity|]. split; [|exact BLI_string_has_word_prefix_adjacent].
  intros (p & Ho & Hwb). pose proof (occurs_at_length _ _ _ Ho) as Hl.
  simpl in Hl. unfold occurs_at, word_boundary in *.
  destruct p as [|[|[|[|[|p]]]]]; simpl in *;
    [discriminate Ho | discriminate Ho | | | discriminate Ho | lia].
  - destruct Hwb as [?|[?|?]]; discriminate.
  - destruct Hwb as [?|[?|?]]; discriminate.
Qed.

(** * Further properties *)

(** ** Lengths and copies *)

(** X1: [BLI_strnlen(s, maxlen)] is [strlen(s)] when that is below [maxlen]
    and [maxlen] otherwise. *)
Theorem BLI_strnlen_min (s : list char) (maxlen : nat) :
  BLI_strnlen s maxlen = min (strlen s) maxlen.
Proof. apply BLI_strnlen_spec. Qed.

Lemma bytes_cstr_nul src : bytes src (strlen src + 1) = cstr src ++ [NUL].
Proof.
  unfold cstr. induction src as [|c src IH]; [done|].
  simpl. destruct (is_nul c) eqn:Hc.
  - apply is_nul_true in Hc. by subst c.
  - simpl. unfold bytes in *. simpl. rewrite <- fmap_S_seq, <- list_fmap_compose.
    f_equal. exact IH.
Qed.

Lemma memcpy_Some dst src n :
  n ≤ length dst → memcpy dst src n = Some (bytes src n ++ drop n dst).
Proof. intros. unfold memcpy. by rewrite decide_True. Qed.

Lemma length_bytes src n : length (bytes src n) = n.
Proof. unfold bytes. by rewrite length_fmap, length_seq. Qed.

(** X2: [BLI_strcpy_rlen] does not truncate: in a destination of more than
    [strlen(src)] bytes it leaves the source text and its terminator, changes
    nothing after them and returns [strlen(src)]; in a smaller destination the
    copy runs past the end. *)
Theorem BLI_strcpy_rlen_copies (dst src : list char) :
  BLI_strcpy_rlen dst src
  = if decide (strlen src < length dst)
    then Some (cstr src ++ NUL :: drop (S (strlen src)) dst, strlen src)
    else None.
Proof.
  unfold BLI_strcpy_rlen, memcpy. case_decide as Hlt.
  - rewrite decide_True by lia. simpl. rewrite bytes_cstr_nul, <- app_assoc.
    simpl. by rewrite Nat.add_1_r.
  - rewrite decide_False by lia. done.
Qed.

(** X3: [BLI_strdupn] returns a block of exactly [len + 1] bytes, the first
    [len] bytes of the string and a terminator, when the string has at least
    [len] bytes; [BLI_strdup] returns the text and its terminator. *)
Theorem BLI_strdupn_copies (str : list char) (len : nat) :
  len ≤ strlen str →
  BLI_strdupn str len = Some (take len str ++ [NUL])
  ∧ BLI_strdup str = Some (cstr str ++ [NUL]).
Proof.
  assert (Hdup : ∀ n, n ≤ strlen str → BLI_strdupn str n = Some (take n str ++ [NUL])).
  { intros n Hn. pose proof (strlen_le_length str).
    unfold BLI_strdupn, MEM_mallocN.
    rewrite memcpy_Some by (rewrite length_replicate; lia). simpl.
    rewrite bytes_take by lia. rewrite drop_replicate.
    replace (n + 1 - n) with 1 by lia. simpl.
    pose proof (store_after (take n str) "255"%char [] NUL) as Hs.
    rewrite length_take in Hs. replace (n `min` length str) with n in Hs by lia.
    exact Hs. }
  intros Hlen. split; [by apply Hdup|].
  unfold BLI_strdup. by rewrite Hdup.
Qed.

Lemma BLI_strdupn_copies_witness :
  BLI_strdupn (lit "abcdef") 3 = Some (lit "abc" ++ [NUL]).
Proof.
  apply (BLI_strdupn_copies (lit "abcdef") 3). simpl. lia.
Defined.

(** X4: [BLI_strdupcat] returns a block of exactly
    [strlen(str1) + strlen(str2) + 1] bytes: the first text, the second text
    and one terminator. *)
Theorem BLI_strdupcat_concat (str1 str2 : list char) :
  BLI_strdupcat str1 str2 = Some (cstr str1 ++ cstr str2 ++ [NUL]).
Proof.
  unfold BLI_strdupcat, MEM_mallocN, memcpy_at.
  pose proof (strlen_le_length str1).
  rewrite memcpy_Some by (rewrite length_replicate; lia). simpl.
  rewrite bytes_take by lia. fold (cstr str1).
  rewrite drop_replicate.
  replace (strlen str1 + (strlen str2 + 1) - strlen str1) with (strlen str2 + 1) by lia.
  rewrite decide_True by (rewrite length_app, length_cstr; lia).
  rewrite (drop_app_length' (cstr str1)), (take_app_length' (cstr str1))
    by (by rewrite length_cstr).
  rewrite memcpy_Some by (rewrite length_replicate; lia). simpl.
  rewrite bytes_cstr_nul, drop_replicate.
  replace (strlen str2 + 1 - (strlen str2 + 1)) with 0 by lia. simpl.
  by rewrite app_nil_r.
Qed.

(** X5: in a destination that has one byte more than [dst_maxncpy],
    [BLI_str_escape] succeeds for every source: it returns a length of at
    most [dst_maxncpy], which is the length of the string it leaves, and it
    changes no byte after the terminator. *)
Theorem BLI_str_escape_one_more_byte (dst src : list char) (dst_maxncpy : nat) :
  1 ≤ dst_maxncpy → dst_maxncpy < length dst →
  ∃ dst' n,
    BLI_str_escape dst src dst_maxncpy = Some (dst', n)
    ∧ n ≤ dst_maxncpy
    ∧ strlen dst' = n
    ∧ ∀ i, n < i → dst' !! i = dst !! i.
Proof. apply BLI_str_escape_bound. Qed.

Lemma BLI_str_escape_one_more_byte_witness :
  ∃ dst' n, BLI_str_escape (lit "ZZZZ") (lit "abcdef") 3 = Some (dst', n) ∧ n ≤ 3.
Proof.
  destruct (BLI_str_escape_one_more_byte (lit "ZZZZ") (lit "abcdef") 3)
    as (dst' & n & H1 & H2 & _); [lia | simpl; lia |].
  exists dst', n. auto.
Defined.

(** X6: with room for [2 * strlen(src) + 1] bytes nothing is truncated, and
    the length [BLI_str_escape] returns is at least [strlen(src)] and at most
    [2 * strlen(src)]. *)
Theorem BLI_str_escape_length (dst src : list char) (dst_maxncpy : nat) :
  2 * strlen src + 1 ≤ dst_maxncpy → dst_maxncpy ≤ length dst →
  ∃ dst' n,
    BLI_str_escape dst src dst_maxncpy = Some (dst', n)
    ∧ cstr dst' = escape_text (cstr src)
    ∧ strlen src ≤ n ≤ 2 * strlen src.
Proof.
  intros Hroom Hcap. rewrite BLI_str_escape_fits by done.
  eexists _, _. split; [done|].
  pose proof (length_escape_text (cstr src)) as Hlen. rewrite length_cstr in Hlen.
  split; [|done].
  apply cstr_app_nul, nul_free_escape_text, cstr_nul_free.
Qed.

Lemma BLI_str_escape_length_witness :
  ∃ dst' n, BLI_str_escape (lit "ZZZZZ") (lit "a" ++ [TAB]) 5 = Some (dst', n)
            ∧ 2 ≤ n ≤ 4.
Proof.
  destruct (BLI_str_escape_length (lit "ZZZZZ") (lit "a" ++ [TAB]) 5)
    as (dst' & n & H1 & _ & H2); [simpl; lia | simpl; lia |].
  exists dst', n. split; [exact H1 | exact H2].
Defined.

(** ** Searching *)

(** X7: for a haystack text and [1 <= len <= strlen(find)], [BLI_strncasestr]
    returns the offset of the first occurrence, case apart, of the first
    [len] bytes of [find], and [NULL] when there is none. *)
Theorem BLI_strncasestr_first_occurrence (s find : list char) (len : nat) :
  nul_free s → 1 ≤ len ≤ strlen find →
  match BLI_strncasestr s find len with
  | Some m => occurs_at s (take len find) m
              ∧ ∀ j, j < m → ¬ occurs_at s (take len find) j
  | None => ∀ j, ¬ occurs_at s (take len find) j
  end.
Proof. apply BLI_strncasestr_spec. Qed.

Lemma BLI_strncasestr_first_occurrence_witness :
  occurs_at (lit "a Fox, a fox") (take 2 (lit "fox")) 2.
Proof.
  pose proof (BLI_strncasestr_first_occurrence (lit "a Fox, a fox") (lit "fox") 2) as H.
  apply H; [unfold nul_free; repeat constructor | simpl; lia].
Defined.

Lemma strncasestr_scan_len_0 s : ∀ find c off,
  strncasestr_scan s find c 0 off = strncasestr_scan s find c 1 off.
Proof.
  induction s as [|sc s IH]; intros find c off; [done|].
  cbn [strncasestr_scan]. rewrite !IH.
  rewrite !bool_decide_eq_false_2 by lia. done.
Qed.

(** X8: the edge cases of [BLI_strncasestr]: a length of [0] gives the same
    result as a length of [1], the search for the first byte of [find]; and
    an empty [find] is found at the start of every string, whatever the
    length. *)
Theorem BLI_strncasestr_short_lengths (s find : list char) :
  BLI_strncasestr s find 0 = BLI_strncasestr s find 1
  ∧ (is_nul (read find 0) = true → ∀ len, BLI_strncasestr s find len = Some 0).
Proof.
  split.
  - unfold BLI_strncasestr. destruct (negb _); [|done]. apply strncasestr_scan_len_0.
  - intros Hnul len. unfold BLI_strncasestr. by rewrite Hnul.
Qed.

Lemma BLI_strncasestr_short_lengths_witness :
  BLI_strncasestr (lit "abc") [] 7 = Some 0.
Proof.
  apply (BLI_strncasestr_short_lengths (lit "abc") []). reflexivity.
Defined.

Lemma strcasestr_scan_strncasestr s : ∀ find c off,
  strcasestr_scan s find c (strlen find) off
  = strncasestr_scan s find c (S (strlen find)) off.
Proof.
  induction s as [|sc s IH]; intros find c off; [done|].
  cbn [strcasestr_scan strncasestr_scan]. rewrite !IH.
  replace (S (strlen find) - 1) with (strlen find) by lia.
  destruct (strlen find) as [|n] eqn:Hn.
  - rewrite bool_decide_eq_false_2 by lia. done.
  - rewrite bool_decide_eq_true_2 by lia. done.
Qed.

(** X9: [BLI_strcasestr(s, find)] is [BLI_strncasestr(s, find, strlen(find))]
    for all strings; so for a haystack text and a [find] that is not empty it
    is the offset of the first occurrence of [find], case apart, and [NULL]
    when there is none. *)
Theorem BLI_strcasestr_first_occurrence (s find : list char) :
  BLI_strcasestr s find = BLI_strncasestr s find (strlen find)
  ∧ (nul_free s → 1 ≤ strlen find →
     match BLI_strcasestr s find with
     | Some m => occurs_at s (cstr find) m ∧ ∀ j, j < m → ¬ occurs_at s (cstr find) j
     | None => ∀ j, ¬ occurs_at s (cstr find) j
     end).
Proof.
  assert (Heq : BLI_strcasestr s find = BLI_strncasestr s find (strlen find)).
  { unfold BLI_strcasestr, BLI_strncasestr.
    destruct find as [|c find]; [done|]. rewrite read_cons_0.
    destruct (is_nul c) eqn:Hc; [done|]. simpl negb. cbn iota.
    simpl drop. rewrite drop_0. simpl strlen. rewrite Hc.
    apply strcasestr_scan_strncasestr. }
  split; [done|]. intros Hs Hlen. rewrite Heq. unfold cstr.
  apply BLI_strncasestr_spec; [done | lia].
Qed.

Lemma BLI_strcasestr_first_occurrence_witness :
  occurs_at (lit "The FOX") (cstr (lit "fox")) 4.
Proof.
  pose proof (proj2 (BLI_strcasestr_first_occurrence (lit "The FOX") (lit "fox"))) as H.
  apply H; [unfold nul_free; repeat constructor | simpl; lia].
Defined.

(** X10: for a haystack text and [1 <= needle_len <= strlen(needle)],
    [BLI_string_has_word_prefix] returns, and it returns true exactly when
    some occurrence, case apart, of the first [needle_len] bytes of the
    needle begins at a word boundary or one byte after another occurrence. *)
Theorem BLI_string_has_word_prefix_accepted (haystack needle : list char) (needle_len : nat) :
  nul_free haystack → 1 ≤ needle_len ≤ strlen needle →
  ∃ b, BLI_string_has_word_prefix haystack needle needle_len = Some b
       ∧ (b = true ↔ ∃ p, accepted_at haystack (take needle_len needle) p).
Proof.
  intros Hh Hn. apply has_word_prefix_rec_spec; [done | done | lia].
Qed.

Lemma BLI_string_has_word_prefix_accepted_witness :
  ∃ b, BLI_string_has_word_prefix (lit "xaa") (lit "a") 1 = Some b
       ∧ (b = true ↔ ∃ p, accepted_at (lit "xaa") (take 1 (lit "a")) p).
Proof.
  apply (BLI_string_has_word_prefix_accepted (lit "xaa") (lit "a") 1).
  - unfold nul_free. repeat constructor.
  - simpl. lia.
Defined.

(** ** Replacing *)

(** X11: for texts [str], [substr_old] and [substr_new] with [substr_old]
    not empty, whatever the length of [substr_new], [BLI_str_replaceN]
    returns a string and it is the result of the naive replace-all
    reference; when [substr_old] does not occur in [str] the block returned
    is a copy of [str]. *)
Theorem BLI_str_replaceN_reference (str substr_old substr_new : list char) :
  nul_free str → nul_free substr_old → nul_free substr_new →
  substr_old ≠ [] →
  ∃ r,
    BLI_str_replaceN str substr_old substr_new = Some r
    ∧ cstr r = naive_replace_all str substr_old substr_new
    ∧ (strstr str substr_old = None → r = str ++ [NUL]).
Proof.
  intros Hs Hold Hnew Hne.
  assert (Hlen1 : 1 ≤ length substr_old).
  { destruct substr_old; [done | simpl; lia]. }
  assert (Hnf : nul_free (naive_replace_all str substr_old substr_new))
    by by apply nul_free_naive.
  assert (Hf : is_nul (read substr_old 0) = false).
  { destruct substr_old; [done|]. by apply nul_free_cons in Hold as [? _]. }
  exists (naive_replace_all str substr_old substr_new ++ [NUL]).
  split_and!.
  - unfold BLI_str_replaceN.
    rewrite Hf, strlen_nul_free by done.
    destruct (replace_loop_spec substr_old substr_new Hold Hlen1 Hnew
                (S (length str)) None str Hs ltac:(lia))
      as (ds' & str' & Hloop & Hs' & Hres).
    rewrite Hloop. simpl. destruct ds' as [d'|].
    + unfold BLI_dynstr_get_cstring, BLI_dynstr_append.
      rewrite cstr_nul_free_id by done. by rewrite Hres.
    + destruct Hres as (_ & -> & ->). by apply BLI_strdup_spec.
  - by apply cstr_app_nul.
  - intros Hmiss. f_equal. by apply (strstr_from_None substr_old substr_new Hold str 0).
Qed.

Lemma BLI_str_replaceN_reference_witness :
  ∃ r, BLI_str_replaceN (lit "a-b-c") (lit "-") (lit "::") = Some r
       ∧ cstr r = naive_replace_all (lit "a-b-c") (lit "-") (lit "::")
       ∧ (strstr (lit "a-b-c") (lit "-") = None → r = lit "a-b-c" ++ [NUL]).
Proof.
  apply (BLI_str_replaceN_reference (lit "a-b-c") (lit "-") (lit "::")).
  - unfold nul_free. repeat constructor.
  - unfold nul_free. repeat constructor.
  - unfold nul_free. repeat constructor.
  - discriminate.
Defined.

(** X12: [BLI_str_replace_char] changes exactly the bytes of the text that
    equal [src], into [dst], and nothing at or after the terminator; with a
    [dst] that is not zero the length of the string is kept, and with
    [dst] different from [src] no [src] is left in it. *)
Theorem BLI_str_replace_char_all (str : list char) (src dst : char) :
  BLI_str_replace_char str src dst
  = ((λ c, if Ascii.eqb c src then dst else c) <$> cstr str) ++ drop (strlen str) str
  ∧ (is_nul dst = false → strlen (BLI_str_replace_char str src dst) = strlen str)
  ∧ (src ≠ dst → src ∉ take (strlen str) (BLI_str_replace_char str src dst)).
Proof.
  split_and!.
  - unfold cstr. induction str as [|c str IH]; [done|].
    cbn [BLI_str_replace_char strlen]. destruct (is_nul c); [done|].
    cbn [firstn drop]. rewrite fmap_cons. cbn [app]. f_equal. exact IH.
  - intros Hdst. induction str as [|c str IH]; [done|]. simpl.
    destruct (is_nul c) eqn:Hc; simpl; [by rewrite Hc|].
    destruct (Ascii.eqb c src); rewrite ?Hdst, ?Hc; by rewrite IH.
  - intros Hne. induction str as [|c str IH]; simpl; [by apply not_elem_of_nil|].
    destruct (is_nul c) eqn:Hc; simpl; [by apply not_elem_of_nil|].
    apply not_elem_of_cons. split; [|done].
    destruct (Ascii.eqb_spec c src); congruence.
Qed.

Lemma BLI_str_replace_char_all_witness :
  strlen (BLI_str_replace_char (lit "a/b/c") "/" "-") = strlen (lit "a/b/c")
  ∧ "/"%char ∉ take (strlen (lit "a/b/c")) (BLI_str_replace_char (lit "a/b/c") "/" "-").
Proof.
  destruct (BLI_str_replace_char_all (lit "a/b/c") "/" "-") as (_ & H1 & H2).
  split; [apply H1; reflexivity | apply H2; discriminate].
Defined.

(** ** Comparisons *)

Lemma BLI_strcasecmp_unfold s1 s2 :
  BLI_strcasecmp s1 s2
  = let c1 := tolower (read s1 0) in
    let c2 := tolower (read s2 0) in
    if (char_val c1 <? char_val c2)%Z then (-1)%Z
    else if (char_val c1 >? char_val c2)%Z then 1%Z
    else if is_nul c1 then 0%Z
    else BLI_strcasecmp (drop 1 s1) (drop 1 s2).
Proof.
  destruct s1 as [|c s1]; [|done].
  cbn -[tolower char_val Z.ltb Z.gtb is_nul read]. rewrite read_nil.
  change (tolower NUL) with NUL. change (is_nul NUL) with true.
  by repeat destruct (_ : bool).
Qed.

Lemma cstr_unfold s :
  cstr s = if is_nul (read s 0) then [] else read s 0 :: cstr (drop 1 s).
Proof.
  destruct s as [|c s]; [done|]. rewrite read_cons_0. simpl drop. rewrite drop_0.
  destruct (is_nul c) eqn:Hc; [by apply cstr_cons_nul | by apply cstr_cons].
Qed.

Lemma BLI_strcasecmp_zero s1 : ∀ s2,
  BLI_strcasecmp s1 s2 = 0%Z ↔ tolower <$> cstr s1 = tolower <$> cstr s2.
Proof.
  assert (Hstep : ∀ s1 s2,
    (BLI_strcasecmp (drop 1 s1) (drop 1 s2) = 0%Z
     ↔ tolower <$> cstr (drop 1 s1) = tolower <$> cstr (drop 1 s2)) →
    (BLI_strcasecmp s1 s2 = 0%Z ↔ tolower <$> cstr s1 = tolower <$> cstr s2)).
  { intros t1 t2 IH. rewrite BLI_strcasecmp_unfold. cbv zeta.
    rewrite (cstr_unfold t1), (cstr_unfold t2).
    rewrite <- (tolower_nul_iff (read t1 0)), <- (tolower_nul_iff (read t2 0)).
    destruct (Z.ltb_spec (char_val (tolower (read t1 0))) (char_val (tolower (read t2 0))))
      as [Hlt|Hge].
    { split; [done|].
      destruct (is_nul (tolower (read t1 0))) eqn:H1,
               (is_nul (tolower (read t2 0))) eqn:H2;
        rewrite ?fmap_cons; intros E; try discriminate E.
      - apply is_nul_true in H1, H2. rewrite H1, H2 in Hlt. lia.
      - injection E as E _. rewrite E in Hlt. lia. }
    destruct (Z.gtb_spec (char_val (tolower (read t1 0))) (char_val (tolower (read t2 0))))
      as [Hgt|Hle].
    { split; [done|].
      destruct (is_nul (tolower (read t1 0))) eqn:H1,
               (is_nul (tolower (read t2 0))) eqn:H2;
        rewrite ?fmap_cons; intros E; try discriminate E.
      - apply is_nul_true in H1, H2. rewrite H1, H2 in Hgt. lia.
      - injection E as E _. rewrite E in Hgt. lia. }
    assert (E : tolower (read t1 0) = tolower (read t2 0)) by (apply char_val_inj; lia).
    rewrite <- E. destruct (is_nul (tolower (read t1 0))); [done|].
    rewrite !fmap_cons, E. rewrite IH.
    split; [by intros -> | by intros [= ->]]. }
  induction s1 as [|c s1 IH]; intros s2.
  - apply Hstep. simpl drop. rewrite BLI_strcasecmp_unfold. cbv zeta.
    rewrite read_nil. change (tolower NUL) with NUL. change (char_val NUL) with 0%Z.
    rewrite (cstr_unfold (drop 1 s2)), <- (tolower_nul_iff (read (drop 1 s2) 0)).
    destruct (Z.ltb_spec 0 (char_val (tolower (read (drop 1 s2) 0)))) as [Hlt|Hge].
    { split; [done|]. destruct (is_nul _) eqn:H2; [|done].
      apply is_nul_true in H2. rewrite H2 in Hlt. done. }
    destruct (Z.gtb_spec 0 (char_val (tolower (read (drop 1 s2) 0)))) as [Hgt|Hle].
    { split; [done|]. destruct (is_nul _) eqn:H2; [|done].
      apply is_nul_true in H2. rewrite H2 in Hgt. done. }
    assert (E : tolower (read (drop 1 s2) 0) = NUL) by (apply char_val_inj; change (char_val NUL) with 0%Z; lia).
    rewrite E. done.
  - apply Hstep. simpl drop at 1 3. rewrite drop_0. apply IH.
Qed.

Lemma BLI_strcasecmp_antisym s1 : ∀ s2,
  BLI_strcasecmp s2 s1 = (- BLI_strcasecmp s1 s2)%Z.
Proof.
  assert (Hstep : ∀ s1 s2,
    BLI_strcasecmp (drop 1 s2) (drop 1 s1) = (- BLI_strcasecmp (drop 1 s1) (drop 1 s2))%Z →
    BLI_strcasecmp s2 s1 = (- BLI_strcasecmp s1 s2)%Z).
  { intros t1 t2 IH.
    rewrite (BLI_strcasecmp_unfold t2 t1), (BLI_strcasecmp_unfold t1 t2). cbv zeta.
    destruct (Z.ltb_spec (char_val (tolower (read t1 0))) (char_val (tolower (read t2 0)))),
             (Z.gtb_spec (char_val (tolower (read t1 0))) (char_val (tolower (read t2 0)))),
             (Z.ltb_spec (char_val (tolower (read t2 0))) (char_val (tolower (read t1 0)))),
             (Z.gtb_spec (char_val (tolower (read t2 0))) (char_val (tolower (read t1 0))));
      try lia; try done.
    assert (E : tolower (read t1 0) = tolower (read t2 0)) by (apply char_val_inj; lia).
    rewrite E. by destruct (is_nul _). }
  induction s1 as [|c s1 IH]; intros s2.
  - apply Hstep. simpl drop.
    rewrite (BLI_strcasecmp_unfold (drop 1 s2) []), (BLI_strcasecmp_unfold [] (drop 1 s2)).
    cbv zeta. rewrite read_nil. change (tolower NUL) with NUL.
    change (char_val NUL) with 0%Z. change (is_nul NUL) with true.
    destruct (Z.ltb_spec 0 (char_val (tolower (read (drop 1 s2) 0)))),
             (Z.gtb_spec 0 (char_val (tolower (read (drop 1 s2) 0)))),
             (Z.ltb_spec (char_val (tolower (read (drop 1 s2) 0))) 0),
             (Z.gtb_spec (char_val (tolower (read (drop 1 s2) 0))) 0);
      try lia; try done.
    assert (E : tolower (read (drop 1 s2) 0) = NUL) by (apply char_val_inj; change (char_val NUL) with 0%Z; lia).
    by rewrite E.
  - apply Hstep. simpl drop at 2 3. rewrite drop_0. apply IH.
Qed.

(** X13: [BLI_strcasecmp] returns [0] exactly when the two texts are equal
    once folded to lower case; swapping the arguments negates the result;
    and [BLI_strcaseeq] is true exactly in the first case. *)
Theorem BLI_strcasecmp_fold (s1 s2 : list char) :
  (BLI_strcasecmp s1 s2 = 0%Z ↔ tolower <$> cstr s1 = tolower <$> cstr s2)
  ∧ BLI_strcasecmp s2 s1 = (- BLI_strcasecmp s1 s2)%Z
  ∧ (BLI_strcaseeq s1 s2 = true ↔ tolower <$> cstr s1 = tolower <$> cstr s2).
Proof.
  split_and!.
  - apply BLI_strcasecmp_zero.
  - apply BLI_strcasecmp_antisym.
  - unfold BLI_strcaseeq. rewrite Z.eqb_eq. apply BLI_strcasecmp_zero.
Qed.

Lemma BLI_strcasecmp_fold_witness :
  BLI_strcasecmp (lit "Cube.001") (lit "cUBE.001") = 0%Z.
Proof.
  destruct (BLI_strcasecmp_fold (lit "Cube.001") (lit "cUBE.001")) as ([_ H] & _).
  apply H. reflexivity.
Defined.

(** X14: [BLI_str_startswith(str, start)] is true exactly when the text of
    [start] is a prefix of the text of [str]; every string starts with the
    empty string. *)
Theorem BLI_str_startswith_prefix (str start : list char) :
  BLI_str_startswith str start = true ↔ ∃ rest, cstr str = cstr start ++ rest.
Proof.
  revert start. induction str as [|c str IH]; intros start.
  - cbn [BLI_str_startswith]. replace (match start with | _ => _ end)
      with (is_nul (read start 0)) by (by destruct start).
    rewrite (cstr_unfold start), cstr_nil.
    destruct (is_nul (read start 0)).
    + split; [by exists [] | done].
    + split; [done | by intros [rest ?]].
  - destruct start as [|d start].
    + cbn. split; [|done]. intros _. by exists (cstr (c :: str)).
    + cbn [BLI_str_startswith].
      destruct (is_nul c) eqn:Hc, (is_nul d) eqn:Hd; cbn [negb andb].
      * rewrite (cstr_cons_nul d) by done. split; [|done]. intros _. by eexists.
      * rewrite (cstr_cons_nul c), (cstr_cons d) by done.
        split; [done | by intros [rest ?]].
      * rewrite (cstr_cons_nul d) by done. split; [|done]. intros _. by eexists.
      * rewrite (cstr_cons c), (cstr_cons d) by done.
        destruct (Ascii.eqb_spec c d) as [->|Hne]; cbn [negb].
        -- rewrite IH. split; intros [rest Hr]; exists rest.
           ++ by rewrite Hr.
           ++ by injection Hr.
        -- split; [done|]. intros [rest [= ? _]]. done.
Qed.

Lemma endswith_loop_eq iter : ∀ end_,
  nul_free iter → nul_free end_ → length iter = length end_ →
  endswith_loop iter end_ = true ↔ iter = end_.
Proof.
  induction iter as [|c iter IH]; intros end_ Hi He Hlen.
  - destruct end_; [done | discriminate Hlen].
  - destruct end_ as [|d end_]; [discriminate Hlen|].
    apply nul_free_cons in Hi as [Hc Hi]. apply nul_free_cons in He as [Hd He].
    cbn [endswith_loop]. rewrite Hc, read_cons_0. simpl drop. rewrite drop_0.
    destruct (Ascii.eqb_spec c d) as [->|Hne]; cbn [negb].
    + rewrite IH by (done || (simpl in Hlen; lia)).
      split; [by intros -> | by intros [= ->]].
    + split; [done | by intros [= ? _]].
Qed.

(** X15: for two texts, [BLI_str_endswith(str, end)] is true exactly when
    [end] is shorter than [str] and is its suffix: a proper suffix; so every
    text that is not empty ends with the empty string. *)
Theorem BLI_str_endswith_proper_suffix (str end_ : list char) :
  nul_free str → nul_free end_ →
  BLI_str_endswith str end_ = true
  ↔ length end_ < length str ∧ drop (length str - length end_) str = end_.
Proof.
  intros Hs He. unfold BLI_str_endswith, BLI_strn_endswith.
  rewrite !strlen_nul_free by done.
  case_bool_decide as Hlt; [|split; [done | by intros [? _]]].
  rewrite endswith_loop_eq; [| by apply nul_free_drop | done | rewrite length_drop; lia].
  split; [done | by intros [_ ?]].
Qed.

Lemma BLI_str_endswith_proper_suffix_witness :
  BLI_str_endswith (lit "image.png") (lit ".png") = true
  ↔ length (lit ".png") < length (lit "image.png")
    ∧ drop (length (lit "image.png") - length (lit ".png")) (lit "image.png") = lit ".png".
Proof.
  apply (BLI_str_endswith_proper_suffix (lit "image.png") (lit ".png"));
    unfold nul_free; repeat constructor.
Defined.

(** ** Lookup in an array of strings *)

Lemma strcmp_zero s1 : ∀ s2, strcmp s1 s2 = 0%Z ↔ cstr s1 = cstr s2.
Proof.
  induction s1 as [|c1 s1 IH]; intros s2.
  - cbn [strcmp]. rewrite cstr_nil, (cstr_unfold s2).
    destruct (is_nul (read s2 0)) eqn:H2.
    + apply is_nul_true in H2. by rewrite H2.
    + split; [|done]. intros E. exfalso.
      assert (uchar_val (read s2 0) = uchar_val NUL) as E'%uchar_val_inj
        by (change (uchar_val NUL) with 0%Z; lia).
      by rewrite E' in H2.
  - cbn [strcmp]. rewrite (cstr_unfold s2).
    destruct (Ascii.eqb_spec c1 (read s2 0)) as [E|Hne].
    + rewrite <- E. destruct (is_nul c1) eqn:H1.
      * by rewrite cstr_cons_nul.
      * rewrite cstr_cons by done. rewrite IH.
        split; [by intros -> | by intros [= ->]].
    + split.
      * intros E. exfalso. apply Hne, uchar_val_inj. lia.
      * destruct (is_nul c1) eqn:H1, (is_nul (read s2 0)) eqn:H2;
          rewrite ?(cstr_cons_nul c1), ?(cstr_cons c1) by done; intros E;
          try discriminate E.
        -- apply is_nul_true in H1, H2. congruence.
        -- injection E as E _. done.
Qed.

Lemma STREQ_true a b : STREQ a b = true ↔ cstr a = cstr b.
Proof. unfold STREQ. rewrite Z.eqb_eq. apply strcmp_zero. Qed.

(** The result of a lookup in [arr]: [-1] when no string below [bound] has
    the text of [str], and otherwise the first index that has it. *)
Lemma str_index_in_array_n_loop_spec str iter : ∀ index len,
  (len - index ≤ Z.of_nat (length iter))%Z →
  ∃ r,
    str_index_in_array_n_loop str iter index len = Some r
    ∧ ((r = (-1)%Z
        ∧ ∀ i s, (index + Z.of_nat i < len)%Z → iter !! i = Some s → cstr s ≠ cstr str)
       ∨ (∃ i s, r = (index + Z.of_nat i)%Z ∧ (r < len)%Z
                 ∧ iter !! i = Some s ∧ cstr s = cstr str
                 ∧ ∀ j t, j < i → iter !! j = Some t → cstr t ≠ cstr str)).
Proof.
  induction iter as [|s iter IH]; intros index len Hlen.
  - simpl in *. rewrite (proj2 (Z.ltb_ge _ _)) by lia.
    eexists. split; [done|]. left. split; [done|]. intros i t _ Hi. done.
  - cbn [str_index_in_array_n_loop].
    destruct (Z.ltb_spec index len) as [Hlt|Hge].
    2:{ eexists. split; [done|]. left. split; [done|]. intros i t Hi. lia. }
    destruct (STREQ str s) eqn:Heq.
    + apply STREQ_true in Heq. eexists. split; [done|]. right.
      exists 0, s. split_and!; [lia | lia | done | done | intros j t Hj; lia].
    + assert (Hne : cstr s ≠ cstr str).
      { intros E. symmetry in E. apply STREQ_true in E. congruence. }
      destruct (IH (index + 1)%Z len) as (r & Hr & Hcases).
      { simpl length in Hlen. lia. }
      exists r. split; [done|].
      destruct Hcases as [[-> Hnone]|(i & t & -> & Hlt' & Hi & Ht & Hfirst)].
      * left. split; [done|]. intros [|i] t Hi Ht.
        -- by injection Ht as <-.
        -- apply (Hnone i t); [lia | done].
      * right. exists (S i), t. split_and!; [lia | lia | done | done |].
        intros [|j] u Hj Hu; [by injection Hu as <-|].
        apply (Hfirst j u); [lia | done].
Qed.

Lemma str_index_in_array_loop_n str iter : ∀ index,
  str_index_in_array_n_loop str iter index (index + Z.of_nat (length iter))
  = Some (str_index_in_array_loop str iter index).
Proof.
  induction iter as [|s iter IH]; intros index.
  - simpl. by rewrite (proj2 (Z.ltb_ge _ _)) by lia.
  - cbn [str_index_in_array_n_loop str_index_in_array_loop].
    rewrite (proj2 (Z.ltb_lt _ _)) by (simpl length; lia).
    destruct (STREQ str s); [done|].
    rewrite <- IH. f_equal. simpl length. lia.
Qed.

(** X16: for an array of at least [str_array_len] strings,
    [BLI_str_index_in_array_n] returns the first index below [str_array_len]
    whose string is equal to [str], and [-1] when there is none; in
    particular [-1] for every [str_array_len <= 0]. *)
Theorem BLI_str_index_in_array_n_first (str : list char) (str_array : list (list char))
    (str_array_len : Z) :
  (str_array_len ≤ Z.of_nat (length str_array))%Z →
  ∃ r,
    BLI_str_index_in_array_n str str_array str_array_len = Some r
    ∧ ((r = (-1)%Z
        ∧ ∀ i s, (Z.of_nat i < str_array_len)%Z → str_array !! i = Some s →
                 cstr s ≠ cstr str)
       ∨ (∃ i s, r = Z.of_nat i ∧ (r < str_array_len)%Z
                 ∧ str_array !! i = Some s ∧ cstr s = cstr str
                 ∧ ∀ j t, j < i → str_array !! j = Some t → cstr t ≠ cstr str))
    ∧ ((str_array_len ≤ 0)%Z → r = (-1)%Z).
Proof.
  intros Hlen.
  destruct (str_index_in_array_n_loop_spec str str_array 0 str_array_len)
    as (r & Hr & Hcases); [lia|].
  exists r. split; [done|]. split; [|intros; destruct Hcases as [[? _]|(? & ? & ? & ? & _)]; lia].
  destruct Hcases as [[-> Hnone]|(i & s & -> & ? & ? & ? & ?)].
  - left. split; [done|]. intros i s Hi. apply Hnone. lia.
  - right. exists i, s. split_and!; done || lia.
Qed.

Lemma BLI_str_index_in_array_n_first_witness :
  ∃ r, BLI_str_index_in_array_n (lit "b") [lit "a"; lit "b"; lit "b"] 3 = Some r.
Proof.
  destruct (BLI_str_index_in_array_n_first (lit "b") [lit "a"; lit "b"; lit "b"] 3)
    as (r & Hr & _); [simpl; lia|].
  exists r. exact Hr.
Defined.

(** X17: on an array that ends with [NULL], [BLI_str_index_in_array] returns
    what [BLI_str_index_in_array_n] returns for the number of strings before
    the [NULL]: the first index whose string is equal to [str], and [-1] when
    there is none. *)
Theorem BLI_str_index_in_array_first (str : list char) (str_array : list (list char)) :
  BLI_str_index_in_array_n str str_array (Z.of_nat (length str_array))
  = Some (BLI_str_index_in_array str str_array)
  ∧ ((BLI_str_index_in_array str str_array = (-1)%Z
      ∧ ∀ i s, str_array !! i = Some s → cstr s ≠ cstr str)
     ∨ (∃ i s, BLI_str_index_in_array str str_array = Z.of_nat i
               ∧ str_array !! i = Some s ∧ cstr s = cstr str
               ∧ ∀ j t, j < i → str_array !! j = Some t → cstr t ≠ cstr str)).
Proof.
  pose proof (str_index_in_array_loop_n str str_array 0) as Heq.
  rewrite Z.add_0_l in Heq. split; [exact Heq|].
  destruct (str_index_in_array_n_loop_spec str str_array 0 (Z.of_nat (length str_array)))
    as (r & Hr & Hcases); [lia|].
  unfold BLI_str_index_in_array_n in Heq. rewrite Hr in Heq. injection Heq as Heq.
  unfold BLI_str_index_in_array. rewrite <- Heq.
  destruct Hcases as [[-> Hnone]|(i & s & -> & ? & ? & ? & ?)].
  - left. split; [done|]. intros i s Hi. apply (Hnone i s); [|done].
    apply lookup_lt_Some in Hi. lia.
  - right. exists i, s. split_and!; done || lia.
Qed.

(** ** Case conversion and stripping *)

Lemma tolower_toupper_char c :
  tolower (if in_range "a" "z" c then ascii_of_N (N_of_ascii c - 32) else c) = tolower c
  ∧ (let l := tolower c in
     if in_range "a" "z" l then ascii_of_N (N_of_ascii l - 32) else l)
    = (if in_range "a" "z" c then ascii_of_N (N_of_ascii c - 32) else c)
  ∧ is_nul (if in_range "a" "z" c then ascii_of_N (N_of_ascii c - 32) else c) = is_nul c.
Proof. destruct c as [[] [] [] [] [] [] [] []]; by vm_compute. Qed.

Lemma BLI_str_tolower_ascii_cons c str len :
  is_nul c = false →
  BLI_str_tolower_ascii (c :: str) (S len) = tolower c :: BLI_str_tolower_ascii str len.
Proof. intros Hc. cbn [BLI_str_tolower_ascii]. by rewrite Hc. Qed.

Lemma BLI_str_toupper_ascii_cons c str len :
  is_nul c = false →
  BLI_str_toupper_ascii (c :: str) (S len)
  = (if in_range "a" "z" c then ascii_of_N (N_of_ascii c - 32) else c)
    :: BLI_str_toupper_ascii str len.
Proof. intros Hc. cbn [BLI_str_toupper_ascii]. by rewrite Hc. Qed.

Lemma BLI_str_tolower_ascii_stop str len :
  len = 0 ∨ is_nul (read str 0) = true → BLI_str_tolower_ascii str len = str.
Proof.
  intros [->|Hnul]; [by destruct str|].
  destruct len, str as [|c str]; try done.
  rewrite read_cons_0 in Hnul. cbn [BLI_str_tolower_ascii]. by rewrite Hnul.
Qed.

Lemma BLI_str_toupper_ascii_stop str len :
  len = 0 ∨ is_nul (read str 0) = true → BLI_str_toupper_ascii str len = str.
Proof.
  intros [->|Hnul]; [by destruct str|].
  destruct len, str as [|c str]; try done.
  rewrite read_cons_0 in Hnul. cbn [BLI_str_toupper_ascii]. by rewrite Hnul.
Qed.

(** X18: [BLI_str_tolower_ascii] applies [tolower] to the first
    [min(len, strlen(str))] bytes and changes nothing else, so the length of
    the string is kept; converting to upper case first makes no difference,
    and neither does converting to lower case before a conversion to upper
    case. *)
Theorem BLI_str_tolower_ascii_fold (str : list char) (len : nat) :
  BLI_str_tolower_ascii str len
  = (tolower <$> take (min len (strlen str)) str) ++ drop (min len (strlen str)) str
  ∧ strlen (BLI_str_tolower_ascii str len) = strlen str
  ∧ BLI_str_tolower_ascii (BLI_str_toupper_ascii str len) len = BLI_str_tolower_ascii str len
  ∧ BLI_str_toupper_ascii (BLI_str_tolower_ascii str len) len = BLI_str_toupper_ascii str len.
Proof.
  revert str. induction len as [|len IH]; intros str.
  { rewrite !(BLI_str_toupper_ascii_stop str 0) by by left.
    rewrite !(BLI_str_tolower_ascii_stop str 0) by by left.
    rewrite !(BLI_str_toupper_ascii_stop str 0) by by left. done. }
  destruct str as [|c str]; [done|].
  destruct (is_nul c) eqn:Hc.
  { assert (Hr : is_nul (read (c :: str) 0) = true) by done.
    rewrite !(BLI_str_toupper_ascii_stop (c :: str)) by by right.
    rewrite !(BLI_str_tolower_ascii_stop (c :: str)) by by right.
    rewrite !(BLI_str_toupper_ascii_stop (c :: str)) by by right.
    cbn [strlen]. rewrite Hc, Nat.min_0_r. done. }
  destruct (IH str) as (IH1 & IH2 & IH3 & IH4).
  destruct (tolower_toupper_char c) as (Hlu & Hul & Hnu).
  pose proof (tolower_nul_iff c) as Hnl. rewrite Hc in Hnl, Hnu.
  split_and!.
  - rewrite BLI_str_tolower_ascii_cons by done. cbn [strlen]. rewrite Hc.
    rewrite <- Nat.succ_min_distr. cbn [firstn drop]. rewrite fmap_cons.
    cbn [app]. by rewrite <- IH1.
  - rewrite BLI_str_tolower_ascii_cons by done. cbn [strlen]. by rewrite Hnl, Hc, IH2.
  - rewrite BLI_str_toupper_ascii_cons by done.
    rewrite !BLI_str_tolower_ascii_cons by done. by rewrite Hlu, IH3.
  - rewrite BLI_str_tolower_ascii_cons by done.
    rewrite !BLI_str_toupper_ascii_cons by done. cbv zeta in Hul. by rewrite Hul, IH4.
Qed.

Lemma cstr_app_stop t r : nul_free t → is_nul (read r 0) = true → cstr (t ++ r) = t.
Proof.
  intros Ht Hr. destruct r as [|c r]; [rewrite app_nil_r; by apply cstr_nul_free_id|].
  rewrite read_cons_0 in Hr. apply is_nul_true in Hr. subst c. by apply cstr_app_nul.
Qed.

Lemma take_drop_cstr s : s = cstr s ++ drop (strlen s) s.
Proof. unfold cstr. by rewrite take_drop. Qed.

Lemma read_drop_strlen s : is_nul (read (drop (strlen s) s) 0) = true.
Proof.
  induction s as [|c s IH]; [done|]. cbn [strlen].
  destruct (is_nul c) eqn:Hc; cbn [drop]; [|done].
  by rewrite read_cons_0.
Qed.

Lemma rstrip_loop_spec t : ∀ r,
  nul_free t →
  ∃ t' ws,
    t = t' ++ ws
    ∧ Forall (λ c, isspace c = true) ws
    ∧ (∀ u c, t' = u ++ [c] → isspace c = false)
    ∧ rstrip_loop (t ++ r) (length t) = t' ++ replicate (length ws) NUL ++ r.
Proof.
  induction t as [|c t IH] using rev_ind; intros r Ht.
  - exists [], []. split_and!; [done | constructor | | done].
    intros u c E. by destruct u.
  - apply nul_free_app in Ht as [Ht Hc].
    replace (length (t ++ [c])) with (S (length t)) by (rewrite length_app; simpl; lia).
    cbn [rstrip_loop].
    assert (Hread : read ((t ++ [c]) ++ r) (length t) = c).
    { rewrite <- app_assoc. cbn [app]. unfold read. by rewrite list_lookup_middle. }
    rewrite Hread. destruct (isspace c) eqn:Hsp.
    + assert (Hins : <[length t:=NUL]> ((t ++ [c]) ++ r) = t ++ NUL :: r).
      { rewrite <- app_assoc. cbn [app]. rewrite insert_app_r_alt by lia.
        by rewrite Nat.sub_diag. }
      rewrite Hins.
      destruct (IH (NUL :: r) Ht) as (t' & ws & -> & Hws & Hlast & Hloop).
      exists t', (ws ++ [c]). split_and!.
      * by rewrite app_assoc.
      * apply Forall_app. split; [done | by constructor].
      * done.
      * rewrite Hloop, length_app. simpl. rewrite replicate_add. simpl.
        by rewrite <- !app_assoc.
    + exists (t ++ [c]), []. split_and!.
      * by rewrite app_nil_r.
      * constructor.
      * intros u d [-> ->]%app_inj_tail. done.
      * done.
Qed.

(** X19: for a text of at most [INT_MAX] bytes, [BLI_str_rstrip] keeps the
    size of the buffer and cuts the text before its trailing white space:
    the old text is the new text followed by white space only, and the new
    text does not end with white space. *)
Theorem BLI_str_rstrip_trailing (str : list char) :
  (Z.of_nat (strlen str) ≤ 2 ^ 31 - 1)%Z →
  length (BLI_str_rstrip str) = length str
  ∧ ∃ ws,
      cstr str = cstr (BLI_str_rstrip str) ++ ws
      ∧ Forall (λ c, isspace c = true) ws
      ∧ ∀ t c, cstr (BLI_str_rstrip str) = t ++ [c] → isspace c = false.
Proof.
  intros Hint. unfold BLI_str_rstrip, int_of_size_t.
  rewrite Z.mod_small by lia.
  replace (Z.to_nat (Z.of_nat (strlen str) + 2 ^ 31 - 2 ^ 31 - 1 + 1))
    with (strlen str) by lia.
  destruct (rstrip_loop_spec (cstr str) (drop (strlen str) str) (cstr_nul_free str))
    as (t' & ws & Ht & Hws & Hlast & Hloop).
  rewrite length_cstr, <- take_drop_cstr in Hloop. rewrite Hloop.
  assert (Hnf : nul_free t').
  { pose proof (cstr_nul_free str) as H. rewrite Ht in H. by apply nul_free_app in H as [? _]. }
  assert (Hc : cstr (t' ++ replicate (length ws) NUL ++ drop (strlen str) str) = t').
  { apply cstr_app_stop; [done|]. destruct ws; simpl; [|done]. apply read_drop_strlen. }
  split.
  - rewrite (take_drop_cstr str) at 3. rewrite Ht, !length_app, length_replicate. lia.
  - exists ws. rewrite Hc. done.
Qed.

Lemma BLI_str_rstrip_trailing_witness :
  length (BLI_str_rstrip (lit "a b  ")) = length (lit "a b  ")
  ∧ ∃ ws,
      cstr (lit "a b  ") = cstr (BLI_str_rstrip (lit "a b  ")) ++ ws
      ∧ Forall (λ c, isspace c = true) ws
      ∧ ∀ t c, cstr (BLI_str_rstrip (lit "a b  ")) = t ++ [c] → isspace c = false.
Proof.
  apply (BLI_str_rstrip_trailing (lit "a b  ")). simpl. lia.
Defined.

(** ** More on escaping *)

Lemma unescape_code_not_nul c c' : unescape_code c = Some c' → is_nul c' = false.
Proof.
  unfold unescape_code.
  repeat (destruct (Ascii.eqb c _); [by intros [= <-]|]). done.
Qed.

(** Every round of [BLI_str_unescape] reads at least one byte and writes
    exactly one. *)
Lemma unescape_loop_bound n : ∀ src pre mid i lim,
  length src ≤ n →
  length pre + min (strlen src) (lim - i) < length (pre ++ mid) →
  ∃ out,
    unescape_loop (pre ++ mid) src (length pre) i lim
    = Some (pre ++ out ++ NUL :: drop (S (length out)) mid, length pre + length out)
    ∧ length out ≤ min (strlen src) (lim - i)
    ∧ nul_free out.
Proof.
  assert (Hstop : ∀ pre mid k,
    length pre + k < length (pre ++ mid) →
    ∃ out,
      (dst1 ← store (pre ++ mid) (length pre) NUL; Some (dst1, length pre))
      = Some (pre ++ out ++ NUL :: drop (S (length out)) mid, length pre + length out)
      ∧ length out ≤ k
      ∧ nul_free out).
  { intros pre mid k Hcap. exists []. rewrite length_app in Hcap.
    destruct mid as [|x mid]; [simpl in *; lia|].
    rewrite store_after. simpl. rewrite drop_0, Nat.add_0_r.
    split; [done|]. split; [lia | constructor]. }
  assert (Hput : ∀ pre mid c src' i' lim k,
    is_nul c = false →
    length pre + S k < length (pre ++ mid) →
    (∃ out,
       unescape_loop ((pre ++ [c]) ++ drop 1 mid) src' (length (pre ++ [c])) i' lim
       = Some ((pre ++ [c]) ++ out ++ NUL :: drop (S (length out)) (drop 1 mid),
               length (pre ++ [c]) + length out)
       ∧ length out ≤ k
       ∧ nul_free out) →
    ∃ out,
      (dst1 ← store (pre ++ mid) (length pre) c;
       unescape_loop dst1 src' (length pre + 1) i' lim)
      = Some (pre ++ out ++ NUL :: drop (S (length out)) mid, length pre + length out)
      ∧ length out ≤ S k
      ∧ nul_free out).
  { intros pre mid c src' i' lim k Hc Hcap (out & Hout & Hle & Hnf).
    rewrite length_app in Hcap.
    destruct mid as [|x mid]; [simpl in *; lia|].
    rewrite store_after. simpl. simpl drop in Hout. rewrite drop_0 in Hout.
    replace (pre ++ c :: mid) with ((pre ++ [c]) ++ mid) by (by rewrite <- app_assoc).
    replace (length pre + 1) with (length (pre ++ [c]))
      by (rewrite length_app; simpl; lia).
    rewrite Hout. exists (c :: out). rewrite length_app. simpl.
    split; [rewrite <- !app_assoc; simpl; do 2 f_equal; lia|].
    split; [lia | by apply nul_free_cons]. }
  induction n as [|n IH]; intros src pre mid i lim Hn Hcap.
  { destruct src; [|simpl in Hn; lia]. simpl. eapply Hstop. exact Hcap. }
  destruct src as [|c src']; [simpl; eapply Hstop; exact Hcap|].
  cbn [unescape_loop]. simpl in Hn.
  destruct (decide (i < lim)) as [Hlt|Hge];
    [rewrite bool_decide_eq_true_2 by done
    |rewrite bool_decide_eq_false_2 by done; eapply Hstop; exact Hcap].
  destruct (is_nul c) eqn:Hc; [eapply Hstop; exact Hcap|]. cbn [negb andb].
  cbn [strlen] in Hcap. rewrite Hc in Hcap. cbn [strlen]. rewrite Hc.
  assert (Hlit : ∃ out,
    (dst1 ← store (pre ++ mid) (length pre) c;
     unescape_loop dst1 src' (length pre + 1) (i + 1) lim)
    = Some (pre ++ out ++ NUL :: drop (S (length out)) mid, length pre + length out)
    ∧ length out ≤ S (min (strlen src') (lim - (i + 1)))
    ∧ nul_free out).
  { apply Hput; [done | lia |]. apply IH; [lia|].
    rewrite !length_app, length_drop in *. simpl. lia. }
  assert (Hlit' : ∃ out,
    (dst1 ← store (pre ++ mid) (length pre) c;
     unescape_loop dst1 src' (length pre + 1) (i + 1) lim)
    = Some (pre ++ out ++ NUL :: drop (S (length out)) mid, length pre + length out)
    ∧ length out ≤ min (S (strlen src')) (lim - i)
    ∧ nul_free out).
  { destruct Hlit as (out & ? & ? & ?). exists out. split; [done|]. split; [lia | done]. }
  destruct src' as [|c_next src'']; [exact Hlit'|].
  destruct (Ascii.eqb c BACKSLASH); [|exact Hlit'].
  destruct (unescape_code c_next) as [c'|] eqn:Hu; [|exact Hlit'].
  assert (Hs2 : S (strlen src'') = strlen (c_next :: src'')).
  { simpl. destruct (is_nul c_next) eqn:Hcn; [|done].
    apply is_nul_true in Hcn. by subst c_next. }
  apply unescape_code_not_nul in Hu.
  destruct (Hput pre mid c' src'' (i + 2) lim (min (strlen src'') (lim - (i + 2))))
    as (out & Hout & Hle & Hnf); [done | lia | |].
  { apply IH; [simpl in Hn; lia|].
    rewrite !length_app, length_drop in *. simpl. lia. }
  exists out. split; [done|]. split; [lia | done].
Qed.

(** X20: in a destination of more than [min(strlen(src), src_maxncpy)]
    bytes, [BLI_str_unescape] succeeds for every source: the string it leaves
    is never longer than what it read, its length is the value returned, and
    no byte after the terminator is changed. *)
Theorem BLI_str_unescape_never_longer (dst src : list char) (src_maxncpy : nat) :
  min (strlen src) src_maxncpy < length dst →
  ∃ dst' n,
    BLI_str_unescape dst src src_maxncpy = Some (dst', n)
    ∧ n ≤ min (strlen src) src_maxncpy
    ∧ strlen dst' = n
    ∧ ∀ i, n < i → dst' !! i = dst !! i.
Proof.
  intros Hcap. unfold BLI_str_unescape.
  destruct (unescape_loop_bound (length src) src [] dst 0 src_maxncpy)
    as (out & Hout & Hle & Hnf); [done | simpl; lia |].
  simpl in *. rewrite Hout. rewrite Nat.sub_0_r in Hle.
  exists (out ++ NUL :: drop (S (length out)) dst), (length out).
  split; [done|]. split; [done|]. split; [by apply strlen_app_nul|].
  intros i Hi. rewrite lookup_app_r by lia.
  destruct (i - length out) as [|k] eqn:Hk; [lia|]. simpl.
  rewrite lookup_drop. f_equal. lia.
Qed.

Lemma BLI_str_unescape_never_longer_witness :
  ∃ dst' n, BLI_str_unescape (lit "ZZZZZ") (lit "a\nb") 4 = Some (dst', n) ∧ n ≤ 4.
Proof.
  destruct (BLI_str_unescape_never_longer (lit "ZZZZZ") (lit "a\nb") 4)
    as (dst' & n & H1 & H2 & _); [simpl; lia|].
  exists dst', n. split; [exact H1|]. simpl in H2. lia.
Defined.

Lemma trailing_backslashes_snoc t c :
  trailing_backslashes (t ++ [c])
  = if Ascii.eqb c BACKSLASH then S (trailing_backslashes t) else 0.
Proof.
  assert (Hall : ∀ u, Forall (λ d, d = BACKSLASH) (u ++ [c])
                      ↔ Forall (λ d, d = BACKSLASH) u ∧ c = BACKSLASH).
  { intros u. rewrite Forall_app, Forall_singleton. done. }
  induction t as [|d t IH].
  - cbn [app trailing_backslashes length].
    destruct (Ascii.eqb_spec c BACKSLASH) as [E|Hne].
    + rewrite bool_decide_eq_true_2; [done|]. by apply (Hall []).
    + rewrite bool_decide_eq_false_2; [done|]. by intros [_ ?]%(Hall []).
  - cbn [app trailing_backslashes]. rewrite IH, length_app. cbn [length].
    destruct (Ascii.eqb_spec c BACKSLASH) as [E|Hne].
    + case_bool_decide as Hd.
      * rewrite bool_decide_eq_true_2; [f_equal; lia|].
        by apply (Hall (d :: t)) in Hd as [? _].
      * rewrite bool_decide_eq_false_2; [done|]. intros Hd'. apply Hd.
        by apply (Hall (d :: t)).
    + rewrite bool_decide_eq_false_2; [done|]. by intros [_ ?]%(Hall (d :: t)).
Qed.

Lemma find_quote_loop_spec suffix : ∀ pre,
  match find_quote_loop suffix (Nat.odd (trailing_backslashes pre)) (length pre) with
  | Some k =>
      length pre ≤ k < length pre + strlen suffix
      ∧ unescaped_quote_at (pre ++ suffix) k
      ∧ ∀ j, length pre ≤ j < k → ¬ unescaped_quote_at (pre ++ suffix) j
  | None =>
      ∀ j, length pre ≤ j < length pre + strlen suffix →
           ¬ unescaped_quote_at (pre ++ suffix) j
  end.
Proof.
  induction suffix as [|c suffix IH]; intros pre.
  - simpl. intros j Hj. lia.
  - cbn [find_quote_loop strlen].
    assert (Hhere : read (pre ++ c :: suffix) (length pre) = c).
    { unfold read. by rewrite list_lookup_middle. }
    assert (Htake : take (length pre) (pre ++ c :: suffix) = pre)
      by apply take_app_length.
    destruct (is_nul c) eqn:Hc; cbn [negb andb].
    { apply is_nul_true in Hc. subst c. cbn. intros j Hj. lia. }
    destruct (negb (Ascii.eqb c DQUOTE) || Nat.odd (trailing_backslashes pre)) eqn:Hskip.
    + specialize (IH (pre ++ [c])).
      rewrite trailing_backslashes_snoc in IH.
      replace (Nat.odd (if Ascii.eqb c BACKSLASH
                        then S (trailing_backslashes pre) else 0))
        with (negb (Nat.odd (trailing_backslashes pre)) && Ascii.eqb c BACKSLASH) in IH.
      2:{ destruct (Ascii.eqb c BACKSLASH).
          - by rewrite Nat.odd_succ, <- Nat.negb_odd, andb_true_r.
          - by rewrite andb_false_r. }
      replace (length (pre ++ [c])) with (S (length pre)) in IH
        by (rewrite length_app; simpl; lia).
      rewrite <- app_assoc in IH. cbn [app] in IH.
      assert (Hnot : ¬ unescaped_quote_at (pre ++ c :: suffix) (length pre)).
      { intros [Hq Hev]. rewrite Hhere in Hq. rewrite Htake in Hev. subst c.
        rewrite <- Nat.negb_odd in Hev. cbn in Hskip.
        rewrite Hskip in Hev. done. }
      destruct (find_quote_loop suffix _ _) as [k|].
      * destruct IH as (Hk & Hq & Hfirst). split; [lia|]. split; [done|].
        intros j Hj. destruct (decide (j = length pre)) as [->|]; [done|].
        apply Hfirst. lia.
      * intros j Hj. destruct (decide (j = length pre)) as [->|]; [done|].
        apply IH. lia.
    + apply orb_false_iff in Hskip as [Hq Hodd].
      apply negb_false_iff in Hq. rewrite Hq.
      split; [lia|]. split; [|intros j Hj; lia].
      split; [by rewrite Hhere; apply Ascii.eqb_eq|].
      by rewrite Htake, <- Nat.negb_odd, Hodd.
Qed.

(** X21: [BLI_str_escape_find_quote] returns the offset of the first quote
    of the string that has an even number of back-slashes right before it,
    and [NULL] when the string has no such quote. *)
Theorem BLI_str_escape_find_quote_first (str : list char) :
  match BLI_str_escape_find_quote str with
  | Some k =>
      k < strlen str
      ∧ unescaped_quote_at str k
      ∧ ∀ j, j < k → ¬ unescaped_quote_at str j
  | None => ∀ j, j < strlen str → ¬ unescaped_quote_at str j
  end.
Proof.
  pose proof (find_quote_loop_spec str []) as H. cbn in H.
  unfold BLI_str_escape_find_quote.
  destruct (find_quote_loop str false 0) as [k|].
  - destruct H as (Hk & Hq & Hfirst). split; [lia|]. split; [done|].
    intros j Hj. apply Hfirst. lia.
  - intros j Hj. apply H. lia.
Qed.


(** ** Grouping of digits *)

Lemma length_grouped ds : length (grouped ds) = length ds + (length ds - 1) / 3.
Proof.
  induction ds as [|d ds IH]; [done|]. cbn [grouped length].
  destruct (bool_decide (0 < length ds) && (length ds mod 3 =? 0)) eqn:Hc.
  - apply andb_true_iff in Hc as [Hpos%bool_decide_eq_true Hmod%Nat.eqb_eq].
    cbn [length]. rewrite IH.
    replace (S (length ds) - 1) with (length ds) by lia.
    pose proof (Nat.div_mod_eq (length ds) 3) as E1.
    pose proof (Nat.div_mod_eq (length ds - 1) 3) as E2.
    pose proof (Nat.mod_upper_bound (length ds - 1) 3). lia.
  - cbn [length]. rewrite IH.
    replace (S (length ds) - 1) with (length ds) by lia.
    apply andb_false_iff in Hc as [Hpos%bool_decide_eq_false|Hmod%Nat.eqb_neq].
    + replace (length ds) with 0 by lia. done.
    + pose proof (Nat.div_mod_eq (length ds) 3) as E1.
      pose proof (Nat.div_mod_eq (length ds - 1) 3) as E2.
      pose proof (Nat.mod_upper_bound (length ds - 1) 3).
      pose proof (Nat.mod_upper_bound (length ds) 3). lia.
Qed.

Lemma commas_step (commas : Z) (m : nat) :
  (0 ≤ commas < 3)%Z → ((commas + Z.of_nat (S m)) mod 3 = 2)%Z →
  ((commas =? 1)%Z = (m mod 3 =? 0))
  ∧ (0 ≤ Z.rem (commas + 1) 3 < 3)%Z
  ∧ (1 ≤ m → ((Z.rem (commas + 1) 3 + Z.of_nat m) mod 3 = 2)%Z).
Proof.
  intros Hc Hinv. rewrite Z.rem_mod_nonneg by lia.
  assert (Hm : Z.of_nat (m mod 3) = (Z.of_nat m mod 3)%Z) by apply Nat2Z.inj_mod.
  pose proof (Nat.mod_upper_bound m 3 ltac:(lia)).
  split_and!.
  - destruct (Z.eqb_spec commas 1), (Nat.eqb_spec (m mod 3) 0); try done;
      exfalso; revert Hinv Hm; Z.div_mod_to_equations; lia.
  - Z.div_mod_to_equations; lia.
  - Z.div_mod_to_equations; lia.
  - intros _. revert Hinv. Z.div_mod_to_equations. lia.
Qed.

Lemma format_int_grouped_loop_spec ds : ∀ pre mid commas,
  nul_free ds → ds ≠ [] →
  (0 ≤ commas < 3)%Z → ((commas + Z.of_nat (length ds)) mod 3 = 2)%Z →
  length (grouped ds) < length mid →
  format_int_grouped_loop (pre ++ mid) ds (length pre) commas
  = Some (pre ++ grouped ds ++ ","%char :: drop (S (length (grouped ds))) mid,
          length pre + length (grouped ds) + 1).
Proof.
  induction ds as [|d ds IH]; intros pre mid commas Hnf Hne Hc Hinv Hroom; [done|].
  apply nul_free_cons in Hnf as [Hd Hnf].
  cbn [format_int_grouped_loop]. rewrite Hd.
  destruct (commas_step commas (length ds) Hc Hinv) as (Hone & Hc' & Hinv').
  assert (Hg : grouped (d :: ds)
               = if bool_decide (0 < length ds) && (length ds mod 3 =? 0)
                 then d :: ","%char :: grouped ds else d :: grouped ds) by done.
  rewrite Hg in *. clear Hg. rewrite Hone.
  assert (Hp1 : length (pre ++ [d]) = length pre + 1)
    by (rewrite length_app; simpl; lia).
  destruct (decide (ds = [])) as [->|Hne'].
  - cbn [length grouped] in *.
    rewrite (bool_decide_eq_false_2 (0 < 0)) in * by lia. cbn [andb length] in *.
    destruct mid as [|x [|y mid]]; [simpl in Hroom; lia..|].
    rewrite store_after. cbn.
    replace (pre ++ d :: y :: mid) with ((pre ++ [d]) ++ y :: mid)
      by (by rewrite <- app_assoc).
    rewrite <- Hp1, store_after. cbn.
    rewrite <- !app_assoc. cbn. do 2 f_equal. lia.
  - assert (Hpos : 0 < length ds) by (destruct ds; [done | simpl; lia]).
    rewrite (bool_decide_eq_true_2 (0 < length ds)) in * by done. cbn [andb] in *.
    destruct (length ds mod 3 =? 0) eqn:Hmod.
    + cbn [length] in Hroom.
      destruct mid as [|x [|y mid]]; [simpl in Hroom; lia..|].
      rewrite store_after. simpl mbind.
      replace (pre ++ d :: y :: mid) with ((pre ++ [d]) ++ y :: mid)
        by (by rewrite <- app_assoc).
      rewrite <- Hp1, store_after. simpl mbind.
      replace ((pre ++ [d]) ++ ","%char :: mid) with ((pre ++ [d; ","%char]) ++ mid)
        by (by rewrite <- !app_assoc).
      replace (length pre + 2) with (length (pre ++ [d; ","%char]))
        by (rewrite !length_app; simpl; lia).
      rewrite IH; [| done | done | done | apply Hinv'; lia | simpl in Hroom; lia].
      rewrite <- !app_assoc, length_app. cbn [app length]. do 2 f_equal. lia.
    + cbn [length] in Hroom.
      destruct mid as [|x mid]; [simpl in Hroom; lia|].
      rewrite store_after. simpl mbind.
      replace (pre ++ d :: mid) with ((pre ++ [d]) ++ mid) by (by rewrite <- app_assoc).
      rewrite <- Hp1.
      rewrite IH; [| done | done | done | apply Hinv'; lia | simpl in Hroom; lia].
      rewrite <- !app_assoc, length_app. cbn [app length]. do 2 f_equal. lia.
Qed.

Lemma filter_grouped ds :
  ","%char ∉ ds → filter (λ c, c ≠ ","%char) (grouped ds) = ds.
Proof.
  induction ds as [|d ds IH]; intros Hno; [done|].
  apply not_elem_of_cons in Hno as [Hd Hno]. cbn [grouped].
  destruct (_ && _).
  - rewrite filter_cons_True by done. rewrite filter_cons_False by (by intros ?).
    by rewrite IH.
  - rewrite filter_cons_True by done. by rewrite IH.
Qed.

(** X22: let the source be an optional minus sign followed by digits, with
    [num_len] its length, as [sprintf] leaves them.  In a destination that
    has room for the result, [BLI_str_format_int_grouped_ex] leaves the sign
    and the digits with a comma after every digit that is followed by a
    positive multiple of three digits, and returns the length of that string,
    which is the length of the source plus a third, rounded down, of the
    number of digits minus one.  Removing the commas gives the digits
    back. *)
Theorem BLI_str_format_int_grouped_ex_groups (sign digits dst : list char) :
  sign = [] ∨ sign = ["-"%char] →
  nul_free digits → digits ≠ [] → read digits 0 ≠ "-"%char →
  length (sign ++ grouped digits) < length dst →
  BLI_str_format_int_grouped_ex (sign ++ digits) dst (Z.of_nat (length (sign ++ digits)))
  = Some (sign ++ grouped digits ++ NUL :: drop (S (length (sign ++ grouped digits))) dst,
          length (sign ++ grouped digits))
  ∧ length (grouped digits) = length digits + (length digits - 1) / 3
  ∧ (","%char ∉ digits → filter (λ c, c ≠ ","%char) (grouped digits) = digits).
Proof.
  intros Hsign Hnf Hne Hminus Hroom.
  split; [|split; [apply length_grouped | apply filter_grouped]].
  assert (Hcommas : ∀ n : nat,
    (0 ≤ 2 - Z.rem (Z.of_nat n) 3 < 3)%Z
    ∧ ((2 - Z.rem (Z.of_nat n) 3 + Z.of_nat n) mod 3 = 2)%Z).
  { intros n. rewrite Z.rem_mod_nonneg by lia. Z.div_mod_to_equations. lia. }
  unfold BLI_str_format_int_grouped_ex.
  destruct Hsign as [->| ->].
  - cbn [app] in *.
    rewrite (proj2 (Ascii.eqb_neq _ _) Hminus). simpl mbind.
    destruct (Hcommas (length digits)) as [Hc Hinv].
    pose proof (format_int_grouped_loop_spec digits [] dst _ Hnf Hne Hc Hinv Hroom) as Hloop.
    cbn [app length] in Hloop. rewrite Hloop. simpl mbind.
    rewrite Nat.add_1_r.
    destruct (drop (length (grouped digits)) dst) as [|x rest] eqn:Hd.
    { apply (f_equal length) in Hd. rewrite length_drop in Hd. simpl in Hd. lia. }
    replace (drop (S (length (grouped digits))) dst) with rest.
    2:{ replace (S (length (grouped digits))) with (length (grouped digits) + 1) by lia.
        by rewrite <- drop_drop, Hd. }
    pose proof (store_after (grouped digits) ","%char rest NUL) as Hs.
    simpl in Hs. rewrite Hs. done.
  - destruct dst as [|x dst]; [simpl in Hroom; lia|].
    cbn [app length] in *. rewrite read_cons_0. cbn [Ascii.eqb Bool.eqb].
    change (store (x :: dst) 0 "-"%char) with (Some ("-"%char :: dst)).
    simpl mbind. simpl drop. rewrite drop_0.
    replace (Z.of_nat (S (length digits)) - 1)%Z with (Z.of_nat (length digits)) by lia.
    destruct (Hcommas (length digits)) as [Hc Hinv].
    pose proof (format_int_grouped_loop_spec digits ["-"%char] dst _ Hnf Hne Hc Hinv
                  ltac:(lia)) as Hloop.
    cbn [app length] in Hloop. rewrite Hloop. simpl mbind.
    replace (1 + length (grouped digits) + 1) with (S (S (length (grouped digits)))) by lia.
    destruct (drop (length (grouped digits)) dst) as [|y rest] eqn:Hd.
    { apply (f_equal length) in Hd. rewrite length_drop in Hd. simpl in Hd. lia. }
    replace (drop (S (length (grouped digits))) dst) with rest.
    2:{ replace (S (length (grouped digits))) with (length (grouped digits) + 1) by lia.
        by rewrite <- drop_drop, Hd. }
    pose proof (store_after ("-"%char :: grouped digits) ","%char rest NUL) as Hs.
    cbn [app length] in Hs. rewrite ?Nat.add_1_r. rewrite Hs. done.
Qed.

Lemma BLI_str_format_int_grouped_ex_groups_witness :
  BLI_str_format_int_grouped_ex (lit "-1234567") (lit "ZZZZZZZZZZZZZZZZ") 8
  = Some (lit "-1,234,567" ++ NUL :: lit "ZZZZZ", 10).
Proof.
  apply (BLI_str_format_int_grouped_ex_groups
           ["-"%char] (lit "1234567") (lit "ZZZZZZZZZZZZZZZZ")).
  - by right.
  - unfold nul_free. repeat constructor.
  - discriminate.
  - discriminate.
  - simpl. lia.
Defined.

(** ** Comparison without padding *)

Lemma skip_pad_spec str pad :
  is_nul pad = false →
  ∃ s, skip_pad str pad = Some s ∧ cstr s = drop_leading pad (cstr str).
Proof.
  intros Hpad. induction str as [|c str IH].
  - simpl. rewrite Hpad. by exists [].
  - cbn [skip_pad]. destruct (Ascii.eqb_spec c pad) as [->|Hne].
    + destruct IH as (s & Hs & Hc). exists s. split; [done|].
      rewrite (cstr_cons pad) by done. cbn [drop_leading]. by rewrite Ascii.eqb_refl.
    + exists (c :: str). split; [done|].
      destruct (is_nul c) eqn:Hc.
      * by rewrite cstr_cons_nul.
      * rewrite cstr_cons by done. cbn [drop_leading].
        by rewrite (proj2 (Ascii.eqb_neq _ _) Hne).
Qed.

Lemma strip_pad_len_spec pad t : ∀ r,
  strip_pad_len (t ++ r) pad (length t)
  = length (reverse (drop_leading pad (reverse t)))
  ∧ take (length (reverse (drop_leading pad (reverse t)))) t
    = reverse (drop_leading pad (reverse t)).
Proof.
  induction t as [|c t IH] using rev_ind; intros r; [done|].
  rewrite reverse_app. cbn [reverse app]. rewrite reverse_singleton. cbn [app].
  replace (length (t ++ [c])) with (S (length t)) by (rewrite length_app; simpl; lia).
  cbn [strip_pad_len drop_leading].
  assert (Hread : read ((t ++ [c]) ++ r) (length t) = c).
  { rewrite <- app_assoc. cbn [app]. unfold read. by rewrite list_lookup_middle. }
  rewrite Hread. destruct (Ascii.eqb c pad).
  - rewrite <- app_assoc. destruct (IH ([c] ++ r)) as [IH1 IH2].
    split; [done|]. rewrite take_app_le; [done|].
    apply (f_equal length) in IH2. rewrite length_take in IH2. lia.
  - rewrite reverse_cons, reverse_involutive.
    split; [by rewrite length_app; simpl; lia|]. by rewrite firstn_all.
Qed.

Lemma strncmp_zero n : ∀ s1 s2,
  strncmp s1 s2 n = 0%Z ↔ take n (cstr s1) = take n (cstr s2).
Proof.
  induction n as [|n IH]; intros s1 s2; [done|].
  cbn [strncmp]. rewrite (cstr_unfold s1), (cstr_unfold s2).
  destruct (Ascii.eqb_spec (read s1 0) (read s2 0)) as [E|Hne].
  - rewrite <- E. destruct (is_nul (read s1 0)); [done|].
    cbn [firstn]. rewrite IH. split; [by intros -> | by intros [= ->]].
  - split.
    + intros E. exfalso. apply Hne, uchar_val_inj. lia.
    + destruct (is_nul (read s1 0)) eqn:H1, (is_nul (read s2 0)) eqn:H2;
        cbn [firstn]; intros E; try discriminate E.
      * apply is_nul_true in H1, H2. congruence.
      * injection E as E _. done.
Qed.

(** X23: with a [pad] that is not zero, [BLI_strcmp_ignore_pad] returns [0]
    exactly when the two texts are equal once their leading and trailing
    [pad] bytes are removed. *)
Theorem BLI_strcmp_ignore_pad_zero (str1 str2 : list char) (pad : char) :
  is_nul pad = false →
  ∃ r,
    BLI_strcmp_ignore_pad str1 str2 pad = Some r
    ∧ (r = 0%Z ↔ trim_pad pad (cstr str1) = trim_pad pad (cstr str2)).
Proof.
  intros Hpad. unfold BLI_strcmp_ignore_pad, trim_pad.
  destruct (skip_pad_spec str1 pad Hpad) as (s1 & -> & <-).
  destruct (skip_pad_spec str2 pad Hpad) as (s2 & -> & <-).
  simpl mbind.
  pose proof (strip_pad_len_spec pad (cstr s1) (drop (strlen s1) s1)) as [Hl1 Ht1].
  pose proof (strip_pad_len_spec pad (cstr s2) (drop (strlen s2) s2)) as [Hl2 Ht2].
  rewrite length_cstr, <- take_drop_cstr in Hl1, Hl2.
  set (core1 := reverse (drop_leading pad (reverse (cstr s1)))) in *.
  set (core2 := reverse (drop_leading pad (reverse (cstr s2)))) in *.
  rewrite Hl1, Hl2.
  assert (Hne : ∀ z w : Z, w ≠ 0%Z → (if (z =? 0)%Z then w else z) ≠ 0%Z).
  { intros z w Hw. by destruct (Z.eqb_spec z 0). }
  case_decide as Heq.
  - eexists. split; [done|]. rewrite strncmp_zero.
    rewrite <- Heq at 1. by rewrite Ht1, Ht2.
  - case_decide as Hlt; (eexists; split; [done|]); split.
    + intros E. by apply Hne in E.
    + intros E. by rewrite E in Heq.
    + intros E. by apply Hne in E.
    + intros E. by rewrite E in Heq.
Qed.

Lemma BLI_strcmp_ignore_pad_zero_witness :
  ∃ r, BLI_strcmp_ignore_pad (lit "*world") (lit "world**") "*" = Some r
       ∧ (r = 0%Z ↔ trim_pad "*" (cstr (lit "*world")) = trim_pad "*" (cstr (lit "world**"))).
Proof.
  apply (BLI_strcmp_ignore_pad_zero (lit "*world") (lit "world**") "*"). reflexivity.
Defined.


(** ** Words *)

Lemma read_lt_strlen s : ∀ j, j < strlen s → is_nul (read s j) = false.
Proof.
  induction s as [|c s IH]; intros j Hj; [simpl in Hj; lia|].
  cbn [strlen] in Hj. destruct (is_nul c) eqn:Hc; [lia|].
  destruct j as [|j]; [done|]. rewrite read_cons_S. apply IH. lia.
Qed.

Lemma read_strlen s : is_nul (read s (strlen s)) = true.
Proof.
  induction s as [|c s IH]; [done|]. cbn [strlen].
  destruct (is_nul c) eqn:Hc; [done|]. by rewrite read_cons_S.
Qed.

Lemma drop_cons_read str i c s' :
  drop i str = c :: s' → read str i = c ∧ drop (S i) str = s'.
Proof.
  intros Hd. split.
  - unfold read. pose proof (lookup_drop str i 0) as H.
    rewrite Hd, Nat.add_0_r in H. by rewrite <- H.
  - replace (S i) with (i + 1) by lia. by rewrite <- drop_drop, Hd.
Qed.

Section split_words.
Variables (str : list char) (len : nat) (delim : char) (words_max : Z) (size : nat).
Hypothesis size_words_max : (words_max ≤ Z.of_nat size)%Z.

Local Abbreviation scan := (min len (strlen str)).

Lemma split_words_skip_spec s : ∀ i,
  s = drop i str → i ≤ len → i ≤ strlen str →
  (i = 0 ∨ read str (i - 1) = delim) →
  ∃ i', split_words_skip s i len delim = (i', drop i' str)
        ∧ i' ≤ len ∧ i' ≤ strlen str
        ∧ (i' = 0 ∨ read str (i' - 1) = delim).
Proof.
  induction s as [|c s IH]; intros i Hs Hlen Hstr Hprev.
  - exists i. rewrite <- Hs. done.
  - symmetry in Hs. destruct (drop_cons_read _ _ _ _ Hs) as [Hc Hs'].
    cbn [split_words_skip].
    destruct (bool_decide (i < len) && negb (is_nul c)) eqn:Hcond;
      [|exists i; by rewrite Hs].
    apply andb_true_iff in Hcond as [Hi%bool_decide_eq_true Hnul%negb_true_iff].
    destruct (Ascii.eqb_spec c delim) as [E|Hne]; cbn [negb];
      [|exists i; by rewrite Hs].
    assert (i < strlen str).
    { destruct (decide (i = strlen str)) as [->|]; [|lia].
      rewrite <- Hc, read_strlen in Hnul. done. }
    apply IH; [done | lia | lia |]. right.
    replace (S i - 1) with i by lia. congruence.
Qed.

Lemma split_words_loop_spec s : ∀ i r n cs,
  s = drop i str → split_inv str len delim words_max size r n i cs →
  ∃ r' n' i' cs',
    split_words_loop s i len delim r n words_max cs = Some (r', n', i', cs')
    ∧ split_inv str len delim words_max size r' n' i' cs'
    ∧ (cs' = false → i' = scan).
Proof.
  induction s as [|c s IH]; intros i r n cs Hs Hinv.
  - exists r, n, i, cs. split; [done|]. split; [done|]. intros _.
    destruct Hinv as (Hlen & Hstr & _).
    symmetry in Hs. apply (f_equal length) in Hs. rewrite length_drop in Hs.
    pose proof (strlen_le_length str). simpl in Hs. lia.
  - symmetry in Hs. destruct (drop_cons_read _ _ _ _ Hs) as [Hc Hs'].
    cbn [split_words_loop]. pose proof Hinv as Hinv0.
    destruct Hinv as (Hlen & Hstr & Hsize & Hmax & Hdone & Hsorted & Htrue & Hfalse).
    destruct (bool_decide (i < len) && negb (is_nul c)
              && bool_decide (Z.of_nat n < words_max)%Z) eqn:Hcond.
    2:{ exists r, n, i, cs. split; [done|].
        split; [done|]. intros ->.
        destruct (Hfalse eq_refl) as [Hn _].
        rewrite (bool_decide_eq_true_2 _ Hn), andb_true_r in Hcond.
        apply andb_false_iff in Hcond as [Hi%bool_decide_eq_false|Hnul%negb_false_iff].
        - lia.
        - destruct (decide (i = strlen str)) as [->|]; [lia|].
          rewrite <- Hc, read_lt_strlen in Hnul by lia. done. }
    apply andb_true_iff in Hcond as [Hcond Hn%bool_decide_eq_true].
    apply andb_true_iff in Hcond as [Hi%bool_decide_eq_true Hnul%negb_true_iff].
    assert (Hilt : i < strlen str).
    { destruct (decide (i = strlen str)) as [->|]; [|lia].
      rewrite <- Hc, read_strlen in Hnul. done. }
    assert (Hnsize : n < length r) by lia.
    destruct (lookup_lt_is_Some_2 r n Hnsize) as [w0 Hw0].
    destruct (Ascii.eqb_spec c delim) as [E|Hne], cs; cbn [negb andb].
    + (* a delimiter between words *)
      apply IH; [done|]. unfold split_inv.
      split_and!; [lia | lia | done | done | | done | | done].
      * intros k Hk. destruct (Hdone k Hk) as (w & ? & ? & ?). exists w.
        split; [done|]. split; [done | lia].
      * intros _. destruct (Htrue eq_refl). split; [|lia].
        right. replace (S i - 1) with i by lia. congruence.
    + (* the delimiter that ends a word *)
      destruct (Hfalse eq_refl) as (_ & w & Hw & Hwi & Hbytes & Hstart & Hcount & Hprev).
      unfold set_word_len. rewrite Hw. simpl mbind.
      apply IH; [done|]. unfold split_inv.
      split_and!; [lia | lia | by rewrite length_insert | lia | | | | done].
      * intros k Hk. destruct (decide (k = n)) as [->|Hkn].
        -- exists (w.1, i - w.1). rewrite list_lookup_insert_eq by done.
           split; [done|]. split; [|simpl; lia].
           unfold is_word. simpl. split_and!; [lia | lia | | done |].
           ++ intros j Hj. apply Hbytes. lia.
           ++ right. replace (w.1 + (i - w.1)) with i by lia. congruence.
        -- destruct (Hdone k ltac:(lia)) as (w' & ? & ? & ?). exists w'.
           rewrite list_lookup_insert_ne by done. split; [done|]. split; [done | lia].
      * intros k1 k2 w1 w2 Hk H1 H2.
        rewrite list_lookup_insert_ne in H1 by lia.
        destruct (decide (k2 = n)) as [->|Hkn].
        -- rewrite list_lookup_insert_eq in H2 by done. injection H2 as <-. simpl.
           apply (Hprev k1 w1); [lia | done].
        -- rewrite list_lookup_insert_ne in H2 by done.
           apply (Hsorted k1 k2 w1 w2); [lia | done | done].
      * intros _. split; [|lia].
        right. replace (S i - 1) with i by lia. congruence.
    + (* the first byte of a word *)
      destruct (Htrue eq_refl) as [Hprev Hcount].
      unfold set_word_start. rewrite Hw0. simpl mbind.
      apply IH; [done|]. unfold split_inv.
      split_and!; [lia | lia | by rewrite length_insert | done | | | done |].
      * intros k Hk. destruct (Hdone k Hk) as (w & ? & ? & ?). exists w.
        rewrite list_lookup_insert_ne by lia. split; [done|]. split; [done | lia].
      * intros k1 k2 w1 w2 Hk H1 H2.
        rewrite list_lookup_insert_ne in H1, H2 by lia.
        apply (Hsorted k1 k2 w1 w2); [lia | done | done].
      * intros _. split; [done|].
        exists (i, w0.2). rewrite list_lookup_insert_eq by done. simpl.
        split_and!; [done | lia | | done | lia |].
        -- intros j Hj. replace j with i by lia. congruence.
        -- intros k w' Hk Hw'. rewrite list_lookup_insert_ne in Hw' by lia.
           destruct (Hdone k Hk) as (w & Hw & _ & ?). congruence.
    + (* a further byte of a word *)
      destruct (Hfalse eq_refl) as (_ & w & Hw & Hwi & Hbytes & Hstart & Hcount & Hprev).
      apply IH; [done|]. unfold split_inv.
      split_and!; [lia | lia | done | done | | done | done |].
      * intros k Hk. destruct (Hdone k Hk) as (w' & ? & ? & ?). exists w'.
        split; [done|]. split; [done | lia].
      * intros _. split; [done|]. exists w.
        split_and!; [done | lia | | done | lia | done].
        intros j Hj. destruct (decide (j = i)) as [->|]; [congruence|].
        apply Hbytes. lia.
Qed.

Lemma BLI_string_find_split_words_spec r_words :
  length r_words = size →
  ∃ r n,
    BLI_string_find_split_words str len delim r_words words_max = Some (r, n)
    ∧ length r = size
    ∧ (Z.of_nat n ≤ Z.max words_max 0)%Z
    ∧ (Z.of_nat n ≤ BLI_string_max_possible_word_count (Z.of_nat scan))%Z
    ∧ (∀ k, k < n → ∃ w, r !! k = Some w ∧ is_word str scan delim w)
    ∧ (∀ k1 k2 w1 w2, k1 < k2 < n → r !! k1 = Some w1 → r !! k2 = Some w2 →
                      w1.1 + w1.2 < w2.1).
Proof.
  intros Hsize. unfold BLI_string_find_split_words.
  destruct (split_words_skip_spec str 0) as (i0 & -> & Hlen0 & Hstr0 & Hprev0);
    [done | lia | lia | by left |].
  destruct (split_words_loop_spec (drop i0 str) i0 r_words 0 true) as
    (r' & n' & i' & cs' & -> & Hinv & Hstop); [done | |].
  { unfold split_inv. split_and!; [done | done | done | lia | | | | done].
    - intros k Hk. lia.
    - intros k1 k2 w1 w2 Hk. lia.
    - intros _. split; [done | lia]. }
  simpl mbind.
  destruct Hinv as (Hlen & Hstr & Hsz & Hmax & Hdone & Hsorted & Htrue & Hfalse).
  assert (Hquot : ∀ m : nat, 2 * m ≤ scan + 1 →
            (Z.of_nat m ≤ BLI_string_max_possible_word_count (Z.of_nat scan))%Z).
  { intros m Hm. unfold BLI_string_max_possible_word_count.
    rewrite Z.quot_div_nonneg by lia. Z.div_mod_to_equations. lia. }
  destruct cs'; cbn [negb].
  - exists r', n'. destruct (Htrue eq_refl) as [_ Hcount].
    split_and!; [done | done | done | | | done].
    + apply Hquot. lia.
    + intros k Hk. destruct (Hdone k Hk) as (w & ? & ? & _). by exists w.
  - destruct (Hfalse eq_refl) as (Hn & w & Hw & Hwi & Hbytes & Hstart & Hcount & Hprev).
    specialize (Hstop eq_refl). unfold set_word_len. rewrite Hw. simpl mbind.
    assert (Hnsz : n' < length r') by (by apply lookup_lt_Some in Hw).
    exists (<[n':=(w.1, i' - w.1)]> r'), (S n').
    split_and!; [done | by rewrite length_insert | lia | | |].
    + apply Hquot. lia.
    + intros k Hk. destruct (decide (k = n')) as [->|Hkn].
      * exists (w.1, i' - w.1). rewrite list_lookup_insert_eq by done.
        split; [done|]. unfold is_word. simpl.
        split_and!; [lia | lia | | done | left; lia].
        intros j Hj. apply Hbytes. lia.
      * destruct (Hdone k ltac:(lia)) as (w' & ? & ? & _). exists w'.
        by rewrite list_lookup_insert_ne.
    + intros k1 k2 w1 w2 Hk H1 H2.
      rewrite list_lookup_insert_ne in H1 by lia.
      destruct (decide (k2 = n')) as [->|Hkn].
      * rewrite list_lookup_insert_eq in H2 by done. injection H2 as <-. simpl.
        apply (Hprev k1 w1); [lia | done].
      * rewrite list_lookup_insert_ne in H2 by done.
        apply (Hsorted k1 k2 w1 w2); [lia | done | done].
Qed.
End split_words.

(** X24: [BLI_string_find_split_words], given an array of at least
    [words_max] rows, stays inside the array and returns at most [words_max]
    and at most [BLI_string_max_possible_word_count] words of the scanned
    part of the text (its first [len] bytes, or up to its terminator); each
    row returned is a non-empty range free of the delimiter, starting at the
    start of the text or just after a delimiter and ending at the end of the
    scanned part or just before a delimiter, and the rows come in the order
    of the text, without overlap. *)
Theorem BLI_string_find_split_words_words str len delim r_words words_max :
  (words_max ≤ Z.of_nat (length r_words))%Z →
  ∃ r n,
    BLI_string_find_split_words str len delim r_words words_max = Some (r, n)
    ∧ length r = length r_words
    ∧ (Z.of_nat n ≤ Z.max words_max 0)%Z
    ∧ (Z.of_nat n
       ≤ BLI_string_max_possible_word_count (Z.of_nat (min len (strlen str))))%Z
    ∧ (∀ k, k < n →
         ∃ w, r !! k = Some w ∧ is_word str (min len (strlen str)) delim w)
    ∧ (∀ k1 k2 w1 w2, k1 < k2 < n → r !! k1 = Some w1 → r !! k2 = Some w2 →
                      w1.1 + w1.2 < w2.1).
Proof.
  intros Hmax.
  exact (BLI_string_find_split_words_spec str len delim words_max
           (length r_words) Hmax r_words eq_refl).
Qed.

Lemma BLI_string_find_split_words_words_witness :
  ∃ r n,
    BLI_string_find_split_words (lit " ab cd") 6 " " (replicate 3 (0, 0)) 3
      = Some (r, n)
    ∧ length r = length (replicate 3 (0, 0))
    ∧ (Z.of_nat n ≤ Z.max 3 0)%Z
    ∧ (Z.of_nat n
       ≤ BLI_string_max_possible_word_count
           (Z.of_nat (min 6 (strlen (lit " ab cd")))))%Z
    ∧ (∀ k, k < n →
         ∃ w, r !! k = Some w
              ∧ is_word (lit " ab cd") (min 6 (strlen (lit " ab cd"))) " " w)
    ∧ (∀ k1 k2 w1 w2, k1 < k2 < n → r !! k1 = Some w1 → r !! k2 = Some w2 →
                      w1.1 + w1.2 < w2.1).
Proof.
  apply (BLI_string_find_split_words_words (lit " ab cd") 6 " "
           (replicate 3 (0, 0)) 3).
  simpl. lia.
Defined.

(** ** Partition *)

Lemma strchr_spec s c :
  is_nul c = false →
  match strchr s c with
  | Some k => k < strlen s ∧ read s k = c ∧ ∀ j, j < k → read s j ≠ c
  | None => ∀ j, j < strlen s → read s j ≠ c
  end.
Proof.
  intros Hc. induction s as [|x s IH]; cbn [strchr strlen].
  - rewrite Hc. intros j Hj. lia.
  - destruct (Ascii.eqb_spec x c) as [->|Hne].
    + rewrite Hc. split_and!; [lia | done | intros j Hj; lia].
    + destruct (is_nul x) eqn:Hx; [intros j Hj; lia|].
      destruct (strchr s c) as [k|]; simpl.
      * destruct IH as (Hk & Hr & Hfirst). split_and!; [lia | done |].
        intros [|j] Hj; [done|]. rewrite read_cons_S. apply Hfirst. lia.
      * intros [|j] Hj; [done|]. rewrite read_cons_S. apply IH. lia.
Qed.

Lemma strrchr_spec s c :
  is_nul c = false →
  match strrchr s c with
  | Some k => k < strlen s ∧ read s k = c ∧ ∀ j, k < j < strlen s → read s j ≠ c
  | None => ∀ j, j < strlen s → read s j ≠ c
  end.
Proof.
  intros Hc. induction s as [|x s IH]; cbn [strrchr strlen].
  - rewrite Hc. intros j Hj. lia.
  - destruct (is_nul x) eqn:Hx.
    + destruct (Ascii.eqb_spec x c) as [->|Hne]; [congruence|]. intros j Hj. lia.
    + destruct (strrchr s c) as [k|].
      * destruct IH as (Hk & Hr & Hlast). split_and!; [lia | done |].
        intros [|j] Hj; [lia|]. rewrite read_cons_S. apply Hlast. lia.
      * destruct (Ascii.eqb_spec x c) as [->|Hne].
        -- split_and!; [lia | done |].
           intros [|j] Hj; [lia|]. rewrite read_cons_S. apply IH. lia.
        -- intros [|j] Hj; [done|]. rewrite read_cons_S. apply IH. lia.
Qed.

Lemma partition_rscan_spec str c k :
  match partition_rscan str c k with
  | Some t => t < k ∧ read str t = c ∧ ∀ j, t < j < k → read str j ≠ c
  | None => ∀ j, j < k → read str j ≠ c
  end.
Proof.
  induction k as [|k IH]; cbn [partition_rscan]; [intros j Hj; lia|].
  destruct (Ascii.eqb_spec (read str k) c) as [E|Hne]; cbn [negb].
  - split_and!; [lia | done | intros j Hj; lia].
  - destruct (partition_rscan str c k) as [t|].
    + destruct IH as (Ht & Hr & Hlast). split_and!; [lia | done |].
      intros j Hj. destruct (decide (j = k)) as [->|]; [done|]. apply Hlast. lia.
    + intros j Hj. destruct (decide (j = k)) as [->|]; [done|]. apply IH. lia.
Qed.

Local Ltac solve_elem :=
  first [ by apply list_elem_of_singleton
        | apply elem_of_app; by left
        | apply elem_of_app; by right
        | apply elem_of_app; right; by apply list_elem_of_singleton
        | apply not_elem_of_nil ].

Section partition.
Variables (str : list char) (end_ : option nat) (from_right : bool).

Local Abbreviation region := (partition_region str end_ from_right).

Lemma partition_tmp_spec c :
  is_nul c = false →
  partition_inv str end_ from_right [c] (partition_tmp str end_ c from_right).
Proof.
  intros Hc. unfold partition_inv, partition_tmp, beyond, partition_region.
  pose proof (strchr_spec str c Hc) as Hl.
  pose proof (strrchr_spec str c Hc) as Hr.
  destruct end_ as [e|], from_right.
  - pose proof (partition_rscan_spec str c e) as Hs.
    destruct (partition_rscan str c e) as [t|].
    + destruct Hs as (? & ? & Hs). split_and!; [done | solve_elem |].
      intros j Hj ?%list_elem_of_singleton. by apply (Hs j).
    + intros j Hj ?%list_elem_of_singleton. by apply (Hs j).
  - destruct (strchr str c) as [t|].
    + destruct Hl as (? & ? & Hl). case_bool_decide.
      * intros j Hj ?%list_elem_of_singleton. apply (Hl j); [lia | done].
      * split_and!; [lia | solve_elem |].
        intros j Hj ?%list_elem_of_singleton. by apply (Hl j).
    + intros j Hj ?%list_elem_of_singleton. apply (Hl j); [lia | done].
  - destruct (strrchr str c) as [t|].
    + destruct Hr as (? & ? & Hr). split_and!; [done | solve_elem |].
      intros j Hj ?%list_elem_of_singleton. by apply (Hr j).
    + intros j Hj ?%list_elem_of_singleton. by apply (Hr j).
  - destruct (strchr str c) as [t|].
    + destruct Hl as (? & ? & Hl). split_and!; [done | solve_elem |].
      intros j Hj ?%list_elem_of_singleton. by apply (Hl j).
    + intros j Hj ?%list_elem_of_singleton. by apply (Hl j).
Qed.

Lemma partition_loop_spec d : ∀ seen sep,
  partition_inv str end_ from_right seen sep →
  partition_inv str end_ from_right (seen ++ cstr d)
    (partition_loop str end_ d from_right sep).
Proof.
  induction d as [|c d IH]; intros seen sep Hinv; cbn [partition_loop].
  - by rewrite app_nil_r.
  - destruct (is_nul c) eqn:Hc; [by rewrite cstr_cons_nul, app_nil_r|].
    rewrite (cstr_cons _ _ Hc), (cons_middle c seen), app_assoc. apply IH.
    pose proof (partition_tmp_spec c Hc) as Htmp.
    unfold partition_inv, beyond in *.
    destruct (partition_tmp str end_ c from_right) as [t|].
    + destruct Htmp as (Ht & Hrt & Htmp).
      assert (Hnew : ∀ j, read str j ∉ seen → read str j ∉ [c] → read str j ∉ seen ++ [c])
        by (intros j ? ?; by apply not_elem_of_app).
      destruct sep as [p|].
      * destruct Hinv as (Hp & Hrp & Hinv).
        destruct from_right; case_bool_decide.
        -- split_and!; [done | solve_elem |]. intros j Hj.
           apply Hnew; [apply Hinv; lia | by apply Htmp].
        -- split_and!; [done | solve_elem |]. intros j Hj.
           apply Hnew; [by apply Hinv | apply Htmp; lia].
        -- split_and!; [done | solve_elem |]. intros j Hj.
           apply Hnew; [apply Hinv; lia | by apply Htmp].
        -- split_and!; [done | solve_elem |]. intros j Hj.
           apply Hnew; [by apply Hinv | apply Htmp; lia].
      * assert (Hgoal : t < region ∧ read str t ∈ seen ++ [c]
                        ∧ ∀ j, (if from_right then t < j < region else j < t) →
                               read str j ∉ seen ++ [c]).
        { split_and!; [done | solve_elem |]. intros j Hj.
          apply Hnew; [|by apply Htmp]. apply Hinv. destruct from_right; lia. }
        by destruct from_right.
    + assert (Hnew : ∀ j, read str j ∉ seen → read str j ∉ [c] → read str j ∉ seen ++ [c])
        by (intros j ? ?; by apply not_elem_of_app).
      destruct sep as [p|].
      * destruct Hinv as (Hp & Hrp & Hinv). split_and!; [done | solve_elem |].
        intros j Hj. apply Hnew; [by apply Hinv|]. apply Htmp.
        destruct from_right; lia.
      * intros j Hj. apply Hnew; [by apply Hinv | by apply Htmp].
Qed.

Lemma BLI_str_partition_ex_spec delim :
  end_ ≠ Some 0 →
  ∃ ret sep suf,
    BLI_str_partition_ex str end_ delim from_right = Some (ret, sep, suf)
    ∧ partition_inv str end_ from_right (cstr delim) sep
    ∧ match sep with
      | Some k => ret = k ∧ suf = Some (S k)
      | None => ret = match end_ with Some e => e | None => strlen str end ∧ suf = None
      end.
Proof.
  intros Hend. unfold BLI_str_partition_ex.
  assert (BLI_assert (match end_ with
                      | None => true
                      | Some e => bool_decide (0 < e)
                      end) = Some ()) as ->.
  { destruct end_ as [[|e]|]; [done | |done].
    by rewrite bool_decide_eq_true_2 by lia. }
  simpl mbind.
  pose proof (partition_loop_spec delim [] None) as Hloop.
  rewrite app_nil_l in Hloop.
  destruct (partition_loop str end_ delim from_right None) as [p|].
  - exists p, (Some p), (Some (S p)). split_and!; [done | | done | done].
    apply Hloop. intros j Hj. solve_elem.
  - eexists _, None, None. split_and!; [done | | done | done].
    apply Hloop. intros j Hj. solve_elem.
Qed.
End partition.

(** X25: searching from the left, with [end] null or past [str],
    [BLI_str_partition_ex] sets [*sep] to the first byte of the text, before
    [end] if given, that is one of the delimiters, sets [*suf] to the byte
    after it and returns its offset; when no such byte exists both pointers
    are null and the length up to [end], or else of the text, is returned. *)
Theorem BLI_str_partition_ex_leftmost str end_ delim :
  end_ ≠ Some 0 →
  ∃ ret sep suf,
    BLI_str_partition_ex str end_ delim false = Some (ret, sep, suf)
    ∧ match sep with
      | Some k =>
          ret = k ∧ suf = Some (S k)
          ∧ k < partition_region str end_ false
          ∧ read str k ∈ cstr delim
          ∧ ∀ j, j < k → read str j ∉ cstr delim
      | None =>
          ret = match end_ with Some e => e | None => strlen str end
          ∧ suf = None
          ∧ ∀ j, j < partition_region str end_ false → read str j ∉ cstr delim
      end.
Proof.
  intros Hend.
  destruct (BLI_str_partition_ex_spec str end_ false delim Hend)
    as (ret & sep & suf & Hcall & Hinv & Hret).
  exists ret, sep, suf. split; [done|].
  destruct sep as [k|].
  - destruct Hret as [-> ->], Hinv as (? & ? & Hfirst). by split_and!.
  - destruct Hret as [-> ->]. by split_and!.
Qed.

Lemma BLI_str_partition_ex_leftmost_witness :
  ∃ ret sep suf,
    BLI_str_partition_ex (lit "a/b.c") (Some 4) (lit "./") false = Some (ret, sep, suf)
    ∧ match sep with
      | Some k =>
          ret = k ∧ suf = Some (S k)
          ∧ k < partition_region (lit "a/b.c") (Some 4) false
          ∧ read (lit "a/b.c") k ∈ cstr (lit "./")
          ∧ ∀ j, j < k → read (lit "a/b.c") j ∉ cstr (lit "./")
      | None =>
          ret = 4
          ∧ suf = None
          ∧ ∀ j, j < partition_region (lit "a/b.c") (Some 4) false →
                 read (lit "a/b.c") j ∉ cstr (lit "./")
      end.
Proof.
  apply (BLI_str_partition_ex_leftmost (lit "a/b.c") (Some 4) (lit "./")).
  discriminate.
Defined.

(** X26: searching from the right, with [end] null or past [str],
    [BLI_str_partition_ex] sets [*sep] to the last byte before [end], or
    else of the text, that is one of the delimiters, sets [*suf] to the byte
    after it and returns its offset; when no such byte exists both pointers
    are null and the length up to [end], or else of the text, is returned. *)
Theorem BLI_str_partition_ex_rightmost str end_ delim :
  end_ ≠ Some 0 →
  ∃ ret sep suf,
    BLI_str_partition_ex str end_ delim true = Some (ret, sep, suf)
    ∧ match sep with
      | Some k =>
          ret = k ∧ suf = Some (S k)
          ∧ k < partition_region str end_ true
          ∧ read str k ∈ cstr delim
          ∧ ∀ j, k < j < partition_region str end_ true → read str j ∉ cstr delim
      | None =>
          ret = match end_ with Some e => e | None => strlen str end
          ∧ suf = None
          ∧ ∀ j, j < partition_region str end_ true → read str j ∉ cstr delim
      end.
Proof.
  intros Hend.
  destruct (BLI_str_partition_ex_spec str end_ true delim Hend)
    as (ret & sep & suf & Hcall & Hinv & Hret).
  exists ret, sep, suf. split; [done|].
  destruct sep as [k|].
  - destruct Hret as [-> ->], Hinv as (? & ? & Hlast). by split_and!.
  - destruct Hret as [-> ->]. by split_and!.
Qed.

Lemma BLI_str_partition_ex_rightmost_witness :
  ∃ ret sep suf,
    BLI_str_partition_ex (lit "a/b.c") None (lit "./") true = Some (ret, sep, suf)
    ∧ match sep with
      | Some k =>
          ret = k ∧ suf = Some (S k)
          ∧ k < partition_region (lit "a/b.c") None true
          ∧ read (lit "a/b.c") k ∈ cstr (lit "./")
          ∧ ∀ j, k < j < partition_region (lit "a/b.c") None true →
                 read (lit "a/b.c") j ∉ cstr (lit "./")
      | None =>
          ret = strlen (lit "a/b.c")
          ∧ suf = None
          ∧ ∀ j, j < partition_region (lit "a/b.c") None true →
                 read (lit "a/b.c") j ∉ cstr (lit "./")
      end.
Proof.
  apply (BLI_str_partition_ex_rightmost (lit "a/b.c") None (lit "./")).
  discriminate.
Defined.

(** ** Trailing zeros *)

Lemma strchr_first a c r :
  c ∉ a → nul_free a → strchr (a ++ c :: r) c = Some (length a).
Proof.
  induction a as [|x a IH]; intros Hc Ha; cbn [strchr app length].
  - by rewrite Ascii.eqb_refl.
  - apply not_elem_of_cons in Hc as [Hne Hc]. apply nul_free_cons in Ha as [Hx Ha].
    destruct (Ascii.eqb_spec x c) as [E|_]; [congruence|].
    by rewrite Hx, IH.
Qed.

Lemma rstrip_float_zero_loop_spec pad pre x m : ∀ tail tot,
  ∃ d z,
    m = d ++ replicate z "0"%char
    ∧ rstrip_float_zero_loop (pre ++ x :: m ++ tail) pad (length pre) (length m) tot
      = (pre ++ x :: d ++ replicate z pad ++ tail, (tot + Z.of_nat z)%Z)
    ∧ last d ≠ Some "0"%char.
Proof.
  induction m as [|c m IH] using rev_ind; intros tail tot.
  - exists [], 0. cbn [length rstrip_float_zero_loop]. by rewrite Z.add_0_r.
  - rewrite length_app, Nat.add_1_r. cbn [rstrip_float_zero_loop].
    assert (Hsplit : pre ++ x :: (m ++ [c]) ++ tail = (pre ++ x :: m) ++ c :: tail)
      by (by rewrite <- !app_assoc).
    assert (Hlen : length pre + S (length m) = length (pre ++ x :: m) + 0)
      by (rewrite length_app; simpl; lia).
    rewrite Hsplit, Hlen.
    assert (read ((pre ++ x :: m) ++ c :: tail) (length (pre ++ x :: m) + 0) = c) as ->.
    { apply read_lookup, list_lookup_middle. lia. }
    destruct (Ascii.eqb_spec c "0"%char) as [->|Hne].
    + rewrite insert_app_r. cbn [insert list_insert].
      destruct (IH (pad :: tail) (tot + 1)%Z) as (d & z & Hm & Hrun & Hlast).
      exists d, (S z). split_and!; [| |done].
      * by rewrite Hm, <- app_assoc, replicate_S_end.
      * rewrite <- app_assoc. cbn [app]. rewrite Hrun.
        rewrite replicate_S_end, <- !app_assoc. cbn [app]. f_equal. lia.
    + exists (m ++ [c]), 0. split_and!.
      * by rewrite app_nil_r.
      * by rewrite Z.add_0_r, <- !app_assoc.
      * rewrite last_snoc. congruence.
Qed.

(** X27: when the text of [str] holds a [.], [BLI_str_rstrip_float_zero]
    overwrites with [pad] the zeros that end the text after the first [.],
    all of them except a zero standing right after that [.], leaves every
    other byte as it was and returns the number of zeros overwritten. *)
Theorem BLI_str_rstrip_float_zero_strips str pad a b :
  cstr str = a ++ "."%char :: b →
  "."%char ∉ a →
  ∃ d n,
    b = d ++ replicate n "0"%char
    ∧ BLI_str_rstrip_float_zero str pad
      = (a ++ "."%char :: d ++ replicate n pad ++ drop (strlen str) str, Z.of_nat n)
    ∧ (b ≠ [] → d ≠ [])
    ∧ (length d ≤ 1 ∨ last d ≠ Some "0"%char).
Proof.
  intros Hstr Hdot.
  pose proof (cstr_nul_free str) as Hnf. rewrite Hstr in Hnf.
  apply nul_free_app in Hnf as [Ha Hb]. apply nul_free_cons in Hb as [_ Hb].
  pose proof (read_drop_strlen str) as Hrest.
  pose proof (take_drop_cstr str) as Hsplit. rewrite Hstr in Hsplit.
  set (rest := drop (strlen str) str) in *.
  rewrite <- app_assoc in Hsplit. cbn [app] in Hsplit.
  clearbody rest. subst str. clear Hstr. unfold BLI_str_rstrip_float_zero.
  rewrite (strchr_first a _ _ Hdot Ha).
  assert (drop (S (length a)) (a ++ "."%char :: b ++ rest) = b ++ rest) as ->.
  { rewrite (cons_middle _ a), app_assoc.
    replace (S (length a)) with (length (a ++ ["."%char]))
      by (rewrite length_app; simpl; lia).
    by rewrite drop_app_length. }
  assert (strlen (b ++ rest) = length b) as ->.
  { rewrite <- length_cstr. by rewrite cstr_app_stop. }
  destruct b as [|x m].
  - exists [], 0. cbn [length]. split_and!; [done | | done | left; simpl; lia].
    destruct (_ >? _)%Z eqn:E; [apply Z.gtb_lt in E; lia | done].
  - destruct (_ >? _)%Z eqn:Hle.
    + replace (Z.to_nat (Z.of_nat (S (length a)) + (Z.of_nat (length (x :: m)) - 1)
                         - Z.of_nat (S (length a))))
        with (length m) by (simpl length; lia).
      rewrite (cons_middle _ a), app_assoc. cbn [app].
      replace (S (length a)) with (length (a ++ ["."%char]))
        by (rewrite length_app; simpl; lia).
      destruct (rstrip_float_zero_loop_spec pad (a ++ ["."%char]) x m rest 0)
        as (d & n & Hm & Hrun & Hlast).
      exists (x :: d), n. rewrite Hrun. split_and!.
      * by rewrite Hm.
      * by rewrite <- !app_assoc.
      * done.
      * destruct d as [|y d]; [left; simpl; lia | right].
        by rewrite last_cons_cons.
    + rewrite Z.gtb_ltb in Hle. apply Z.ltb_ge in Hle.
      assert (m = []) as -> by (destruct m; [done | simpl length in Hle; lia]).
      exists [x], 0. split_and!; [done | done | done | left; simpl; lia].
Qed.

Lemma BLI_str_rstrip_float_zero_strips_witness :
  ∃ d n,
    lit "500" = d ++ replicate n "0"%char
    ∧ BLI_str_rstrip_float_zero (lit "2.500") NUL
      = (lit "2" ++ "."%char :: d ++ replicate n NUL
           ++ drop (strlen (lit "2.500")) (lit "2.500"),
         Z.of_nat n)
    ∧ (lit "500" ≠ [] → d ≠ [])
    ∧ (length d ≤ 1 ∨ last d ≠ Some "0"%char).
Proof.
  apply (BLI_str_rstrip_float_zero_strips (lit "2.500") NUL (lit "2") (lit "500")).
  - reflexivity.
  - vm_compute. by intros [?|?%elem_of_nil]%elem_of_cons.
Defined.

(** ** Padded copy *)

(** A destination whose first bytes have been overwritten with [pre]. *)
Lemma store_prefix pre dst c :
  length pre < length dst →
  store (pre ++ drop (length pre) dst) (length pre) c
  = Some ((pre ++ [c]) ++ drop (length (pre ++ [c])) dst).
Proof.
  intros Hlen. destruct (lookup_lt_is_Some_2 dst (length pre) Hlen) as [x Hx].
  rewrite (drop_S _ _ _ Hx), store_after.
  by rewrite <- app_assoc, length_app, Nat.add_1_r.
Qed.

Lemma memcpy_at_prefix pre dst src n :
  length pre + n ≤ length dst →
  memcpy_at (pre ++ drop (length pre) dst) (length pre) src n
  = Some ((pre ++ bytes src n) ++ drop (length (pre ++ bytes src n)) dst).
Proof.
  intros Hlen. unfold memcpy_at.
  rewrite decide_True by (rewrite length_app; lia).
  rewrite drop_app_length, take_app_length.
  rewrite memcpy_Some by (rewrite length_drop; lia). simpl.
  by rewrite drop_drop, <- app_assoc, length_app, length_bytes.
Qed.

Lemma strlen_pos s : is_nul (read s 0) = false → 1 ≤ strlen s.
Proof.
  destruct s as [|c s]; [done|]. rewrite read_cons_0. cbn [strlen].
  intros ->. lia.
Qed.

Lemma last_take_cstr pre src k :
  1 ≤ k ≤ strlen src →
  last (pre ++ take k (cstr src)) = Some (read src (k - 1)).
Proof.
  intros Hk. rewrite <- take_strlen_cstr by lia.
  assert (Hlt : k - 1 < length src) by (pose proof (strlen_le_length src); lia).
  destruct (lookup_lt_is_Some_2 src (k - 1) Hlt) as [c Hc].
  rewrite (read_lookup _ _ _ Hc).
  replace k with (S (k - 1)) by lia.
  rewrite (take_S_r _ _ _ Hc), app_assoc. apply last_snoc.
Qed.

Lemma ensure_pad_body_spec dst pre src pad m :
  (2 ≤ m < 2 ^ 64)%Z →
  length pre + Z.to_nat m ≤ length dst →
  is_nul (read src 0) = false →
  nul_free pre →
  (pre = [] → read src 0 = pad) →
  ∃ k trail,
    ensure_pad_body (pre ++ drop (length pre) dst) (length pre) src pad m
    = Some ((pre ++ take k (cstr src) ++ trail ++ [NUL])
              ++ drop (length pre + k + length trail + 1) dst)
    ∧ k ≤ strlen src
    ∧ (Z.of_nat (strlen src) + 1 < m → k = strlen src)%Z
    ∧ trail = (if bool_decide (last (pre ++ take k (cstr src)) = Some pad)
               then [] else [pad])
    ∧ (Z.of_nat (k + length trail) < m)%Z
    ∧ 1 ≤ length pre + k.
Proof.
  intros Hm Hdst Hsrc Hpre Hfirst. unfold ensure_pad_body, size_t_dec.
  rewrite Z.mod_small by lia. rewrite BLI_strnlen_spec.
  pose proof (strlen_pos src Hsrc) as Hpos.
  set (srclen := min (strlen src) (Z.to_nat (m - 1))).
  assert (Hsrclen : 1 ≤ srclen ≤ strlen src) by (unfold srclen; lia).
  rewrite decide_False by lia. simpl mbind.
  set (k := if negb (Ascii.eqb (read src (srclen - 1)) pad)
               && bool_decide (Z.of_nat srclen = (m - 1)%Z)
            then srclen - 1 else srclen).
  assert (Hk : k = srclen ∧ (Z.of_nat srclen = (m - 1)%Z → read src (srclen - 1) = pad)
               ∨ k = srclen - 1 ∧ Z.of_nat srclen = (m - 1)%Z
                 ∧ read src (srclen - 1) ≠ pad).
  { unfold k. destruct (Ascii.eqb_spec (read src (srclen - 1)) pad) as [E|Hne];
      cbn [negb andb]; [by left|].
    case_bool_decide; [by right | left; by split]. }
  assert (Hk1 : 1 ≤ length pre + k).
  { destruct Hk as [[-> _]|(-> & _ & Hne)]; [lia|].
    destruct pre as [|x pre]; [|simpl; lia].
    destruct (decide (srclen = 1)) as [E|]; [|lia].
    rewrite E in Hne. simpl in Hne. by specialize (Hfirst eq_refl). }
  assert (Hkle : k ≤ strlen src) by (destruct Hk as [[-> _]|(-> & _)]; lia).
  assert (Hkm : (Z.of_nat k ≤ m - 1)%Z) by (unfold srclen in *; lia).
  rewrite memcpy_at_prefix by lia. simpl mbind.
  rewrite bytes_take by (pose proof (strlen_le_length src); lia).
  rewrite (take_strlen_cstr k src Hkle).
  set (pre2 := pre ++ take k (cstr src)).
  assert (Hlen2 : length pre2 = length pre + k).
  { unfold pre2. rewrite length_app, length_take, length_cstr. lia. }
  rewrite <- Hlen2. rewrite decide_False by lia.
  assert (∃ p, last pre2 = Some p) as [p Hp].
  { destruct pre2 as [|x l] using rev_ind; [simpl in Hlen2; lia|].
    exists x. apply last_snoc. }
  assert ((pre2 ++ drop (length pre2) dst) !! (length pre2 - 1) = Some p) as ->.
  { rewrite lookup_app_l by lia. rewrite <- Hp, last_lookup. f_equal. lia. }
  simpl mbind.
  assert (Hnf2 : nul_free pre2).
  { apply nul_free_app. split; [done|]. apply nul_free_take, cstr_nul_free. }
  destruct (Ascii.eqb_spec p pad) as [->|Hne]; cbn [negb].
  - exists k, []. rewrite store_prefix by lia.
    rewrite bool_decide_eq_true_2 by done.
    split_and!; [| done | | done | simpl; lia | lia].
    + rewrite length_app, Hlen2. cbn [length app]. unfold pre2.
      rewrite <- !app_assoc.
      by replace (length pre + k + 0 + 1) with (length pre + k + 1) by lia.
    + intros Hfit. destruct Hk as [[-> _]|(_ & ? & _)]; unfold srclen in *; lia.
  - assert (Hk2 : (Z.of_nat k < m - 1)%Z).
    { destruct (decide (Z.of_nat k = (m - 1)%Z)) as [E|]; [|lia].
      destruct Hk as [[Hks Hpad]|(? & ? & _)]; [|lia].
      unfold pre2 in Hp. rewrite last_take_cstr in Hp by lia.
      rewrite Hks in Hp. rewrite Hpad in Hp by lia. congruence. }
    exists k, [pad]. rewrite store_prefix by lia. simpl mbind.
    replace (S (length pre2)) with (length (pre2 ++ [pad]))
      by (rewrite length_app; simpl; lia).
    rewrite store_prefix by (rewrite length_app; simpl; lia).
    rewrite bool_decide_eq_false_2 by (unfold pre2 in Hp; congruence).
    split_and!; [| done | | done | simpl; lia | lia].
    + rewrite !length_app, Hlen2. cbn [length app]. unfold pre2.
      rewrite <- !app_assoc. cbn [app].
      by replace (length pre + k + 1 + 1) with (length pre + k + (1 + 1)) by lia.
    + intros Hfit. destruct Hk as [[-> _]|(_ & ? & _)]; unfold srclen in *; lia.
Qed.

Lemma ensure_pad_result dst pre src pad k trail n :
  nul_free pre → is_nul pad = false →
  trail = (if bool_decide (last (pre ++ take k (cstr src)) = Some pad)
           then [] else [pad]) →
  length pre + k + length trail + 1 ≤ n ≤ length dst →
  k ≤ strlen src →
  ∀ dst',
    dst' = (pre ++ take k (cstr src) ++ trail ++ [NUL])
             ++ drop (length pre + k + length trail + 1) dst →
    length dst' = length dst
    ∧ drop n dst' = drop n dst
    ∧ cstr dst' = pre ++ take k (cstr src) ++ trail
    ∧ strlen dst' < n
    ∧ last (cstr dst') = Some pad.
Proof.
  intros Hpre Hpad Htrail Hn Hk dst' ->.
  set (X := pre ++ take k (cstr src) ++ trail).
  assert (HX : length X = length pre + k + length trail).
  { unfold X. rewrite !length_app, length_take, length_cstr. lia. }
  assert (Hnf : nul_free X).
  { unfold X. rewrite !nul_free_app. split_and!; [done | |].
    - apply nul_free_take, cstr_nul_free.
    - rewrite Htrail. case_bool_decide; [apply nul_free_nil|].
      apply nul_free_cons. split; [done | apply nul_free_nil]. }
  assert (Hre : (pre ++ take k (cstr src) ++ trail ++ [NUL])
                  ++ drop (length pre + k + length trail + 1) dst
                = X ++ NUL :: drop (length X + 1) dst).
  { rewrite HX. unfold X. by rewrite <- !app_assoc. }
  rewrite Hre. clear Hre.
  assert (Hcstr : cstr (X ++ NUL :: drop (length X + 1) dst) = X)
    by (by apply cstr_app_nul).
  split_and!.
  - rewrite length_app. cbn [length]. rewrite length_drop. lia.
  - rewrite drop_app_ge by lia.
    destruct (n - length X) as [|j] eqn:Hj; [lia|]. cbn [drop].
    rewrite drop_drop. f_equal. lia.
  - done.
  - rewrite <- length_cstr, Hcstr. lia.
  - rewrite Hcstr. unfold X. rewrite Htrail. case_bool_decide as Hlast.
    + by rewrite app_nil_r.
    + by rewrite app_assoc, last_snoc.
Qed.

(** X28: given a source that is not empty, a [pad] that is not zero and a
    [maxncpy] of at least 3 that the destination can hold,
    [BLI_strncpy_ensure_pad] writes only the first [maxncpy] bytes and
    leaves a terminated text shorter than [maxncpy] that starts and ends
    with [pad]: a [pad] if the source does not start with one, then a prefix
    of the source, the whole of it when [strlen(src) + 2 < maxncpy], then a
    [pad] if the bytes so far do not end with one. *)
Theorem BLI_strncpy_ensure_pad_padded dst src pad maxncpy :
  (3 ≤ maxncpy < 2 ^ 64)%Z →
  (maxncpy ≤ Z.of_nat (length dst))%Z →
  is_nul (read src 0) = false →
  is_nul pad = false →
  ∃ dst' k,
    BLI_strncpy_ensure_pad dst src pad maxncpy = Some dst'
    ∧ length dst' = length dst
    ∧ drop (Z.to_nat maxncpy) dst' = drop (Z.to_nat maxncpy) dst
    ∧ (Z.of_nat (strlen dst') < maxncpy)%Z
    ∧ k ≤ strlen src
    ∧ (Z.of_nat (strlen src) + 2 < maxncpy → k = strlen src)%Z
    ∧ (let lead := if Ascii.eqb (read src 0) pad then [] else [pad] in
       let trail := if bool_decide (last (lead ++ take k (cstr src)) = Some pad)
                    then [] else [pad] in
       cstr dst' = lead ++ take k (cstr src) ++ trail)
    ∧ read dst' 0 = pad
    ∧ last (cstr dst') = Some pad.
Proof.
  intros Hmax Hdst Hsrc Hpad. unfold BLI_strncpy_ensure_pad.
  assert ((maxncpy =? 0)%Z = false) as -> by (apply Z.eqb_neq; lia).
  cbn [negb BLI_assert]. simpl mbind. rewrite Hsrc.
  destruct (Ascii.eqb_spec (read src 0) pad) as [Hfirst|Hfirst]; cbn [negb].
  - destruct (ensure_pad_body_spec dst [] src pad maxncpy)
      as (k & trail & Hrun & Hk & Hfit & Htrail & Hroom & Hk1);
      [lia | simpl; lia | done | apply nul_free_nil | done |].
    cbn [length app] in Hrun. rewrite drop_0 in Hrun. rewrite Hrun.
    destruct (ensure_pad_result dst [] src pad k trail (Z.to_nat maxncpy)
                nul_free_nil Hpad Htrail ltac:(simpl; lia) Hk _ eq_refl)
      as (Hlen & Hdrop & Hcstr & Hstrlen & Hlast).
    cbn [length app] in *.
    eexists _, k. split_and!; [done | done | done | lia | done | | | | done].
    + intros ?. apply Hfit. lia.
    + cbn zeta. cbn [app]. by rewrite <- Htrail.
    + pose proof (cstr_unfold src) as Hc. rewrite Hsrc in Hc.
      destruct k as [|k]; [simpl in Hk1; lia|].
      rewrite Hc. cbn [take app]. by rewrite read_cons_0.
  - destruct (ensure_pad_body_spec dst [pad] src pad (maxncpy - 1))
      as (k & trail & Hrun & Hk & Hfit & Htrail & Hroom & Hk1);
      [lia | simpl; lia | done | | done |].
    { apply nul_free_cons. split; [done | apply nul_free_nil]. }
    pose proof (store_prefix [] dst pad ltac:(simpl; lia)) as Hst.
    cbn [length app] in Hst, Hrun. rewrite drop_0 in Hst. rewrite Hst. simpl mbind.
    unfold size_t_dec. rewrite Z.mod_small by lia. rewrite Hrun.
    assert (Hnf : nul_free [pad])
      by (apply nul_free_cons; split; [done | apply nul_free_nil]).
    destruct (ensure_pad_result dst [pad] src pad k trail (Z.to_nat maxncpy)
                Hnf Hpad Htrail ltac:(simpl; lia) Hk _ eq_refl)
      as (Hlen & Hdrop & Hcstr & Hstrlen & Hlast).
    cbn [length app] in *.
    eexists _, k. split_and!; [done | done | done | lia | done | | | done | done].
    + intros ?. apply Hfit. lia.
    + cbn zeta. cbn [app]. by rewrite <- Htrail.
Qed.

Lemma BLI_strncpy_ensure_pad_padded_witness :
  ∃ dst' k,
    BLI_strncpy_ensure_pad (lit "ZZZZZZ") (lit "abcd") "*" 6 = Some dst'
    ∧ length dst' = length (lit "ZZZZZZ")
    ∧ drop (Z.to_nat 6) dst' = drop (Z.to_nat 6) (lit "ZZZZZZ")
    ∧ (Z.of_nat (strlen dst') < 6)%Z
    ∧ k ≤ strlen (lit "abcd")
    ∧ (Z.of_nat (strlen (lit "abcd")) + 2 < 6 → k = strlen (lit "abcd"))%Z
    ∧ (let lead := if Ascii.eqb (read (lit "abcd") 0) "*" then [] else ["*"%char] in
       let trail := if bool_decide (last (lead ++ take k (cstr (lit "abcd")))
                                    = Some "*"%char)
                    then [] else ["*"%char] in
       cstr dst' = lead ++ take k (cstr (lit "abcd")) ++ trail)
    ∧ read dst' 0 = "*"%char
    ∧ last (cstr dst') = Some "*"%char.
Proof.
  apply (BLI_strncpy_ensure_pad_padded (lit "ZZZZZZ") (lit "abcd") "*" 6).
  - lia.
  - simpl. lia.
  - reflexivity.
  - reflexivity.
Defined.
